(** * Conversation-flow engine of the customer-support chatbot

    A shallow embedding of the deterministic core of the backend:
    the resolution-path table and its matcher ([config/resolutionPaths.ts],
    [services/resolutionService.ts]), the question trees and their
    navigation ([config/questionTrees.ts]), answer validation and
    normalisation ([services/conversationService.ts]), the in-memory
    session store ([services/sessionService.ts]) and the keyword
    classifier used without the language model ([config/issueCategories.ts],
    [services/geminiService.ts], [services/classificationService.ts]).

    Conventions of the embedding.
    - A JavaScript string is a Rocq [string]; each [ascii] stands for one
      UTF-16 code unit in the range 0..255.  White space and case mapping
      follow ECMAScript on that range.
    - A JavaScript object used as a dictionary ([Record<string, T>]) is
      the [gmap string T] of its own properties.  Reading [o[key]] also
      finds what every object inherits from [Object.prototype]
      ([getProperty]), and writing [o[key] = v] goes through the inherited
      setter of [__proto__] ([setProperty]); the lookups by a user-supplied
      key, [nextQuestionMap[answer]] and [answers[questionId]], are
      embedded with them.
    - The [Map] holding the sessions iterates in insertion order, so it is
      an association list with unique keys.
    - [Date] values are milliseconds since the epoch, in [Z].  Every
      [new Date()], [uuidv4()] and [Math.random()] of the source is an
      explicit argument of the embedded function. *)

From Stdlib Require Import ZArith QArith Ascii String List Bool Lia.
From stdpp Require Import base option list gmap strings fin_maps pretty.

Open Scope string_scope.
Open Scope Z_scope.

(** ** JavaScript string primitives *)

Module JsString.

(** The double-quote character, for the few texts that contain it. *)
Definition dq : string := String (ascii_of_nat 34) EmptyString.

(** [s.length] *)
Definition jsLength (s : string) : Z := Z.of_nat (String.length s).

(** [s.includes(sub)] *)
Fixpoint includes (s sub : string) : bool :=
  String.prefix sub s ||
  match s with
  | EmptyString => false
  | String _ s' => includes s' sub
  end.

(** ECMAScript WhiteSpace and LineTerminator code units below 256:
    TAB, LF, VT, FF, CR, SP and NBSP. *)
Definition isWhiteSpace (c : ascii) : bool :=
  let n := nat_of_ascii c in
  ((9 <=? n) && (n <=? 13))%nat || (n =? 32)%nat || (n =? 160)%nat.

Fixpoint trimStart (s : string) : string :=
  match s with
  | EmptyString => EmptyString
  | String c s' => if isWhiteSpace c then trimStart s' else s
  end.

Fixpoint trimEnd (s : string) : string :=
  match s with
  | EmptyString => EmptyString
  | String c s' =>
      match trimEnd s' with
      | EmptyString => if isWhiteSpace c then EmptyString else String c EmptyString
      | t => String c t
      end
  end.

(** [s.trim()] *)
Definition trim (s : string) : string := trimEnd (trimStart s).

(** Case mapping of one code unit.  Upper-case letters are A..Z and
    U+00C0..U+00DE without the multiplication sign U+00D7. *)
Definition lowerChar (c : ascii) : ascii :=
  let n := nat_of_ascii c in
  if ((65 <=? n) && (n <=? 90))%nat
     || ((192 <=? n) && (n <=? 222) && negb (n =? 215))%nat
  then ascii_of_nat (n + 32) else c.

(** Lower-case letters whose upper-case form is again one code unit
    below 256: a..z and U+00E0..U+00FE without the division sign U+00F7.
    (U+00B5, U+00DF and U+00FF map outside the range and are left as
    they are.) *)
Definition upperChar (c : ascii) : ascii :=
  let n := nat_of_ascii c in
  if ((97 <=? n) && (n <=? 122))%nat
     || ((224 <=? n) && (n <=? 254) && negb (n =? 247))%nat
  then ascii_of_nat (n - 32) else c.

Fixpoint mapChars (f : ascii -> ascii) (s : string) : string :=
  match s with
  | EmptyString => EmptyString
  | String c s' => String (f c) (mapChars f s')
  end.

(** [s.toLowerCase()] and [s.toUpperCase()] *)
Definition toLowerCase : string -> string := mapChars lowerChar.
Definition toUpperCase : string -> string := mapChars upperChar.

Definition isDigit (c : ascii) : bool :=
  let n := nat_of_ascii c in ((48 <=? n) && (n <=? 57))%nat.

Fixpoint allDigits (s : string) : bool :=
  match s with
  | EmptyString => true
  | String c s' => isDigit c && allDigits s'
  end.

(** [/^\d+$/.test(s)] *)
Definition isDigitString (s : string) : bool :=
  match s with
  | EmptyString => false
  | _ => allDigits s
  end.

Fixpoint parseDigits (acc : Z) (s : string) : Z :=
  match s with
  | EmptyString => acc
  | String c s' => parseDigits (10 * acc + (Z.of_nat (nat_of_ascii c) - 48)) s'
  end.

(** [parseInt(s, 10)] on a string of decimal digits. *)
Definition parseInt (s : string) : Z := parseDigits 0 s.

(** [s.padStart(n, '0')] *)
Definition padStart0 (n : nat) (s : string) : string :=
  String.concat EmptyString (repeat "0" (n - String.length s)) ++ s.

(** [s.replace(/-/g, '')] *)
Fixpoint removeDashes (s : string) : string :=
  match s with
  | EmptyString => EmptyString
  | String c s' => if Ascii.eqb c "-" then removeDashes s' else String c (removeDashes s')
  end.

End JsString.
Import JsString.

(** ** Plain JavaScript objects *)

(** What a call can throw. *)
Inductive Thrown :=
  | Error (msg : string)
  | TypeError (msg : string).

Module JsObject.

(** The names of the properties of [Object.prototype], which every object
    created by an object literal inherits. *)
Definition objectPrototype : list string :=
  ["constructor"; "hasOwnProperty"; "isPrototypeOf"; "propertyIsEnumerable";
   "toLocaleString"; "toString"; "valueOf"; "__defineGetter__";
   "__defineSetter__"; "__lookupGetter__"; "__lookupSetter__"; "__proto__"].

Definition isInherited (key : string) : bool :=
  existsb (String.eqb key) objectPrototype.

(** The value of [o[key]]: an own property; or, when there is none, what
    [Object.prototype] has under that name (a built-in function, and
    [Object.prototype] itself for [__proto__]: an object, never a string);
    or [undefined]. *)
Inductive Property (T : Type) :=
  | Own (v : T)
  | Inherited (name : string)
  | Undefined.
Arguments Own {T} v.
Arguments Inherited {T} name.
Arguments Undefined {T}.

Definition getProperty {T} (o : gmap string T) (key : string) : Property T :=
  match o !! key with
  | Some v => Own v
  | None => if isInherited key then Inherited key else Undefined
  end.

(** [o[key] = v] for a string [v].  Without an own property of that name,
    [__proto__] reaches the inherited setter, which ignores a string;
    every other name becomes an own property. *)
Definition setProperty (o : gmap string string) (key v : string)
    : gmap string string :=
  match o !! key with
  | None => if String.eqb key "__proto__" then o else <[key := v]> o
  | Some _ => <[key := v]> o
  end.

(** The property key that an inherited value turns into when it is used
    as one ([o[value]]): the source text of the built-in function as V8
    prints it, and ["[object Object]"] for [Object.prototype]. *)
Definition inheritedKey (name : string) : string :=
  if String.eqb name "__proto__" then "[object Object]"
  else "function "
       ++ (if String.eqb name "constructor" then "Object" else name)
       ++ "() { [native code] }".

End JsObject.
Import JsObject.

(** ** Types ([types/index.ts]) *)

Inductive IssueCategory :=
  | ORDER_STATUS | DELIVERY_PROBLEM | PAYMENT_ISSUE | REFUND_REQUEST
  | PRODUCT_DEFECT | ACCOUNT_ACCESS | BILLING_INQUIRY | CANCELLATION | OTHER.

Inductive QuestionType :=
  | SINGLE_CHOICE | MULTIPLE_CHOICE | TEXT_INPUT | YES_NO | DATE | ORDER_ID.

Inductive ResolutionType :=
  | SELF_SERVICE | AUTOMATED_ACTION | ESCALATE_AGENT | ESCALATE_SPECIALIST
  | INFORMATION_PROVIDED.

Inductive ConversationMode := SYSTEM_INITIATED | USER_INITIATED.

(** [ValidationRule]: [value?: string | number]. *)
Inductive RuleType :=
  | rule_required | rule_pattern | rule_minLength | rule_maxLength | rule_custom.

Inductive RuleValue :=
  | VString (s : string)
  | VNumber (n : Z).

Record ValidationRule := {
  rtype : RuleType;
  value : option RuleValue;
  errorMessage : string
}.

Record Question := {
  q_id : string;
  text : string;
  q_type : QuestionType;
  options : option (list string);
  nextQuestionMap : option (gmap string string);
  validationRules : option (list ValidationRule)
}.

(** [ResolutionCondition]: [expectedAnswer: string | string[]]. *)
Inductive ExpectedAnswer :=
  | One (s : string)
  | Many (l : list string).

Inductive Operator :=
  | op_equals | op_contains | op_in | op_greaterThan | op_lessThan.

Record ResolutionCondition := {
  questionId : string;
  expectedAnswer : ExpectedAnswer;
  operator : Operator
}.

Record ResolutionPath := {
  rp_id : string;
  rp_category : IssueCategory;
  rp_type : ResolutionType;
  conditions : list ResolutionCondition;
  steps : option (list string);
  escalationReason : option string;
  estimatedTime : option string;
  requiresData : option (list string)
}.

Inductive Priority := low | medium | high | urgent.

Record EscalationDetails := {
  team : string;
  priority : Priority;
  estimatedResponseTime : string;
  ticketNumber : string
}.

Record Resolution := {
  res_type : ResolutionType;
  message : string;
  res_steps : option (list string);
  escalationDetails : option EscalationDetails;
  referenceNumber : option string
}.

#[global] Instance IssueCategory_eq_dec : EqDecision IssueCategory.
Proof. solve_decision. Defined.
#[global] Instance ResolutionType_eq_dec : EqDecision ResolutionType.
Proof. solve_decision. Defined.
#[global] Instance QuestionType_eq_dec : EqDecision QuestionType.
Proof. solve_decision. Defined.

Definition all_categories : list IssueCategory :=
  [ORDER_STATUS; DELIVERY_PROBLEM; PAYMENT_ISSUE; REFUND_REQUEST;
   PRODUCT_DEFECT; ACCOUNT_ACCESS; BILLING_INQUIRY; CANCELLATION; OTHER].

(** ** Resolution paths ([config/resolutionPaths.ts]) *)

(** One entry of a [conditions] array. *)
Definition condition (question : string) (op : Operator) (expected : ExpectedAnswer)
    : ResolutionCondition :=
  {| questionId := question; expectedAnswer := expected; operator := op |}.

Definition ORDER_STATUS_RESOLUTIONS : list ResolutionPath :=
  [
    {| rp_id := "order_status_found";
       rp_category := ORDER_STATUS;
       rp_type := INFORMATION_PROVIDED;
       conditions :=
         [condition "order_status_2" op_contains (One EmptyString)];
       steps := None;
       escalationReason := None;
       estimatedTime := Some "Immediate";
       requiresData := Some ["orderId"] |};
    {| rp_id := "order_status_email_lookup";
       rp_category := ORDER_STATUS;
       rp_type := INFORMATION_PROVIDED;
       conditions :=
         [condition "order_status_3" op_contains (One EmptyString)];
       steps := None;
       escalationReason := None;
       estimatedTime := Some "Immediate";
       requiresData := Some ["email"] |}
  ].

Definition DELIVERY_PROBLEM_RESOLUTIONS : list ResolutionPath :=
  [
    {| rp_id := "delivery_delayed_minor";
       rp_category := DELIVERY_PROBLEM;
       rp_type := INFORMATION_PROVIDED;
       conditions :=
         [condition "delivery_1" op_equals (One "Package is delayed");
          condition "delivery_2" op_equals (One "1-2 days")];
       steps := Some
         ["Check tracking information for latest updates";
          "Delivery delays of 1-2 days are common due to weather or high volume";
          "Your package should arrive within the next 24-48 hours"];
       escalationReason := None;
       estimatedTime := Some "24-48 hours";
       requiresData := None |};
    {| rp_id := "delivery_delayed_major";
       rp_category := DELIVERY_PROBLEM;
       rp_type := ESCALATE_AGENT;
       conditions :=
         [condition "delivery_1" op_equals (One "Package is delayed");
          condition "delivery_2" op_in (Many ["3-5 days"; "More than 5 days"])];
       steps := None;
       escalationReason := Some "Significant delivery delay requires investigation";
       estimatedTime := Some "24 hours for agent response";
       requiresData := None |};
    {| rp_id := "delivery_wrong_address";
       rp_category := DELIVERY_PROBLEM;
       rp_type := ESCALATE_AGENT;
       conditions :=
         [condition "delivery_1" op_equals (One "Package delivered to wrong address")];
       steps := None;
       escalationReason := Some "Wrong address delivery requires carrier investigation";
       estimatedTime := Some "24-48 hours for resolution";
       requiresData := None |};
    {| rp_id := "delivery_damaged";
       rp_category := DELIVERY_PROBLEM;
       rp_type := ESCALATE_AGENT;
       conditions :=
         [condition "delivery_1" op_equals (One "Package is damaged")];
       steps := None;
       escalationReason := Some "Damaged package requires inspection and potential replacement";
       estimatedTime := Some "48 hours for resolution";
       requiresData := None |};
    {| rp_id := "delivery_lost";
       rp_category := DELIVERY_PROBLEM;
       rp_type := ESCALATE_SPECIALIST;
       conditions :=
         [condition "delivery_1" op_equals (One "Package is lost/missing")];
       steps := None;
       escalationReason := Some "Lost package requires carrier claim and replacement processing";
       estimatedTime := Some "3-5 business days";
       requiresData := None |}
  ].

Definition PAYMENT_ISSUE_RESOLUTIONS : list ResolutionPath :=
  [
    {| rp_id := "payment_declined_self_service";
       rp_category := PAYMENT_ISSUE;
       rp_type := SELF_SERVICE;
       conditions :=
         [condition "payment_1" op_equals (One "Payment was declined");
          condition "payment_2" op_equals (One "no")];
       steps := Some
         ["Verify your payment method has sufficient funds";
          "Check with your bank that the card is not blocked";
          "Ensure billing address matches your bank records";
          "Try a different payment method if issue persists"];
       escalationReason := None;
       estimatedTime := Some "Immediate";
       requiresData := None |};
    {| rp_id := "payment_declined_escalate";
       rp_category := PAYMENT_ISSUE;
       rp_type := ESCALATE_AGENT;
       conditions :=
         [condition "payment_1" op_equals (One "Payment was declined");
          condition "payment_2" op_equals (One "yes")];
       steps := None;
       escalationReason := Some "Payment declined despite sufficient funds - requires investigation";
       estimatedTime := Some "24 hours";
       requiresData := None |};
    {| rp_id := "payment_wrong_amount";
       rp_category := PAYMENT_ISSUE;
       rp_type := ESCALATE_AGENT;
       conditions :=
         [condition "payment_1" op_equals (One "Charged incorrect amount")];
       steps := None;
       escalationReason := Some "Incorrect charge amount requires billing review";
       estimatedTime := Some "24-48 hours";
       requiresData := None |};
    {| rp_id := "payment_multiple_charges";
       rp_category := PAYMENT_ISSUE;
       rp_type := ESCALATE_SPECIALIST;
       conditions :=
         [condition "payment_1" op_equals (One "Charged multiple times")];
       steps := None;
       escalationReason := Some "Multiple charges require immediate refund processing";
       estimatedTime := Some "24 hours for refund initiation";
       requiresData := None |}
  ].

Definition REFUND_REQUEST_RESOLUTIONS : list ResolutionPath :=
  [
    {| rp_id := "refund_defective_returned";
       rp_category := REFUND_REQUEST;
       rp_type := AUTOMATED_ACTION;
       conditions :=
         [condition "refund_1" op_equals (One "Product defective or damaged");
          condition "refund_2" op_equals (One "yes")];
       steps := Some
         ["Refund will be processed once return is received";
          "Expected processing time: 3-5 business days after receipt";
          "Refund will be issued to original payment method"];
       escalationReason := None;
       estimatedTime := Some "3-5 business days after return receipt";
       requiresData := Some ["returnTrackingNumber"] |};
    {| rp_id := "refund_defective_not_returned";
       rp_category := REFUND_REQUEST;
       rp_type := SELF_SERVICE;
       conditions :=
         [condition "refund_1" op_equals (One "Product defective or damaged");
          condition "refund_2" op_equals (One "no");
          condition "refund_2b" op_equals (One "yes")];
       steps := Some
         ["Print the prepaid return label from your order page";
          "Package the item securely in original packaging if possible";
          "Attach the label and drop off at any carrier location";
          "Refund will be processed 3-5 days after we receive the return"];
       escalationReason := None;
       estimatedTime := Some "7-10 business days total";
       requiresData := None |};
    {| rp_id := "refund_changed_mind_eligible";
       rp_category := REFUND_REQUEST;
       rp_type := SELF_SERVICE;
       conditions :=
         [condition "refund_1" op_in (Many ["Changed my mind"; "Better price elsewhere"]);
          condition "refund_4" op_equals (One "yes")];
       steps := Some
         ["You can return the item within 30 days of purchase";
          "Item must be unused and in original packaging";
          "Print return label from your order page";
          "Refund will be processed minus original shipping cost"];
       escalationReason := None;
       estimatedTime := Some "7-10 business days";
       requiresData := None |};
    {| rp_id := "refund_changed_mind_ineligible";
       rp_category := REFUND_REQUEST;
       rp_type := ESCALATE_AGENT;
       conditions :=
         [condition "refund_1" op_in (Many ["Changed my mind"; "Better price elsewhere"]);
          condition "refund_4" op_equals (One "no")];
       steps := None;
       escalationReason := Some "Item not in original condition - requires case-by-case review";
       estimatedTime := Some "24-48 hours";
       requiresData := None |}
  ].

Definition PRODUCT_DEFECT_RESOLUTIONS : list ResolutionPath :=
  [
    {| rp_id := "defect_immediate";
       rp_category := PRODUCT_DEFECT;
       rp_type := ESCALATE_AGENT;
       conditions :=
         [condition "defect_2" op_equals (One "Upon delivery")];
       steps := None;
       escalationReason := Some "Defect upon delivery - eligible for immediate replacement";
       estimatedTime := Some "24 hours for replacement processing";
       requiresData := None |};
    {| rp_id := "defect_warranty";
       rp_category := PRODUCT_DEFECT;
       rp_type := ESCALATE_AGENT;
       conditions :=
         [condition "defect_2" op_in (Many ["Within first week"; "After 1-2 weeks"])];
       steps := None;
       escalationReason := Some "Product defect within warranty period";
       estimatedTime := Some "48 hours for resolution";
       requiresData := None |};
    {| rp_id := "defect_late";
       rp_category := PRODUCT_DEFECT;
       rp_type := ESCALATE_SPECIALIST;
       conditions :=
         [condition "defect_2" op_equals (One "After more than 2 weeks")];
       steps := None;
       escalationReason := Some "Late defect report - requires warranty verification";
       estimatedTime := Some "3-5 business days";
       requiresData := None |}
  ].

Definition ACCOUNT_ACCESS_RESOLUTIONS : list ResolutionPath :=
  [
    {| rp_id := "account_password_self_service";
       rp_category := ACCOUNT_ACCESS;
       rp_type := SELF_SERVICE;
       conditions :=
         [condition "account_1" op_equals (One "Forgot password");
          condition "account_2" op_equals (One "no")];
       steps := Some
         ["Go to the login page";
          ("Click " ++ dq ++ "Forgot Password" ++ dq ++ " link");
          "Enter your email address";
          "Check your email for reset link (check spam folder)";
          "Follow the link to create a new password"];
       escalationReason := None;
       estimatedTime := Some "Immediate";
       requiresData := None |};
    {| rp_id := "account_password_escalate";
       rp_category := ACCOUNT_ACCESS;
       rp_type := ESCALATE_AGENT;
       conditions :=
         [condition "account_1" op_equals (One "Forgot password");
          condition "account_2" op_equals (One "yes")];
       steps := None;
       escalationReason := Some "Password reset not working - requires manual intervention";
       estimatedTime := Some "2-4 hours";
       requiresData := None |};
    {| rp_id := "account_locked";
       rp_category := ACCOUNT_ACCESS;
       rp_type := ESCALATE_AGENT;
       conditions :=
         [condition "account_1" op_equals (One "Account locked")];
       steps := None;
       escalationReason := Some "Account locked - requires security review and unlock";
       estimatedTime := Some "4-6 hours";
       requiresData := None |};
    {| rp_id := "account_email_issue";
       rp_category := ACCOUNT_ACCESS;
       rp_type := SELF_SERVICE;
       conditions :=
         [condition "account_1" op_equals (One "Cannot receive verification email");
          condition "account_4" op_equals (One "no")];
       steps := Some
         ["Check your spam/junk folder";
          "Add noreply@shopease.com to your contacts";
          "Check if your email provider is blocking our emails";
          "Try requesting a new verification email"];
       escalationReason := None;
       estimatedTime := Some "Immediate";
       requiresData := None |}
  ].

Definition CANCELLATION_RESOLUTIONS : list ResolutionPath :=
  [
    {| rp_id := "cancel_not_shipped";
       rp_category := CANCELLATION;
       rp_type := AUTOMATED_ACTION;
       conditions :=
         [condition "cancel_1" op_equals (One "no");
          condition "cancel_3" op_equals (One "yes")];
       steps := Some
         ["Your order has been cancelled";
          "Refund will be processed within 3-5 business days";
          "You will receive a confirmation email shortly"];
       escalationReason := None;
       estimatedTime := Some "3-5 business days for refund";
       requiresData := None |};
    {| rp_id := "cancel_shipped_refuse";
       rp_category := CANCELLATION;
       rp_type := SELF_SERVICE;
       conditions :=
         [condition "cancel_1" op_equals (One "yes");
          condition "cancel_2" op_equals (One "Refuse delivery")];
       steps := Some
         ["When the carrier attempts delivery, refuse to accept the package";
          "The package will be returned to us automatically";
          "Refund will be processed once we receive the return";
          "Expected timeline: 7-10 business days"];
       escalationReason := None;
       estimatedTime := Some "7-10 business days";
       requiresData := None |};
    {| rp_id := "cancel_shipped_return";
       rp_category := CANCELLATION;
       rp_type := SELF_SERVICE;
       conditions :=
         [condition "cancel_1" op_equals (One "yes");
          condition "cancel_2" op_equals (One "Return after receiving")];
       steps := Some
         ["Accept the delivery when it arrives";
          "Initiate a return from your order page";
          "Print the prepaid return label";
          "Ship the item back to us";
          "Refund will be processed after we receive it"];
       escalationReason := None;
       estimatedTime := Some "10-14 business days";
       requiresData := None |}
  ].

Definition BILLING_INQUIRY_RESOLUTIONS : list ResolutionPath :=
  [
    {| rp_id := "billing_invoice";
       rp_category := BILLING_INQUIRY;
       rp_type := SELF_SERVICE;
       conditions :=
         [condition "billing_1" op_equals (One "Invoice copy")];
       steps := Some
         ["Log in to your account";
          "Go to Order History";
          "Click on the order you need an invoice for";
          ("Click " ++ dq ++ "Download Invoice" ++ dq ++ " button");
          "Invoice will be downloaded as PDF"];
       escalationReason := None;
       estimatedTime := Some "Immediate";
       requiresData := None |};
    {| rp_id := "billing_other";
       rp_category := BILLING_INQUIRY;
       rp_type := ESCALATE_AGENT;
       conditions :=
         [condition "billing_1" op_in (Many ["Billing statement"; "Charge details"; "Other"])];
       steps := None;
       escalationReason := Some "Billing inquiry requires detailed account review";
       estimatedTime := Some "24 hours";
       requiresData := None |}
  ].

Definition OTHER_RESOLUTIONS : list ResolutionPath :=
  [
    {| rp_id := "other_escalate";
       rp_category := OTHER;
       rp_type := ESCALATE_AGENT;
       conditions :=
         [];
       steps := None;
       escalationReason := Some "Issue does not fit predefined categories - requires human review";
       estimatedTime := Some "24-48 hours";
       requiresData := None |}
  ].

Definition RESOLUTION_PATHS (category : IssueCategory) : list ResolutionPath :=
  match category with
  | ORDER_STATUS => ORDER_STATUS_RESOLUTIONS
  | DELIVERY_PROBLEM => DELIVERY_PROBLEM_RESOLUTIONS
  | PAYMENT_ISSUE => PAYMENT_ISSUE_RESOLUTIONS
  | REFUND_REQUEST => REFUND_REQUEST_RESOLUTIONS
  | PRODUCT_DEFECT => PRODUCT_DEFECT_RESOLUTIONS
  | ACCOUNT_ACCESS => ACCOUNT_ACCESS_RESOLUTIONS
  | BILLING_INQUIRY => BILLING_INQUIRY_RESOLUTIONS
  | CANCELLATION => CANCELLATION_RESOLUTIONS
  | OTHER => OTHER_RESOLUTIONS
  end.

(** One turn of the loop of [checkConditions]: [inl false] is the early
    [return false], [inl true] falls through to the next condition.  A
    missing answer and the empty string are both falsy in [!userAnswer];
    an inherited property is truthy and is no string, so it differs from
    every expected value, is in no array of strings, and has no
    [includes] to call. *)
Definition conditionMet (condition : ResolutionCondition)
    (answers : gmap string string) : bool + Thrown :=
  match getProperty answers (questionId condition) with
  | Undefined => inl false
  | Own userAnswer =>
      if String.eqb userAnswer EmptyString then inl false
      else
        inl
          match operator condition with
          | op_equals =>
              match expectedAnswer condition with
              | One e => String.eqb userAnswer e
              | Many _ => false
              end
          | op_contains =>
              match expectedAnswer condition with
              | One e => includes userAnswer e
              | Many _ => true
              end
          | op_in =>
              match expectedAnswer condition with
              | Many l => existsb (String.eqb userAnswer) l
              | One _ => true
              end
          | op_greaterThan | op_lessThan => true
          end
  | Inherited _ =>
      match operator condition with
      | op_equals => inl false
      | op_contains =>
          match expectedAnswer condition with
          | One _ => inr (TypeError "userAnswer.includes is not a function")
          | Many _ => inl true
          end
      | op_in =>
          match expectedAnswer condition with
          | Many _ => inl false
          | One _ => inl true
          end
      | op_greaterThan | op_lessThan => inl true
      end
  end.

Fixpoint checkEach (conditions : list ResolutionCondition)
    (answers : gmap string string) : bool + Thrown :=
  match conditions with
  | [] => inl true
  | condition :: rest =>
      match conditionMet condition answers with
      | inl true => checkEach rest answers
      | inl false => inl false
      | inr e => inr e
      end
  end.

Definition checkConditions (conditions : list ResolutionCondition)
    (answers : gmap string string) : bool + Thrown :=
  if (length conditions =? 0)%nat then inl true else checkEach conditions answers.

(** The [for ... of] loop of [findMatchingResolution]. *)
Fixpoint firstMatch (paths : list ResolutionPath)
    (answers : gmap string string) : option ResolutionPath + Thrown :=
  match paths with
  | [] => inl None
  | path :: rest =>
      match checkConditions (conditions path) answers with
      | inl true => inl (Some path)
      | inl false => firstMatch rest answers
      | inr e => inr e
      end
  end.

(** [findMatchingResolution]; [None] is [undefined], which
    [paths[paths.length - 1]] yields on an empty array. *)
Definition findMatchingResolution (category : IssueCategory)
    (answers : gmap string string) : option ResolutionPath + Thrown :=
  let paths := RESOLUTION_PATHS category in
  match firstMatch paths answers with
  | inl (Some path) => inl (Some path)
  | inl None => inl (paths !! (length paths - 1)%nat)
  | inr e => inr e
  end.

Definition getResolutionPaths (category : IssueCategory) : list ResolutionPath :=
  RESOLUTION_PATHS category.

(** ** Resolution service ([services/resolutionService.ts]) *)

(** What the service reads from its environment while it builds one
    resolution. *)
Record Entropy := {
  isoNow : string;      (* new Date().toISOString() *)
  random10000 : N;      (* Math.floor(Math.random() * 10000) *)
  uuid : string         (* uuidv4() *)
}.

(** Format: TKT-YYYYMMDD-XXXX *)
Definition generateTicketNumber (env : Entropy) : string :=
  let dateStr := removeDashes (String.substring 0 10 (isoNow env)) in
  let random := padStart0 4 (pretty (random10000 env)) in
  "TKT-" ++ dateStr ++ "-" ++ random.

(** Format: REF-XXXXXXXX *)
Definition generateReferenceNumber (env : Entropy) : string :=
  "REF-" ++ toUpperCase (String.substring 0 8 (removeDashes (uuid env))).

Definition getTeamForPriority (priority : Priority) : string :=
  match priority with
  | urgent => "Priority Support Team"
  | high => "Specialist Team"
  | medium => "Customer Support Team"
  | low => "General Support Team"
  end.

Definition createSelfServiceResolution (steps : list string) : Resolution :=
  {| res_type := SELF_SERVICE;
     message := "You can resolve this issue yourself by following these steps:";
     res_steps := Some steps;
     escalationDetails := None;
     referenceNumber := None |}.

Definition createAutomatedActionResolution (env : Entropy)
    (steps : list string) (_estimatedTime : string) : Resolution :=
  {| res_type := AUTOMATED_ACTION;
     message := "I'll take care of this for you. Here's what will happen:";
     res_steps := Some steps;
     escalationDetails := None;
     referenceNumber := Some (generateReferenceNumber env) |}.

Definition createInformationResolution (info : list string)
    (_answers : gmap string string) : Resolution :=
  {| res_type := INFORMATION_PROVIDED;
     message := "Here's the information you need:";
     res_steps := Some info;
     escalationDetails := None;
     referenceNumber := None |}.

Definition createEscalationResolution (env : Entropy) (_reason : string)
    (priority : Priority) (estimatedTime : string) : Resolution :=
  let ticketNumber := generateTicketNumber env in
  let escalationDetails :=
    {| team := getTeamForPriority priority;
       priority := priority;
       estimatedResponseTime := estimatedTime;
       ticketNumber := ticketNumber |} in
  {| res_type :=
       match priority with
       | high | urgent => ESCALATE_SPECIALIST
       | _ => ESCALATE_AGENT
       end;
     message := "I've created a support ticket for you. Our team will help resolve this issue.";
     res_steps := None;
     escalationDetails := Some escalationDetails;
     referenceNumber := Some ticketNumber |}.

(** [x || fallback] on an optional string: absent and empty are falsy. *)
Definition orElse (x : option string) (fallback : string) : string :=
  match x with
  | Some s => if String.eqb s EmptyString then fallback else s
  | None => fallback
  end.

(** An exception of [findMatchingResolution] is not caught. *)
Definition findResolution (env : Entropy) (category : IssueCategory)
    (answers : gmap string string) : Resolution + Thrown :=
  match findMatchingResolution category answers with
  | inr e => inr e
  | inl None =>
      inl (createEscalationResolution env "No matching resolution path found"
             medium "24-48 hours")
  | inl (Some path) =>
      inl
        match rp_type path with
        | SELF_SERVICE =>
            createSelfServiceResolution (default [] (steps path))
        | AUTOMATED_ACTION =>
            createAutomatedActionResolution env (default [] (steps path))
              (orElse (estimatedTime path) "Processing")
        | INFORMATION_PROVIDED =>
            createInformationResolution (default [] (steps path)) answers
        | ESCALATE_AGENT =>
            createEscalationResolution env
              (orElse (escalationReason path) "Requires agent assistance")
              medium (orElse (estimatedTime path) "24 hours")
        | ESCALATE_SPECIALIST =>
            createEscalationResolution env
              (orElse (escalationReason path) "Requires specialist team")
              high (orElse (estimatedTime path) "48 hours")
        end
  end.

(** ** Question trees ([config/questionTrees.ts]) *)

Record QuestionTree := {
  qt_category : IssueCategory;
  rootQuestionId : string;
  questions : gmap string Question
}.

Definition ORDER_STATUS_TREE : QuestionTree :=
  {| qt_category := ORDER_STATUS;
     rootQuestionId := "order_status_1";
     questions := list_to_map [
       ("order_status_1",
        {| q_id := "order_status_1";
           text :=
             "Do you have your order number?";
           q_type := YES_NO;
           options := None;
           nextQuestionMap := Some (list_to_map
            [("yes", "order_status_2");
             ("no", "order_status_3")]);
           validationRules := None |});
       ("order_status_2",
        {| q_id := "order_status_2";
           text :=
             "Please provide your order number (format: ORD-XXXXX)";
           q_type := ORDER_ID;
           options := None;
           nextQuestionMap := None;
           validationRules := Some
             [{| rtype := rule_required; value := None;
                errorMessage := "Order number is required" |};
              {| rtype := rule_pattern; value := Some (VString "^ORD-[0-9]{5}$");
                errorMessage := "Order number must be in format ORD-XXXXX" |}] |});
       ("order_status_3",
        {| q_id := "order_status_3";
           text :=
             "Can you provide the email address used for the order?";
           q_type := TEXT_INPUT;
           options := None;
           nextQuestionMap := None;
           validationRules := Some
             [{| rtype := rule_required; value := None;
                errorMessage := "Email address is required" |};
              {| rtype := rule_pattern; value := Some (VString "^[^\s@]+@[^\s@]+\.[^\s@]+$");
                errorMessage := "Please provide a valid email address" |}] |})
     ] |}.

Definition DELIVERY_PROBLEM_TREE : QuestionTree :=
  {| qt_category := DELIVERY_PROBLEM;
     rootQuestionId := "delivery_1";
     questions := list_to_map [
       ("delivery_1",
        {| q_id := "delivery_1";
           text :=
             "What type of delivery problem are you experiencing?";
           q_type := SINGLE_CHOICE;
           options := Some
             ["Package is delayed";
              "Package delivered to wrong address";
              "Package is damaged";
              "Package is lost/missing";
              "Other delivery issue"];
           nextQuestionMap := Some (list_to_map
            [("Package is delayed", "delivery_2");
             ("Package delivered to wrong address", "delivery_3");
             ("Package is damaged", "delivery_4");
             ("Package is lost/missing", "delivery_5");
             ("Other delivery issue", "delivery_6")]);
           validationRules := None |});
       ("delivery_2",
        {| q_id := "delivery_2";
           text :=
             "How many days past the expected delivery date is your package?";
           q_type := SINGLE_CHOICE;
           options := Some
             ["1-2 days";
              "3-5 days";
              "More than 5 days"];
           nextQuestionMap := None;
           validationRules := None |});
       ("delivery_3",
        {| q_id := "delivery_3";
           text :=
             "Do you know where the package was delivered?";
           q_type := YES_NO;
           options := None;
           nextQuestionMap := Some (list_to_map
            [("yes", "delivery_3a");
             ("no", "delivery_3b")]);
           validationRules := None |});
       ("delivery_3a",
        {| q_id := "delivery_3a";
           text :=
             "Please describe the location where it was delivered";
           q_type := TEXT_INPUT;
           options := None;
           nextQuestionMap := None;
           validationRules := None |});
       ("delivery_3b",
        {| q_id := "delivery_3b";
           text :=
             "Have you checked with neighbors or building management?";
           q_type := YES_NO;
           options := None;
           nextQuestionMap := None;
           validationRules := None |});
       ("delivery_4",
        {| q_id := "delivery_4";
           text :=
             "Can you describe the damage to the package?";
           q_type := TEXT_INPUT;
           options := None;
           nextQuestionMap := None;
           validationRules := Some
             [{| rtype := rule_required; value := None;
                errorMessage := "Please describe the damage" |};
              {| rtype := rule_minLength; value := Some (VNumber 10);
                errorMessage := "Please provide more details (at least 10 characters)" |}] |});
       ("delivery_5",
        {| q_id := "delivery_5";
           text :=
             "When was the package supposed to be delivered?";
           q_type := DATE;
           options := None;
           nextQuestionMap := None;
           validationRules := None |});
       ("delivery_6",
        {| q_id := "delivery_6";
           text :=
             "Please describe your delivery issue";
           q_type := TEXT_INPUT;
           options := None;
           nextQuestionMap := None;
           validationRules := Some
             [{| rtype := rule_required; value := None;
                errorMessage := "Please describe the issue" |}] |})
     ] |}.

Definition PAYMENT_ISSUE_TREE : QuestionTree :=
  {| qt_category := PAYMENT_ISSUE;
     rootQuestionId := "payment_1";
     questions := list_to_map [
       ("payment_1",
        {| q_id := "payment_1";
           text :=
             "What payment issue are you experiencing?";
           q_type := SINGLE_CHOICE;
           options := Some
             ["Payment was declined";
              "Charged incorrect amount";
              "Charged multiple times";
              "Payment method not accepted";
              "Other payment issue"];
           nextQuestionMap := Some (list_to_map
            [("Payment was declined", "payment_2");
             ("Charged incorrect amount", "payment_3");
             ("Charged multiple times", "payment_4");
             ("Payment method not accepted", "payment_5");
             ("Other payment issue", "payment_6")]);
           validationRules := None |});
       ("payment_2",
        {| q_id := "payment_2";
           text :=
             "Have you verified that your payment method has sufficient funds?";
           q_type := YES_NO;
           options := None;
           nextQuestionMap := None;
           validationRules := None |});
       ("payment_3",
        {| q_id := "payment_3";
           text :=
             "What amount were you charged, and what amount did you expect?";
           q_type := TEXT_INPUT;
           options := None;
           nextQuestionMap := None;
           validationRules := Some
             [{| rtype := rule_required; value := None;
                errorMessage := "Please provide both amounts" |}] |});
       ("payment_4",
        {| q_id := "payment_4";
           text :=
             "How many times were you charged?";
           q_type := SINGLE_CHOICE;
           options := Some
             ["2 times";
              "3 times";
              "More than 3 times"];
           nextQuestionMap := None;
           validationRules := None |});
       ("payment_5",
        {| q_id := "payment_5";
           text :=
             "Which payment method are you trying to use?";
           q_type := SINGLE_CHOICE;
           options := Some
             ["Credit Card";
              "Debit Card";
              "PayPal";
              "Other"];
           nextQuestionMap := None;
           validationRules := None |});
       ("payment_6",
        {| q_id := "payment_6";
           text :=
             "Please describe your payment issue";
           q_type := TEXT_INPUT;
           options := None;
           nextQuestionMap := None;
           validationRules := Some
             [{| rtype := rule_required; value := None;
                errorMessage := "Please describe the issue" |}] |})
     ] |}.

Definition REFUND_REQUEST_TREE : QuestionTree :=
  {| qt_category := REFUND_REQUEST;
     rootQuestionId := "refund_1";
     questions := list_to_map [
       ("refund_1",
        {| q_id := "refund_1";
           text :=
             "What is the reason for your refund request?";
           q_type := SINGLE_CHOICE;
           options := Some
             ["Product defective or damaged";
              "Wrong item received";
              "Changed my mind";
              "Better price elsewhere";
              "Other reason"];
           nextQuestionMap := Some (list_to_map
            [("Product defective or damaged", "refund_2");
             ("Wrong item received", "refund_3");
             ("Changed my mind", "refund_4");
             ("Better price elsewhere", "refund_4");
             ("Other reason", "refund_5")]);
           validationRules := None |});
       ("refund_2",
        {| q_id := "refund_2";
           text :=
             "Have you already returned the item?";
           q_type := YES_NO;
           options := None;
           nextQuestionMap := Some (list_to_map
            [("yes", "refund_2a");
             ("no", "refund_2b")]);
           validationRules := None |});
       ("refund_2a",
        {| q_id := "refund_2a";
           text :=
             "Please provide the return tracking number";
           q_type := TEXT_INPUT;
           options := None;
           nextQuestionMap := None;
           validationRules := Some
             [{| rtype := rule_required; value := None;
                errorMessage := "Tracking number is required" |}] |});
       ("refund_2b",
        {| q_id := "refund_2b";
           text :=
             "Would you like instructions on how to return the item?";
           q_type := YES_NO;
           options := None;
           nextQuestionMap := None;
           validationRules := None |});
       ("refund_3",
        {| q_id := "refund_3";
           text :=
             "What item did you receive instead?";
           q_type := TEXT_INPUT;
           options := None;
           nextQuestionMap := None;
           validationRules := Some
             [{| rtype := rule_required; value := None;
                errorMessage := "Please describe what you received" |}] |});
       ("refund_4",
        {| q_id := "refund_4";
           text :=
             "Is the item still in its original packaging and unused?";
           q_type := YES_NO;
           options := None;
           nextQuestionMap := None;
           validationRules := None |});
       ("refund_5",
        {| q_id := "refund_5";
           text :=
             "Please explain your reason for the refund";
           q_type := TEXT_INPUT;
           options := None;
           nextQuestionMap := None;
           validationRules := Some
             [{| rtype := rule_required; value := None;
                errorMessage := "Please provide a reason" |};
              {| rtype := rule_minLength; value := Some (VNumber 10);
                errorMessage := "Please provide more details" |}] |})
     ] |}.

Definition PRODUCT_DEFECT_TREE : QuestionTree :=
  {| qt_category := PRODUCT_DEFECT;
     rootQuestionId := "defect_1";
     questions := list_to_map [
       ("defect_1",
        {| q_id := "defect_1";
           text :=
             "What type of defect or issue does the product have?";
           q_type := SINGLE_CHOICE;
           options := Some
             ["Product is broken or damaged";
              "Product does not work as expected";
              "Missing parts or accessories";
              "Wrong product received";
              "Product different from description"];
           nextQuestionMap := None;
           validationRules := None |});
       ("defect_2",
        {| q_id := "defect_2";
           text :=
             "When did you first notice the defect?";
           q_type := SINGLE_CHOICE;
           options := Some
             ["Upon delivery";
              "Within first week";
              "After 1-2 weeks";
              "After more than 2 weeks"];
           nextQuestionMap := None;
           validationRules := None |})
     ] |}.

Definition ACCOUNT_ACCESS_TREE : QuestionTree :=
  {| qt_category := ACCOUNT_ACCESS;
     rootQuestionId := "account_1";
     questions := list_to_map [
       ("account_1",
        {| q_id := "account_1";
           text :=
             "What account issue are you experiencing?";
           q_type := SINGLE_CHOICE;
           options := Some
             ["Forgot password";
              "Account locked";
              "Cannot receive verification email";
              "Username issues";
              "Other account issue"];
           nextQuestionMap := Some (list_to_map
            [("Forgot password", "account_2");
             ("Account locked", "account_3");
             ("Cannot receive verification email", "account_4");
             ("Username issues", "account_5");
             ("Other account issue", "account_6")]);
           validationRules := None |});
       ("account_2",
        {| q_id := "account_2";
           text :=
             ("Have you tried using the " ++ dq ++ "Forgot Password" ++ dq ++ " link on the login page?");
           q_type := YES_NO;
           options := None;
           nextQuestionMap := None;
           validationRules := None |});
       ("account_3",
        {| q_id := "account_3";
           text :=
             "Do you know why your account was locked?";
           q_type := YES_NO;
           options := None;
           nextQuestionMap := None;
           validationRules := None |});
       ("account_4",
        {| q_id := "account_4";
           text :=
             "Have you checked your spam/junk folder?";
           q_type := YES_NO;
           options := None;
           nextQuestionMap := None;
           validationRules := None |});
       ("account_5",
        {| q_id := "account_5";
           text :=
             "Please describe the username issue";
           q_type := TEXT_INPUT;
           options := None;
           nextQuestionMap := None;
           validationRules := None |});
       ("account_6",
        {| q_id := "account_6";
           text :=
             "Please describe your account issue";
           q_type := TEXT_INPUT;
           options := None;
           nextQuestionMap := None;
           validationRules := Some
             [{| rtype := rule_required; value := None;
                errorMessage := "Please describe the issue" |}] |})
     ] |}.

Definition CANCELLATION_TREE : QuestionTree :=
  {| qt_category := CANCELLATION;
     rootQuestionId := "cancel_1";
     questions := list_to_map [
       ("cancel_1",
        {| q_id := "cancel_1";
           text :=
             "Has your order already shipped?";
           q_type := YES_NO;
           options := None;
           nextQuestionMap := Some (list_to_map
            [("yes", "cancel_2");
             ("no", "cancel_3")]);
           validationRules := None |});
       ("cancel_2",
        {| q_id := "cancel_2";
           text :=
             "Since your order has shipped, would you like to refuse delivery or return it after receiving?";
           q_type := SINGLE_CHOICE;
           options := Some
             ["Refuse delivery";
              "Return after receiving";
              "Keep the order"];
           nextQuestionMap := None;
           validationRules := None |});
       ("cancel_3",
        {| q_id := "cancel_3";
           text :=
             "Your order can be cancelled. Would you like to proceed with cancellation?";
           q_type := YES_NO;
           options := None;
           nextQuestionMap := None;
           validationRules := None |})
     ] |}.

Definition BILLING_INQUIRY_TREE : QuestionTree :=
  {| qt_category := BILLING_INQUIRY;
     rootQuestionId := "billing_1";
     questions := list_to_map [
       ("billing_1",
        {| q_id := "billing_1";
           text :=
             "What billing information do you need?";
           q_type := SINGLE_CHOICE;
           options := Some
             ["Invoice copy";
              "Billing statement";
              "Charge details";
              "Other"];
           nextQuestionMap := None;
           validationRules := None |})
     ] |}.

Definition OTHER_TREE : QuestionTree :=
  {| qt_category := OTHER;
     rootQuestionId := "other_1";
     questions := list_to_map [
       ("other_1",
        {| q_id := "other_1";
           text :=
             "Please describe your issue in detail";
           q_type := TEXT_INPUT;
           options := None;
           nextQuestionMap := None;
           validationRules := Some
             [{| rtype := rule_required; value := None;
                errorMessage := "Please describe your issue" |};
              {| rtype := rule_minLength; value := Some (VNumber 20);
                errorMessage := "Please provide more details (at least 20 characters)" |}] |})
     ] |}.

Definition QUESTION_TREES (category : IssueCategory) : QuestionTree :=
  match category with
  | ORDER_STATUS => ORDER_STATUS_TREE
  | DELIVERY_PROBLEM => DELIVERY_PROBLEM_TREE
  | PAYMENT_ISSUE => PAYMENT_ISSUE_TREE
  | REFUND_REQUEST => REFUND_REQUEST_TREE
  | PRODUCT_DEFECT => PRODUCT_DEFECT_TREE
  | ACCOUNT_ACCESS => ACCOUNT_ACCESS_TREE
  | BILLING_INQUIRY => BILLING_INQUIRY_TREE
  | CANCELLATION => CANCELLATION_TREE
  | OTHER => OTHER_TREE
  end.

Definition getQuestionTree (category : IssueCategory) : QuestionTree :=
  QUESTION_TREES category.

(** [tree.questions[questionId]], read as the declared question.  Under
    the name of a property of [Object.prototype] the source finds the
    inherited object instead, which is no question and has no
    [nextQuestionMap]; the functions embedded here either read nothing
    else from what they get, or look up a root id, an edge target or an
    [inheritedKey], none of which is such a name. *)
Definition getQuestion (category : IssueCategory) (questionId : string)
    : option Question :=
  let tree := QUESTION_TREES category in
  questions tree !! questionId.

(** [question.nextQuestionMap[answer]] is a lookup by the user's answer in
    a plain object: besides the declared edge it can yield an inherited
    property, which is not [undefined] and not a string. *)
Definition getNextQuestionId (category : IssueCategory)
    (currentQuestionId : string) (answer : string) : Property string :=
  match getQuestion category currentQuestionId with
  | None => Undefined
  | Some question =>
      match nextQuestionMap question with
      | None => Undefined
      | Some edges => getProperty edges answer
      end
  end.

(** ** Constants ([config/constants.ts]) *)

Definition TIMEOUT_MS : Z := 30 * 60 * 1000.
Definition MAX_MESSAGES : nat := 100.
Definition MAX_ACTIVE_SESSIONS : nat := 1000.
Definition MAX_TEXT_LENGTH : Z := 1000.

(** ** A regular-expression engine for the syntax the configuration uses

    [validateRule] hands the pattern of a rule to [new RegExp(...)].  The
    validation functions below take the engine as an argument; this module
    supplies one for the fragment of the ECMAScript syntax that occurs in
    the question trees: an optional [^], a sequence of atoms (a literal,
    [.], an escape, a bracket class with ranges and negation) each with an
    optional quantifier ([*], [+], [?], [{n}]), and an optional [$].
    Matching is by Brzozowski derivatives. *)

Module RegExp.

Inductive regex :=
  | Void
  | Eps
  | Chr (p : ascii -> bool)
  | Cat (r s : regex)
  | Or (r s : regex)
  | Star (r : regex).

Fixpoint nullable (r : regex) : bool :=
  match r with
  | Void => false
  | Eps => true
  | Chr _ => false
  | Cat r s => nullable r && nullable s
  | Or r s => nullable r || nullable s
  | Star _ => true
  end.

Definition cat (r s : regex) : regex :=
  match r, s with
  | Void, _ | _, Void => Void
  | Eps, _ => s
  | _, _ => Cat r s
  end.

Definition or (r s : regex) : regex :=
  match r, s with
  | Void, _ => s
  | _, Void => r
  | _, _ => Or r s
  end.

Fixpoint deriv (c : ascii) (r : regex) : regex :=
  match r with
  | Void | Eps => Void
  | Chr p => if p c then Eps else Void
  | Cat r s =>
      or (cat (deriv c r) s) (if nullable r then deriv c s else Void)
  | Or r s => or (deriv c r) (deriv c s)
  | Star r => cat (deriv c r) (Star r)
  end.

(** The whole of [s] is in the language of [r]. *)
Fixpoint matches (r : regex) (s : string) : bool :=
  match s with
  | EmptyString => nullable r
  | String c s' => matches (deriv c r) s'
  end.

Fixpoint power (n : nat) (r : regex) : regex :=
  match n with
  | O => Eps
  | S n' => Cat r (power n' r)
  end.

Definition anyChar : ascii -> bool := fun _ => true.

(** [.] excludes the line terminators LF and CR. *)
Definition dot : ascii -> bool :=
  fun c => negb (Ascii.eqb c (ascii_of_nat 10) || Ascii.eqb c (ascii_of_nat 13)).

Definition wordChar (c : ascii) : bool :=
  let n := nat_of_ascii c in
  isDigit c || ((65 <=? n) && (n <=? 90))%nat
  || ((97 <=? n) && (n <=? 122))%nat || (n =? 95)%nat.

(** The class an escape [\c] denotes. *)
Definition escapeClass (c : ascii) : ascii -> bool :=
  if Ascii.eqb c "s" then isWhiteSpace
  else if Ascii.eqb c "S" then (fun x => negb (isWhiteSpace x))
  else if Ascii.eqb c "d" then isDigit
  else if Ascii.eqb c "D" then (fun x => negb (isDigit x))
  else if Ascii.eqb c "w" then wordChar
  else if Ascii.eqb c "W" then (fun x => negb (wordChar x))
  else if Ascii.eqb c "t" then Ascii.eqb (ascii_of_nat 9)
  else if Ascii.eqb c "n" then Ascii.eqb (ascii_of_nat 10)
  else if Ascii.eqb c "r" then Ascii.eqb (ascii_of_nat 13)
  else Ascii.eqb c.

Definition inRange (a b c : ascii) : bool :=
  ((nat_of_ascii a <=? nat_of_ascii c) && (nat_of_ascii c <=? nat_of_ascii b))%nat.

Definition union (p q : ascii -> bool) : ascii -> bool := fun c => p c || q c.

(** The members of a bracket class, up to and including the closing
    bracket; the rest of the pattern is returned with the class. *)
Fixpoint parseClass (fuel : nat) (s : string) (acc : ascii -> bool)
    : option ((ascii -> bool) * string) :=
  match fuel with
  | O => None
  | S fuel' =>
      match s with
      | EmptyString => None
      | String "]" rest => Some (acc, rest)
      | String "\" (String e rest) =>
          parseClass fuel' rest (union acc (escapeClass e))
      | String "\" EmptyString => None
      | String a (String "-" (String b rest)) =>
          if Ascii.eqb b "]" then parseClass fuel' (String "-" (String b rest)) (union acc (Ascii.eqb a))
          else parseClass fuel' rest (union acc (inRange a b))
      | String a rest => parseClass fuel' rest (union acc (Ascii.eqb a))
      end
  end.

(** One atom and the rest of the pattern. *)
Definition parseAtom (s : string) : option (regex * string) :=
  match s with
  | EmptyString => None
  | String "\" (String e rest) => Some (Chr (escapeClass e), rest)
  | String "\" EmptyString => None
  | String "." rest => Some (Chr dot, rest)
  | String "[" (String "^" rest) =>
      match parseClass (String.length rest) rest (fun _ => false) with
      | Some (p, rest') => Some (Chr (fun c => negb (p c)), rest')
      | None => None
      end
  | String "[" rest =>
      match parseClass (String.length rest) rest (fun _ => false) with
      | Some (p, rest') => Some (Chr p, rest')
      | None => None
      end
  | String c rest =>
      if existsb (Ascii.eqb c) ["("%char; ")"%char; "|"%char; "*"%char; "+"%char;
                                "?"%char; "{"%char; "}"%char; "]"%char; "^"%char; "$"%char]
      then None
      else Some (Chr (Ascii.eqb c), rest)
  end.

(** The digits of a [{n}] quantifier up to the closing brace. *)
Fixpoint parseCount (s : string) (acc : nat) (seen : bool)
    : option (nat * string) :=
  match s with
  | EmptyString => None
  | String "}" rest => if seen then Some (acc, rest) else None
  | String c rest =>
      if isDigit c
      then parseCount rest (10 * acc + (nat_of_ascii c - 48))%nat true
      else None
  end.

Definition parseQuantifier (r : regex) (s : string) : option (regex * string) :=
  match s with
  | String "*" rest => Some (Star r, rest)
  | String "+" rest => Some (Cat r (Star r), rest)
  | String "?" rest => Some (Or Eps r, rest)
  | String "{" rest =>
      match parseCount rest 0%nat false with
      | Some (n, rest') => Some (power n r, rest')
      | None => None
      end
  | _ => Some (r, s)
  end.

(** The body of a pattern; the flag tells whether it ended in [$]. *)
Fixpoint parseBody (fuel : nat) (s : string) : option (regex * bool) :=
  match fuel with
  | O => None
  | S fuel' =>
      match s with
      | EmptyString => Some (Eps, false)
      | String "$" EmptyString => Some (Eps, true)
      | _ =>
          match parseAtom s with
          | None => None
          | Some (a, rest) =>
              match parseQuantifier a rest with
              | None => None
              | Some (q, rest') =>
                  match parseBody fuel' rest' with
                  | None => None
                  | Some (tail, anchored) => Some (Cat q tail, anchored)
                  end
              end
          end
      end
  end.

(** A pattern as one regular expression over whole strings: an
    unanchored end stands for any prefix or suffix. *)
Definition compile (pattern : string) : option regex :=
  let '(anchoredStart, body) :=
    match pattern with
    | String "^" rest => (true, rest)
    | _ => (false, pattern)
    end in
  match parseBody (S (String.length body)) body with
  | None => None
  | Some (r, anchoredEnd) =>
      Some (Cat (if anchoredStart then Eps else Star (Chr anyChar))
                (Cat r (if anchoredEnd then Eps else Star (Chr anyChar))))
  end.

(** [new RegExp(pattern).test(s)]; [None] for a pattern outside the
    fragment. *)
Definition exec (pattern s : string) : option bool :=
  match compile pattern with
  | Some r => Some (matches r s)
  | None => None
  end.

(** The engine as the validation functions take it.  Every pattern of
    the question trees is in the fragment ([patterns_supported] below),
    so the default is never used on them. *)
Definition test (pattern s : string) : bool :=
  default false (exec pattern s).

End RegExp.

(** ** Sessions ([types/index.ts]) *)

Inductive Role := user | assistant | system.

(** The values of [metadata] are opaque to the services; they are strings
    here. *)
Record Message := {
  m_id : string;
  role : Role;
  content : string;
  timestamp : Z;
  metadata : option (gmap string string)
}.

Record ConversationSession := {
  sessionId : string;
  mode : ConversationMode;
  category : option IssueCategory;
  confidence : option Q;
  answers : gmap string string;
  currentQuestionId : option string;
  conversationHistory : list Message;
  createdAt : Z;
  updatedAt : Z;
  resolved : bool;
  resolution : option Resolution
}.

(** ** Conversation service ([services/conversationService.ts]) *)

Definition categoryName (c : IssueCategory) : string :=
  match c with
  | ORDER_STATUS => "ORDER_STATUS"
  | DELIVERY_PROBLEM => "DELIVERY_PROBLEM"
  | PAYMENT_ISSUE => "PAYMENT_ISSUE"
  | REFUND_REQUEST => "REFUND_REQUEST"
  | PRODUCT_DEFECT => "PRODUCT_DEFECT"
  | ACCOUNT_ACCESS => "ACCOUNT_ACCESS"
  | BILLING_INQUIRY => "BILLING_INQUIRY"
  | CANCELLATION => "CANCELLATION"
  | OTHER => "OTHER"
  end.

Definition getFirstQuestion (category : IssueCategory) : Question + Thrown :=
  let tree := getQuestionTree category in
  match getQuestion category (rootQuestionId tree) with
  | None => inr (Error ("Root question not found for category " ++ categoryName category))
  | Some question => inl question
  end.

(** [if (!nextQuestionId)] also takes the empty string for the end of
    the tree.  An inherited property is truthy; it is looked up as a
    question under its [inheritedKey], and what [getQuestion] answers is
    returned: [None] is the [undefined] of either branch. *)
Definition getNextQuestion (category : IssueCategory)
    (currentQuestionId : string) (answer : string) : option Question :=
  match getNextQuestionId category currentQuestionId answer with
  | Undefined => None
  | Own nextQuestionId =>
      if String.eqb nextQuestionId EmptyString then None
      else getQuestion category nextQuestionId
  | Inherited name => getQuestion category (inheritedKey name)
  end.

Record ValidationResult := {
  valid : bool;
  error : option string
}.

Definition passed : ValidationResult := {| valid := true; error := None |}.
Definition failed (msg : string) : ValidationResult :=
  {| valid := false; error := Some msg |}.

(** [!answer || answer.trim().length === 0] *)
Definition isBlank (answer : string) : bool :=
  String.eqb answer EmptyString || (jsLength (trim answer) =? 0).

Section Validation.

(** [new RegExp(pattern).test(answer)] *)
Variable regexTest : string -> string -> bool.

Definition validateRule (rule : ValidationRule) (answer : string)
    : ValidationResult :=
  match rtype rule with
  | rule_required =>
      if isBlank answer then failed (errorMessage rule) else passed
  | rule_pattern =>
      match value rule with
      | Some (VString pattern) =>
          if negb (regexTest pattern answer) then failed (errorMessage rule)
          else passed
      | _ => passed
      end
  | rule_minLength =>
      match value rule with
      | Some (VNumber n) =>
          if jsLength answer <? n then failed (errorMessage rule) else passed
      | _ => passed
      end
  | rule_maxLength =>
      match value rule with
      | Some (VNumber n) =>
          if jsLength answer >? n then failed (errorMessage rule) else passed
      | _ => passed
      end
  | rule_custom => passed
  end.

(** The loop over the rules: the first result that is not valid is
    returned. *)
Fixpoint validateRules (rules : list ValidationRule) (answer : string)
    : ValidationResult :=
  match rules with
  | [] => passed
  | rule :: rest =>
      let result := validateRule rule answer in
      if negb (valid result) then result else validateRules rest answer
  end.

Definition validateAnswer (question : Question) (answer : string)
    : ValidationResult :=
  if isBlank answer then failed "Answer cannot be empty"
  else if jsLength answer >? MAX_TEXT_LENGTH then
    failed ("Answer is too long (maximum " ++ pretty MAX_TEXT_LENGTH ++ " characters)")
  else
    match validationRules question with
    | None => passed
    | Some rules =>
        if (length rules =? 0)%nat then passed else validateRules rules answer
    end.

End Validation.

Definition shouldProceedToResolution (session : ConversationSession)
    (currentQuestion : Question) (answer : string) : bool :=
  match category session with
  | None => false
  | Some c =>
      match getNextQuestionId c (q_id currentQuestion) answer with
      | Undefined => true
      | Own nextQuestionId => String.eqb nextQuestionId EmptyString
      | Inherited _ => false
      end
  end.

Definition parseUserAnswer (question : Question) (rawAnswer : string) : string :=
  let trimmed := trim rawAnswer in
  match q_type question with
  | YES_NO =>
      let lower := toLowerCase trimmed in
      if String.eqb lower "yes" || String.eqb lower "y" || String.eqb lower "true"
      then "yes"
      else if String.eqb lower "no" || String.eqb lower "n" || String.eqb lower "false"
      then "no"
      else trimmed
  | SINGLE_CHOICE =>
      match options question with
      | Some opts =>
          if isDigitString trimmed then
            let index := parseInt trimmed - 1 in
            if (index >=? 0) && (index <? Z.of_nat (length opts))
            then default trimmed (opts !! Z.to_nat index)
            else trimmed
          else trimmed
      | None => trimmed
      end
  | ORDER_ID => toUpperCase trimmed
  | _ => trimmed
  end.

(** ** Session service ([services/sessionService.ts]) *)

(** The [Map] of sessions, in insertion order. *)
Abbreviation Sessions := (list (string * ConversationSession)).

(** [sessions.get(key)] *)
Fixpoint mapGet (sessions : Sessions) (key : string) : option ConversationSession :=
  match sessions with
  | [] => None
  | (k, v) :: rest => if String.eqb k key then Some v else mapGet rest key
  end.

(** [sessions.set(key, v)]: a present key keeps its place, a new key goes
    last. *)
Fixpoint mapSet (sessions : Sessions) (key : string) (v : ConversationSession)
    : Sessions :=
  match sessions with
  | [] => [(key, v)]
  | (k, w) :: rest =>
      if String.eqb k key then (k, v) :: rest else (k, w) :: mapSet rest key v
  end.

(** [sessions.delete(key)] *)
Fixpoint mapDelete (sessions : Sessions) (key : string) : Sessions :=
  match sessions with
  | [] => []
  | (k, w) :: rest =>
      if String.eqb k key then mapDelete rest key else (k, w) :: mapDelete rest key
  end.

(** [Array.from(sessions.keys())] *)
Definition mapKeys (sessions : Sessions) : list string := map fst sessions.

(** [sessions.size] *)
Definition mapSize (sessions : Sessions) : nat := length sessions.

(** [initialMessage] is optional; absent and empty are both falsy.  The
    arguments after it are what the call reads from its environment: the
    two [uuidv4()] and [new Date()]. *)
Definition createSession (sessions : Sessions) (mode : ConversationMode)
    (initialMessage : option string)
    (uuidSession uuidMessage : string) (now : Z)
    : Sessions * ConversationSession :=
  let history :=
    match initialMessage with
    | Some msg =>
        if String.eqb msg EmptyString then []
        else [{| m_id := uuidMessage; role := user; content := msg;
                 timestamp := now; metadata := None |}]
    | None => []
    end in
  let session :=
    {| sessionId := uuidSession;
       mode := mode;
       category := None;
       confidence := None;
       answers := ∅;
       currentQuestionId := None;
       conversationHistory := history;
       createdAt := now;
       updatedAt := now;
       resolved := false;
       resolution := None |} in
  let sessions1 :=
    if (MAX_ACTIVE_SESSIONS <=? mapSize sessions)%nat then
      match mapKeys sessions with
      | oldestSessionId :: _ => mapDelete sessions oldestSessionId
      | [] => sessions
      end
    else sessions in
  (mapSet sessions1 uuidSession session, session).

Definition getSession (sessions : Sessions) (sessionId : string) (now : Z)
    : Sessions * option ConversationSession :=
  match mapGet sessions sessionId with
  | None => (sessions, None)
  | Some session =>
      let elapsed := now - updatedAt session in
      if elapsed >? TIMEOUT_MS then (mapDelete sessions sessionId, None)
      else (sessions, Some session)
  end.

(** [Partial<ConversationSession>]: a field is [None] when the update
    does not carry it. *)
Record SessionUpdates := {
  u_sessionId : option string;
  u_mode : option ConversationMode;
  u_category : option (option IssueCategory);
  u_confidence : option (option Q);
  u_answers : option (gmap string string);
  u_currentQuestionId : option (option string);
  u_conversationHistory : option (list Message);
  u_createdAt : option Z;
  u_updatedAt : option Z;
  u_resolved : option bool;
  u_resolution : option (option Resolution)
}.

(** [now] is read by the [getSession] inside, [stamp] by the later
    [new Date()]. *)
Definition updateSession (sessions : Sessions) (id : string)
    (updates : SessionUpdates) (now stamp : Z)
    : Sessions * option ConversationSession :=
  match getSession sessions id now with
  | (sessions1, None) => (sessions1, None)
  | (sessions1, Some session) =>
      let updatedSession :=
        {| sessionId := default (sessionId session) (u_sessionId updates);
           mode := default (mode session) (u_mode updates);
           category := default (category session) (u_category updates);
           confidence := default (confidence session) (u_confidence updates);
           answers := default (answers session) (u_answers updates);
           currentQuestionId :=
             default (currentQuestionId session) (u_currentQuestionId updates);
           conversationHistory :=
             default (conversationHistory session) (u_conversationHistory updates);
           createdAt := default (createdAt session) (u_createdAt updates);
           updatedAt := stamp;
           resolved := default (resolved session) (u_resolved updates);
           resolution := default (resolution session) (u_resolution updates) |} in
      (mapSet sessions1 id updatedSession, Some updatedSession)
  end.

Definition withHistory (s : ConversationSession) (h : list Message) (stamp : Z) :=
  {| sessionId := sessionId s; mode := mode s; category := category s;
     confidence := confidence s; answers := answers s;
     currentQuestionId := currentQuestionId s; conversationHistory := h;
     createdAt := createdAt s; updatedAt := stamp; resolved := resolved s;
     resolution := resolution s |}.

(** [history.slice(-50)] *)
Definition lastFifty (h : list Message) : list Message :=
  drop (length h - 50) h.

Definition addMessage (sessions : Sessions) (id : string) (r : Role)
    (body : string) (meta : option (gmap string string))
    (uuidMessage : string) (now stampMessage stamp : Z)
    : Sessions * option ConversationSession :=
  match getSession sessions id now with
  | (sessions1, None) => (sessions1, None)
  | (sessions1, Some session) =>
      let history :=
        if (MAX_MESSAGES <=? length (conversationHistory session))%nat
        then lastFifty (conversationHistory session)
        else conversationHistory session in
      let msg := {| m_id := uuidMessage; role := r; content := body;
                    timestamp := stampMessage; metadata := meta |} in
      let session' := withHistory session (history ++ [msg]) stamp in
      (mapSet sessions1 id session', Some session')
  end.

Definition addAnswer (sessions : Sessions) (id : string)
    (question answer : string) (now stamp : Z)
    : Sessions * option ConversationSession :=
  match getSession sessions id now with
  | (sessions1, None) => (sessions1, None)
  | (sessions1, Some s) =>
      let session' :=
        {| sessionId := sessionId s; mode := mode s; category := category s;
           confidence := confidence s;
           answers := setProperty (answers s) question answer;
           currentQuestionId := currentQuestionId s;
           conversationHistory := conversationHistory s;
           createdAt := createdAt s; updatedAt := stamp;
           resolved := resolved s; resolution := resolution s |} in
      (mapSet sessions1 id session', Some session')
  end.

Definition markSessionResolved (sessions : Sessions) (id : string)
    (res : option Resolution) (now stamp : Z)
    : Sessions * option ConversationSession :=
  match getSession sessions id now with
  | (sessions1, None) => (sessions1, None)
  | (sessions1, Some s) =>
      let session' :=
        {| sessionId := sessionId s; mode := mode s; category := category s;
           confidence := confidence s; answers := answers s;
           currentQuestionId := currentQuestionId s;
           conversationHistory := conversationHistory s;
           createdAt := createdAt s; updatedAt := stamp;
           resolved := true; resolution := res |} in
      (mapSet sessions1 id session', Some session')
  end.

Definition deleteSession (sessions : Sessions) (id : string) : Sessions * bool :=
  (mapDelete sessions id, bool_decide (is_Some (mapGet sessions id))).

Definition cleanupExpiredSessions (sessions : Sessions) (now : Z) : Sessions :=
  filter (fun entry => ¬ (now - updatedAt entry.2 > TIMEOUT_MS)) sessions.

Definition getSessionCount (sessions : Sessions) : nat := mapSize sessions.

Definition getAllSessions (sessions : Sessions) : list ConversationSession :=
  map snd sessions.

(** ** Notions used to state the properties *)

(** The ids of the questions asked in one conversation: the walk starts
    at [current] and, for each answer, follows [getNextQuestionId] until it
    yields [undefined] or the answers run out.  When the answer names an
    inherited property, what [getNextQuestionId] yields is no string; the
    walk goes on with it all the same, under the key it is looked up by. *)
Fixpoint questionsVisited (category : IssueCategory) (current : string)
    (answers : list string) : list string :=
  current ::
    match answers with
    | [] => []
    | answer :: rest =>
        match getNextQuestionId category current answer with
        | Undefined => []
        | Own next => questionsVisited category next rest
        | Inherited name => questionsVisited category (inheritedKey name) rest
        end
    end.

(** The targets of the edges that leave a question. *)
Definition successors (question : Question) : list string :=
  match nextQuestionMap question with
  | Some edges => (map_to_list edges).*2
  | None => []
  end.

(** Number of questions on the longest path of the declared tree that
    starts at [questionId]; [fuel] bounds the depth explored. *)
Fixpoint longestPathFrom (fuel : nat) (tree : QuestionTree) (questionId : string)
    : nat :=
  match fuel with
  | O => O
  | S fuel' =>
      match questions tree !! questionId with
      | None => O
      | Some question =>
          S (max_list (map (longestPathFrom fuel' tree) (successors question)))
      end
  end.

Definition height (category : IssueCategory) (questionId : string) : nat :=
  let tree := QUESTION_TREES category in
  longestPathFrom (size (questions tree)) tree questionId.

(** Length of the longest root-to-leaf path of a category's tree. *)
Definition longestPath (category : IssueCategory) : nat :=
  height category (rootQuestionId (QUESTION_TREES category)).

(** Every question of the tree lies on a path of at least one question,
    and every edge leads to a question of the tree whose longest path is
    strictly shorter. *)
Definition edgesDescend (category : IssueCategory) : bool :=
  forallb
    (fun entry : string * Question =>
       (1 <=? height category entry.1)%nat &&
       forallb
         (fun next => (1 <=? height category next)%nat &&
                      (height category next <? height category entry.1)%nat)
         (successors entry.2))
    (map_to_list (questions (QUESTION_TREES category))).

(** [s] is [w] up to the case of its ASCII letters, where [w] is written
    in lower case. *)
Definition isLowerLetter (c : ascii) : bool :=
  let n := nat_of_ascii c in ((97 <=? n) && (n <=? 122))%nat.

Inductive caseVariant : string -> string -> Prop :=
  | cv_empty : caseVariant EmptyString EmptyString
  | cv_same c s w :
      caseVariant s w -> caseVariant (String c s) (String c w)
  | cv_upper c s w :
      isLowerLetter c = true -> caseVariant s w ->
      caseVariant (String (upperChar c) s) (String c w).

Fixpoint allLowerLetters (w : string) : bool :=
  match w with
  | EmptyString => true
  | String c w' => isLowerLetter c && allLowerLetters w'
  end.

Definition affirmativeWords : list string := ["yes"; "y"; "true"].
Definition negativeWords : list string := ["no"; "n"; "false"].

(** Every code unit of [s] is white space ([s] may be empty). *)
Fixpoint allWhiteSpace (s : string) : bool :=
  match s with
  | EmptyString => true
  | String c s' => isWhiteSpace c && allWhiteSpace s'
  end.

Definition rulesOf (question : Question) : list ValidationRule :=
  default [] (validationRules question).

(** Every pattern rule of the question trees is in the fragment of
    [RegExp]. *)
Definition patternsSupported : bool :=
  forallb
    (fun category =>
       forallb
         (fun entry : string * Question =>
            forallb
              (fun rule =>
                 match rtype rule, value rule with
                 | rule_pattern, Some (VString pattern) =>
                     match RegExp.compile pattern with
                     | Some _ => true
                     | None => false
                     end
                 | _, _ => true
                 end)
              (rulesOf entry.2))
         (map_to_list (questions (QUESTION_TREES category))))
    all_categories.

(** A session store whose keys are pairwise distinct, as those of a
    [Map] are. *)
Definition wellFormed (sessions : Sessions) : Prop := NoDup (mapKeys sessions).

(** [key] holds a session whose last activity is not later than that of
    any other stored session. *)
Definition leastRecentlyActive (sessions : Sessions) (key : string) : Prop :=
  exists s, mapGet sessions key = Some s /\
    forall key' s', mapGet sessions key' = Some s' -> updatedAt s <= updatedAt s'.

(** A run of [getSession] calls, each with its id and its clock reading;
    only the store is threaded through. *)
Definition getSessions (sessions : Sessions) (calls : list (string * Z)) : Sessions :=
  foldl (fun st call => (getSession st call.1 call.2).1) sessions calls.

(** Ids for the sessions and messages of the example stores. *)
Definition sessionName (n : nat) : string := "session-" ++ pretty n.
Definition messageName (n : nat) : string := "message-" ++ pretty n.

(** A store filled to capacity by [createSession], one session per
    millisecond. *)
Definition fullStore : Sessions :=
  foldl
    (fun st n =>
       (createSession st SYSTEM_INITIATED None (sessionName n) (messageName n)
          (Z.of_nat n)).1)
    [] (seq 1 MAX_ACTIVE_SESSIONS).

(** Three sessions created one millisecond apart. *)
Definition threeSessions : Sessions :=
  foldl
    (fun st n =>
       (createSession st USER_INITIATED (Some "My parcel has not arrived")
          (sessionName n) (messageName n) (Z.of_nat n)).1)
    [] (seq 1 3).

(** The full store after its first session has recorded an answer. *)
Definition busyStore : Sessions :=
  (addAnswer fullStore (sessionName 1) "order_status_1" "yes" 1001 1001).1.

(** [sub] is a substring of [s]. *)
Definition occursIn (sub s : string) : Prop :=
  exists pre post, s = pre ++ sub ++ post.

(** The specification's notion of a satisfied condition, in its words:
    the recorded answer for the question id exists and satisfies the
    operator against the expected value, which is string equality for
    equals, a substring check for contains, and membership in the
    expected set for in (one-of).  An answer exists when one is stored and
    it is not the empty string, which stands for no answer throughout:
    validation rejects it as missing. *)
Definition satisfied (c : ResolutionCondition) (answers : gmap string string)
    : Prop :=
  exists answer,
    answers !! questionId c = Some answer /\ answer <> EmptyString /\
    match operator c, expectedAnswer c with
    | op_equals, One e => answer = e
    | op_contains, One e => occursIn e answer
    | op_in, Many l => In answer l
    | _, _ => False
    end.

(** A path matches when every one of its conditions is satisfied. *)
Definition fullMatch (path : ResolutionPath) (answers : gmap string string)
    : Prop :=
  Forall (fun c => satisfied c answers) (conditions path).

(** The answers of the delayed-delivery scenario. *)
Definition delayedDelivery : gmap string string :=
  <["delivery_2" := "More than 5 days"]>
    (<["delivery_1" := "Package is delayed"]> ∅).

(** A condition with an operator that [checkConditions] does not
    evaluate, a path gated by it, and an answer map that records an
    answer for its question. *)
Definition amountOver100 : ResolutionCondition :=
  {| questionId := "payment_3"; expectedAnswer := One "100"; operator := op_greaterThan |}.

Definition largeChargePath : ResolutionPath :=
  {| rp_id := "payment_large_charge";
     rp_category := PAYMENT_ISSUE;
     rp_type := ESCALATE_SPECIALIST;
     conditions := [amountOver100];
     steps := None;
     escalationReason := None;
     estimatedTime := None;
     requiresData := None |}.

Definition smallCharge : gmap string string := {[ "payment_3" := "5" ]}.

(** A condition on a question id that names an inherited property, and
    the path gated by it. *)
Definition inheritedAmount : ResolutionCondition :=
  {| questionId := "constructor"; expectedAnswer := One "100";
     operator := op_greaterThan |}.

(** The answers of a customer whose order has not shipped and who then
    declines to cancel it. *)
Definition cancelDeclined : gmap string string :=
  <["cancel_3" := "no"]> (<["cancel_1" := "no"]> ∅).

(** No declared condition uses greater-than or less-than. *)
Definition declaredOperatorsEvaluated : bool :=
  forallb
    (fun category =>
       forallb
         (fun path =>
            forallb
              (fun c =>
                 match operator c with
                 | op_equals | op_contains | op_in => true
                 | op_greaterThan | op_lessThan => false
                 end)
              (conditions path))
         (RESOLUTION_PATHS category))
    all_categories.

(** What the eviction of the least-recently-active session would mean
    for one call of [createSession]. *)
Definition evictsLeastRecentlyActive (sessions : Sessions)
    (mode : ConversationMode) (initialMessage : option string)
    (uuidSession uuidMessage : string) (now : Z) : Prop :=
  forall key, leastRecentlyActive sessions key -> key <> uuidSession ->
    mapGet (createSession sessions mode initialMessage uuidSession uuidMessage now).1 key
    = None.

(** ** Further functions of the services *)

(** [validateResolution] of the resolution service.  [resolution.type] is
    one of the five non-empty enumeration strings, so only the message
    can be falsy. *)
Definition validateResolution (resolution : Resolution) : bool :=
  if String.eqb (message resolution) EmptyString then false
  else
    match res_type resolution with
    | SELF_SERVICE | AUTOMATED_ACTION =>
        match res_steps resolution with
        | Some (_ :: _) => true
        | _ => false
        end
    | ESCALATE_AGENT | ESCALATE_SPECIALIST =>
        match escalationDetails resolution with
        | Some _ => true
        | None => false
        end
    | INFORMATION_PROVIDED => true
    end.

(** The line feed of the display strings. *)
Definition nl : string := String (ascii_of_nat 10) EmptyString.

(** The [forEach] of [formatQuestionForDisplay]: one line per option,
    numbered from 1. *)
Definition optionLine (index : nat) (option : string) : string :=
  nl ++ pretty (index + 1)%nat ++ ". " ++ option.

Definition numberedOptions (opts : list string) : string :=
  String.concat EmptyString (imap optionLine opts).

Definition formatQuestionForDisplay (question : Question) : string :=
  let formatted := text question in
  match q_type question with
  | SINGLE_CHOICE =>
      match options question with
      | Some (o :: opts) =>
          formatted ++ nl ++ nl ++ "Please select one of the following options:"
            ++ numberedOptions (o :: opts)
      | _ => formatted
      end
  | MULTIPLE_CHOICE =>
      match options question with
      | Some (o :: opts) =>
          formatted ++ nl ++ nl
            ++ "You can select multiple options (separate with commas):"
            ++ numberedOptions (o :: opts)
      | _ => formatted
      end
  | YES_NO => formatted ++ nl ++ nl ++ "Please answer: Yes or No"
  | DATE => formatted ++ nl ++ nl ++ "Please provide a date (e.g., 2025-12-25)"
  | ORDER_ID => formatted ++ nl ++ nl ++ "Format: ORD-XXXXX (e.g., ORD-12345)"
  | TEXT_INPUT => formatted
  end.

(** [getSuggestedQuestions] of the classification service
    ([services/classificationService.ts]); the confidence level arrives
    as a string. *)
Definition getSuggestedQuestions (category : IssueCategory)
    (confidenceLevel : string) : list string :=
  let questionTree := getQuestionTree category in
  if String.eqb confidenceLevel "HIGH" then [rootQuestionId questionTree]
  else if String.eqb confidenceLevel "MEDIUM"
  then ["confirm_category"; rootQuestionId questionTree]
  else if String.eqb confidenceLevel "LOW" then ["clarify_issue"]
  else [rootQuestionId questionTree].

(** ** Notions used to state further properties *)

Definition declaredQuestions (category : IssueCategory) : list (string * Question) :=
  map_to_list (questions (QUESTION_TREES category)).

Definition isSome {A} (x : option A) : bool :=
  match x with
  | Some _ => true
  | None => false
  end.

(** Every question is stored under its own id, and every edge leads to
    a question of the same tree. *)
Definition treesIntact : bool :=
  forallb
    (fun category =>
       forallb
         (fun entry : string * Question =>
            String.eqb (q_id entry.2) entry.1 &&
            forallb
              (fun next =>
                 negb (String.eqb next EmptyString) &&
                 match getQuestion category next with
                 | Some q => String.eqb (q_id q) next
                 | None => false
                 end)
              (successors entry.2))
         (declaredQuestions category))
    all_categories.

Definition sameElements (l1 l2 : list string) : bool :=
  forallb (fun x => existsb (String.eqb x) l2) l1 &&
  forallb (fun x => existsb (String.eqb x) l1) l2.

(** The answers that have an edge are the options of a single-choice
    question and "yes" and "no" of a yes/no question; no other type of
    question has edges. *)
Definition edgesMatchOptions : bool :=
  forallb
    (fun category =>
       forallb
         (fun entry : string * Question =>
            match nextQuestionMap entry.2 with
            | None => true
            | Some edges =>
                match q_type entry.2 with
                | SINGLE_CHOICE =>
                    sameElements (map_to_list edges).*1 (default [] (options entry.2))
                | YES_NO => sameElements (map_to_list edges).*1 ["yes"; "no"]
                | _ => false
                end
            end)
         (declaredQuestions category))
    all_categories.

(** No question id occurs in two trees. *)
Definition treesDisjoint : bool :=
  forallb
    (fun c1 =>
       forallb
         (fun c2 =>
            bool_decide (c1 = c2) ||
            forallb (fun entry : string * Question =>
                       negb (isSome (getQuestion c2 entry.1)))
                    (declaredQuestions c1))
         all_categories)
    all_categories.

(** Every declared option is trimmed, is not a string of digits and is
    not empty. *)
Definition optionsNormal : bool :=
  forallb
    (fun category =>
       forallb
         (fun entry : string * Question =>
            forallb (fun o => String.eqb (trim o) o && negb (isDigitString o)
                              && negb (String.eqb o EmptyString))
                    (default [] (options entry.2)))
         (declaredQuestions category))
    all_categories.

Fixpoint distinctStrings (l : list string) : bool :=
  match l with
  | [] => true
  | x :: rest => negb (existsb (String.eqb x) rest) && distinctStrings rest
  end.

(** The expected values of a condition, as a list. *)
Definition expectedValues (c : ResolutionCondition) : list string :=
  match expectedAnswer c with
  | One e => [e]
  | Many l => l
  end.

(** The condition asks about a question of the category's tree, its
    expected value has the shape its operator reads, and on a choice or
    yes/no question an expected value of equals or in is an answer that
    normalisation can produce. *)
Definition conditionIntact (category : IssueCategory) (c : ResolutionCondition)
    : bool :=
  match getQuestion category (questionId c) with
  | None => false
  | Some q =>
      match operator c, expectedAnswer c with
      | op_contains, One _ => true
      | op_equals, One _ | op_in, Many _ =>
          match q_type q with
          | SINGLE_CHOICE =>
              forallb (fun e => existsb (String.eqb e) (default [] (options q)))
                      (expectedValues c)
          | YES_NO =>
              forallb (fun e => existsb (String.eqb e) ["yes"; "no"])
                      (expectedValues c)
          | _ => true
          end
      | _, _ => false
      end
  end.

Definition allPaths : list ResolutionPath :=
  concat (map RESOLUTION_PATHS all_categories).

(** The condition asks about a question id that names no inherited
    property, with an operator that is evaluated and an expected value of
    the shape the operator reads. *)
Definition conditionEvaluable (c : ResolutionCondition) : bool :=
  negb (isInherited (questionId c)) &&
  match operator c, expectedAnswer c with
  | op_equals, One _ | op_contains, One _ | op_in, Many _ => true
  | _, _ => false
  end.

Definition pathsEvaluable : bool :=
  forallb (fun path => forallb conditionEvaluable (conditions path)) allPaths.

(** No question of a tree is stored under the key of an inherited
    property. *)
Definition inheritedKeysUndeclared : bool :=
  forallb
    (fun category =>
       forallb
         (fun name => negb (isSome (getQuestion category (inheritedKey name))))
         objectPrototype)
    all_categories.

(** The ids under which the embedded functions look a question up and
    use what they find name no inherited property: the root ids, the ids
    of the declared questions (the edges lead to these), and the keys of
    the inherited properties. *)
Definition questionLookupsOwn : bool :=
  forallb
    (fun category =>
       negb (isInherited (rootQuestionId (QUESTION_TREES category))) &&
       forallb (fun entry : string * Question => negb (isInherited entry.1))
               (declaredQuestions category))
    all_categories
  && forallb (fun name => negb (isInherited (inheritedKey name))) objectPrototype.

(** No edge of a tree leaves a question under the name of an inherited
    property. *)
Definition edgeKeysOwn : bool :=
  forallb
    (fun category =>
       forallb
         (fun entry : string * Question =>
            match nextQuestionMap entry.2 with
            | Some edges =>
                forallb (fun key => negb (isInherited key)) (map_to_list edges).*1
            | None => true
            end)
         (declaredQuestions category))
    all_categories.

(** Every question that has edges lies on a path of at least two
    questions. *)
Definition branchingQuestionsDeep : bool :=
  forallb
    (fun category =>
       forallb
         (fun entry : string * Question =>
            match nextQuestionMap entry.2 with
            | Some _ => (2 <=? height category entry.1)%nat
            | None => true
            end)
         (declaredQuestions category))
    all_categories.

Definition pathsIntact : bool :=
  forallb
    (fun category =>
       forallb
         (fun path =>
            bool_decide (rp_category path = category) &&
            forallb (conditionIntact category) (conditions path))
         (RESOLUTION_PATHS category))
    all_categories
  && distinctStrings (map rp_id allPaths).

(** Every self-service and automated-action path declares at least one
    step. *)
Definition stepsDeclared : bool :=
  forallb
    (fun path =>
       match rp_type path with
       | SELF_SERVICE | AUTOMATED_ACTION =>
           match steps path with
           | Some (_ :: _) => true
           | _ => false
           end
       | _ => true
       end)
    allPaths.

(** The questions that the conditions of a category's paths ask about. *)
Definition citedQuestions (category : IssueCategory) : list string :=
  concat (map (fun path => map questionId (conditions path))
              (RESOLUTION_PATHS category)).

(** Answers that lead from [current] to [target], searched along the
    edges to the depth [fuel]. *)
Fixpoint answersTo (fuel : nat) (category : IssueCategory)
    (current target : string) : option (list string) :=
  if String.eqb current target then Some []
  else
    match fuel with
    | O => None
    | S fuel' =>
        match getQuestion category current with
        | None => None
        | Some q =>
            foldr
              (fun edge found =>
                 match answersTo fuel' category edge.2 target with
                 | Some rest => Some (edge.1 :: rest)
                 | None => found
                 end)
              None
              (map_to_list (default ∅ (nextQuestionMap q)))
        end
    end.

(** The first ten code units are [dddd-dd-dd], as in the output of
    [toISOString] for the years 0 to 9999. *)
Definition isoDatePrefix (s : string) : bool :=
  match s with
  | String y1 (String y2 (String y3 (String y4 (String d1
      (String m1 (String m2 (String d2 (String a1 (String a2 _))))))))) =>
      isDigit y1 && isDigit y2 && isDigit y3 && isDigit y4 &&
      Ascii.eqb d1 "-" && isDigit m1 && isDigit m2 &&
      Ascii.eqb d2 "-" && isDigit a1 && isDigit a2
  | _ => false
  end.

(** The common shape of the four mutators of the session service: look
    the session up with [getSession], change it with [f] and store the
    result under the same id. *)
Definition storeUpdated (sessions : Sessions) (id : string) (now : Z)
    (f : ConversationSession -> ConversationSession)
    : Sessions * option ConversationSession :=
  match getSession sessions id now with
  | (sessions1, None) => (sessions1, None)
  | (sessions1, Some session) => (mapSet sessions1 id (f session), Some (f session))
  end.

(** What each mutator does to the session it finds. *)
Definition merged (updates : SessionUpdates) (stamp : Z)
    (session : ConversationSession) : ConversationSession :=
  {| sessionId := default (sessionId session) (u_sessionId updates);
     mode := default (mode session) (u_mode updates);
     category := default (category session) (u_category updates);
     confidence := default (confidence session) (u_confidence updates);
     answers := default (answers session) (u_answers updates);
     currentQuestionId :=
       default (currentQuestionId session) (u_currentQuestionId updates);
     conversationHistory :=
       default (conversationHistory session) (u_conversationHistory updates);
     createdAt := default (createdAt session) (u_createdAt updates);
     updatedAt := stamp;
     resolved := default (resolved session) (u_resolved updates);
     resolution := default (resolution session) (u_resolution updates) |}.

Definition withMessage (msg : Message) (stamp : Z)
    (session : ConversationSession) : ConversationSession :=
  withHistory session
    ((if (MAX_MESSAGES <=? length (conversationHistory session))%nat
      then lastFifty (conversationHistory session)
      else conversationHistory session) ++ [msg])
    stamp.

Definition withAnswer (question answer : string) (stamp : Z)
    (s : ConversationSession) : ConversationSession :=
  {| sessionId := sessionId s; mode := mode s; category := category s;
     confidence := confidence s;
     answers := setProperty (answers s) question answer;
     currentQuestionId := currentQuestionId s;
     conversationHistory := conversationHistory s;
     createdAt := createdAt s; updatedAt := stamp;
     resolved := resolved s; resolution := resolution s |}.

Definition withResolution (res : option Resolution) (stamp : Z)
    (s : ConversationSession) : ConversationSession :=
  {| sessionId := sessionId s; mode := mode s; category := category s;
     confidence := confidence s; answers := answers s;
     currentQuestionId := currentQuestionId s;
     conversationHistory := conversationHistory s;
     createdAt := createdAt s; updatedAt := stamp;
     resolved := true; resolution := res |}.

(** The changes a mutator of the session service can make, with the
    time stamp it sets. *)
Inductive Mutation :=
  | Update (updates : SessionUpdates)
  | AppendMessage (r : Role) (body : string) (meta : option (gmap string string))
      (uuidMessage : string) (stampMessage : Z)
  | RecordAnswer (question answer : string)
  | MarkResolved (res : option Resolution).

(** The call of the service that a [Mutation] stands for. *)
Definition mutate (sessions : Sessions) (id : string) (m : Mutation)
    (now stamp : Z) : Sessions * option ConversationSession :=
  match m with
  | Update updates => updateSession sessions id updates now stamp
  | AppendMessage r body meta uuidMessage stampMessage =>
      addMessage sessions id r body meta uuidMessage now stampMessage stamp
  | RecordAnswer question answer => addAnswer sessions id question answer now stamp
  | MarkResolved res => markSessionResolved sessions id res now stamp
  end.

Definition applied (m : Mutation) (stamp : Z)
    : ConversationSession -> ConversationSession :=
  match m with
  | Update updates => merged updates stamp
  | AppendMessage r body meta uuidMessage stampMessage =>
      withMessage {| m_id := uuidMessage; role := r; content := body;
                     timestamp := stampMessage; metadata := meta |} stamp
  | RecordAnswer question answer => withAnswer question answer stamp
  | MarkResolved res => withResolution res stamp
  end.

(** ** Issue categories ([config/issueCategories.ts]) *)

Record CategoryMetadata := {
  cm_category : IssueCategory;
  displayName : string;
  description : string;
  keywords : list string;
  examples : list string;
  cm_priority : Priority
}.

Definition ISSUE_CATEGORIES (category : IssueCategory) : CategoryMetadata :=
  match category with
  | ORDER_STATUS =>
      {| cm_category := ORDER_STATUS;
         displayName := "Order Status";
         description :=
           "Questions about order tracking, shipping status, or delivery timeline";
         keywords :=
           ["order"; "tracking"; "shipped"; "delivery"; "status"; "where is";
            "when will"; "arrive"; "eta"; "tracking number"; "package"];
         examples :=
           ["Where is my order?"; "When will my package arrive?";
            "Can I track my order?"; "What is the status of order #12345?"];
         cm_priority := medium |}
  | DELIVERY_PROBLEM =>
      {| cm_category := DELIVERY_PROBLEM;
         displayName := "Delivery Problem";
         description :=
           "Issues with delivery such as delays, wrong address, or failed delivery";
         keywords :=
           ["delivery"; "delayed"; "late"; "wrong address"; "not delivered";
            "missing"; "lost"; "damaged"; "failed delivery"; "courier"];
         examples :=
           ["My package is delayed"; "Delivery to wrong address";
            "Package not delivered"; "My order is lost"];
         cm_priority := high |}
  | PAYMENT_ISSUE =>
      {| cm_category := PAYMENT_ISSUE;
         displayName := "Payment Issue";
         description :=
           "Problems with payment processing, charges, or payment methods";
         keywords :=
           ["payment"; "charged"; "credit card"; "declined"; "failed";
            "double charged"; "billing"; "transaction"; "pay"; "charge"];
         examples :=
           ["My payment was declined"; "I was charged twice";
            "Payment not going through"; "Wrong amount charged"];
         cm_priority := high |}
  | REFUND_REQUEST =>
      {| cm_category := REFUND_REQUEST;
         displayName := "Refund Request";
         description :=
           "Requests for refunds or questions about refund status";
         keywords :=
           ["refund"; "money back"; "return"; "reimbursement";
            "refund status"; "when will i get"; "refund policy";
            "get my money"];
         examples :=
           ["I want a refund"; "When will I get my refund?";
            "How do I request a refund?"; "Refund not received"];
         cm_priority := high |}
  | PRODUCT_DEFECT =>
      {| cm_category := PRODUCT_DEFECT;
         displayName := "Product Defect";
         description :=
           "Issues with product quality, defects, or wrong item received";
         keywords :=
           ["defective"; "broken"; "damaged"; "wrong item"; "not working";
            "faulty"; "quality"; "defect"; "incorrect"; "different"];
         examples :=
           ["Product is defective"; "Received wrong item"; "Item is broken";
            "Product not as described"];
         cm_priority := high |}
  | ACCOUNT_ACCESS =>
      {| cm_category := ACCOUNT_ACCESS;
         displayName := "Account Access";
         description :=
           "Problems accessing account, login issues, or password reset";
         keywords :=
           ["login"; "password"; "account"; "access"; "locked"; "reset";
            "forgot password"; "cant login"; "sign in"; "username"];
         examples :=
           ["Cannot login to my account"; "Forgot my password";
            "Account is locked"; "Need to reset password"];
         cm_priority := medium |}
  | BILLING_INQUIRY =>
      {| cm_category := BILLING_INQUIRY;
         displayName := "Billing Inquiry";
         description :=
           "Questions about invoices, billing statements, or charges";
         keywords :=
           ["invoice"; "bill"; "statement"; "receipt"; "billing";
            "charge details"; "invoice copy"; "billing history"];
         examples :=
           ["Need a copy of my invoice"; "Question about my bill";
            "Billing statement incorrect"; "Where is my receipt?"];
         cm_priority := low |}
  | CANCELLATION =>
      {| cm_category := CANCELLATION;
         displayName := "Order Cancellation";
         description :=
           "Requests to cancel orders or questions about cancellation";
         keywords :=
           ["cancel"; "cancellation"; "cancel order"; "dont want";
            "stop order"; "cancel my order"; "cancel subscription"];
         examples :=
           ["I want to cancel my order"; "How do I cancel?";
            "Can I cancel my order?"; "Need to cancel order #12345"];
         cm_priority := high |}
  | OTHER =>
      {| cm_category := OTHER;
         displayName := "Other";
         description :=
           "Issues that do not fit into predefined categories";
         keywords :=
           ["other"; "general"; "question"; "help"; "support"; "inquiry"];
         examples :=
           ["General question"; "Need help with something else"; "Other issue"];
         cm_priority := medium |}
  end.

Definition getCategoryMetadata (category : IssueCategory) : CategoryMetadata :=
  ISSUE_CATEGORIES category.

(** [Object.values(ISSUE_CATEGORIES)]: the entries in declaration order. *)
Definition getAllCategories : list CategoryMetadata :=
  List.map ISSUE_CATEGORIES all_categories.

(** ** Classification without the language model
    ([config/constants.ts], [services/geminiService.ts],
    [services/classificationService.ts])

    A confidence is a rational number here and a double in the source.
    The only confidences computed by the embedded code are [0.4] and
    [min(0.9, 0.5 + n * 0.1)] for a keyword count [n >= 1]; the doubles
    obtained for them compare with the thresholds [0.8] and [0.5] as the
    rationals do. *)

Inductive ConfidenceLevel := HIGH | MEDIUM | LOW.

(** The string value of the enumeration member. *)
Definition confidenceLevelName (level : ConfidenceLevel) : string :=
  match level with
  | HIGH => "HIGH"
  | MEDIUM => "MEDIUM"
  | LOW => "LOW"
  end.

Definition CONFIDENCE_THRESHOLDS_HIGH : Q := 8 # 10.
Definition CONFIDENCE_THRESHOLDS_MEDIUM : Q := 5 # 10.

Definition getConfidenceLevel (confidence : Q) : ConfidenceLevel :=
  if Qle_bool CONFIDENCE_THRESHOLDS_HIGH confidence then HIGH
  else if Qle_bool CONFIDENCE_THRESHOLDS_MEDIUM confidence then MEDIUM
  else LOW.

(** What [classifyUserInput] resolves to. *)
Record Classification := {
  cl_category : IssueCategory;
  cl_confidence : Q;
  cl_reasoning : string
}.

(** [Math.min(a, b)] *)
Definition mathMin (a b : Q) : Q := if Qle_bool a b then a else b.

(** [metadata.keywords.filter(keyword =>
      messageLower.includes(keyword.toLowerCase())).length] *)
Definition matchCount (messageLower : string) (metadata : CategoryMetadata) : nat :=
  length
    (List.filter (fun keyword => includes messageLower (toLowerCase keyword))
       (keywords metadata)).

Definition keywordConfidence (matchCount : nat) : Q :=
  mathMin (9 # 10) ((5 # 10) + inject_Z (Z.of_nat matchCount) * (1 # 10))%Q.

(** The loop of [fallbackClassification] over
    [Object.entries(ISSUE_CATEGORIES)]: it returns at the first category
    one of whose keywords occurs in the message. *)
Fixpoint firstKeywordMatch (messageLower : string) (entries : list IssueCategory)
    : option Classification :=
  match entries with
  | [] => None
  | category :: rest =>
      let matchCount := matchCount messageLower (ISSUE_CATEGORIES category) in
      if (0 <? matchCount)%nat
      then Some {| cl_category := category;
                   cl_confidence := keywordConfidence matchCount;
                   cl_reasoning :=
                     "Matched " ++ pretty matchCount
                       ++ " keywords (fallback classification)" |}
      else firstKeywordMatch messageLower rest
  end.

Definition fallbackClassification (userMessage : string) : Classification :=
  let messageLower := toLowerCase userMessage in
  match firstKeywordMatch messageLower all_categories with
  | Some classification => classification
  | None =>
      {| cl_category := OTHER;
         cl_confidence := 4 # 10;
         cl_reasoning := "No keyword matches (fallback classification)" |}
  end.

Record ClassificationResult := {
  cr_category : IssueCategory;
  cr_confidence : Q;
  confidenceLevel : ConfidenceLevel;
  cr_reasoning : string;
  suggestedQuestions : list string
}.

(** [classifyIssue] of the classification service, applied to what
    [classifyUserInput] resolved to. *)
Definition classifyIssue (classified : Classification) : ClassificationResult :=
  let confidenceLevel := getConfidenceLevel (cl_confidence classified) in
  let suggestedQuestions :=
    getSuggestedQuestions (cl_category classified)
      (confidenceLevelName confidenceLevel) in
  {| cr_category := cl_category classified;
     cr_confidence := cl_confidence classified;
     confidenceLevel := confidenceLevel;
     cr_reasoning := cl_reasoning classified;
     suggestedQuestions := suggestedQuestions |}.

(** The categories declared before [category]. *)
Fixpoint declaredBefore (category : IssueCategory) (entries : list IssueCategory)
    : list IssueCategory :=
  match entries with
  | [] => []
  | c :: rest =>
      if decide (c = category) then [] else c :: declaredBefore category rest
  end.

(** ** Properties *)

(** *** Lookups in plain objects *)

Lemma getProperty_own {T} (o : gmap string T) key :
  isInherited key = false ->
  getProperty o key = match o !! key with
                      | Some v => Own v
                      | None => Undefined
                      end.
Proof. intros H. unfold getProperty. by rewrite H. Qed.

Lemma getProperty_Own {T} (o : gmap string T) key v :
  getProperty o key = Own v <-> o !! key = Some v.
Proof.
  unfold getProperty. destruct (o !! key) as [w|].
  - split; by intros [= ->].
  - destruct (isInherited key); split; done.
Qed.

Lemma getProperty_Inherited {T} (o : gmap string T) key name :
  getProperty o key = Inherited name <->
  o !! key = None /\ isInherited key = true /\ name = key.
Proof.
  unfold getProperty. destruct (o !! key) as [w|].
  - split; [done|]. by intros (? & _).
  - destruct (isInherited key); split; try done.
    + by intros [= <-].
    + by intros (_ & _ & ->).
    + by intros (_ & ? & _).
Qed.

Lemma getProperty_Undefined {T} (o : gmap string T) key :
  getProperty o key = Undefined <-> o !! key = None /\ isInherited key = false.
Proof.
  unfold getProperty. destruct (o !! key) as [w|].
  - split; [done|]. by intros (? & _).
  - destruct (isInherited key); split; try done. by intros (_ & ?).
Qed.

Lemma isInherited_In key : isInherited key = true <-> In key objectPrototype.
Proof.
  unfold isInherited. rewrite existsb_exists. split.
  - by intros (y & Hy & ->%String.eqb_eq).
  - intros H. exists key. split; [done|apply String.eqb_refl].
Qed.


Lemma setProperty_lookup_eq (o : gmap string string) key v :
  key <> "__proto__" \/ is_Some (o !! key) ->
  setProperty o key v !! key = Some v.
Proof.
  intros H. unfold setProperty.
  destruct (o !! key) as [w|]; [apply lookup_insert_eq|].
  destruct (String.eqb_spec key "__proto__") as [->|Hne].
  - destruct H as [H|[w H]]; done.
  - apply lookup_insert_eq.
Qed.

Lemma setProperty_proto (o : gmap string string) v :
  o !! "__proto__" = None -> setProperty o "__proto__" v = o.
Proof. intros H. unfold setProperty. by rewrite H. Qed.

Lemma existsb_eqb_In x (l : list string) :
  existsb (String.eqb x) l = true <-> In x l.
Proof.
  rewrite existsb_exists. split.
  - by intros (y & Hy & ->%String.eqb_eq).
  - intros H. exists x. split; [done|apply String.eqb_refl].
Qed.

Lemma prefix_append sub : forall s,
  String.prefix sub s = true <-> exists post, s = sub ++ post.
Proof.
  induction sub as [|a sub IH]; intros s.
  - split; [intros _; by exists s|by destruct s].
  - destruct s as [|b s].
    + split; [done|]. intros [post H]. discriminate H.
    + cbn [String.prefix]. destruct (ascii_dec a b) as [->|Hne].
      * rewrite IH. split; intros [post H]; exists post.
        -- change (String b s = String b (sub ++ post)). by rewrite H.
        -- change (String b s = String b (sub ++ post)) in H. by injection H.
      * split; [done|]. intros [post H].
        change (String b s = String a (sub ++ post)) in H. injection H.
        intros _ ->. done.
Qed.

(** [includes] is the substring check. *)
Lemma includes_occursIn s sub : includes s sub = true <-> occursIn sub s.
Proof.
  unfold occursIn. induction s as [|c s IH]; cbn [includes].
  - rewrite orb_false_r, prefix_append. split.
    + intros [post H]. by exists EmptyString, post.
    + intros (pre & post & H). destruct pre as [|c pre]; [by exists post|].
      discriminate H.
  - rewrite orb_true_iff, prefix_append, IH. split.
    + intros [[post H]|(pre & post & H)].
      * by exists EmptyString, post.
      * exists (String c pre), post.
        change (String c s = String c (pre ++ sub ++ post)). by rewrite H.
    + intros (pre & post & H). destruct pre as [|c' pre]; [left; by exists post|].
      right. change (String c s = String c' (pre ++ sub ++ post)) in H.
      injection H as -> H. by exists pre, post.
Qed.

Lemma all_categories_complete category : In category all_categories.
Proof. destruct category; simpl; auto 10. Qed.

Lemma In_allPaths cat path : In path (RESOLUTION_PATHS cat) -> In path allPaths.
Proof.
  intros Hin. unfold allPaths. apply in_concat.
  exists (RESOLUTION_PATHS cat). split; [|done].
  apply in_map, all_categories_complete.
Qed.

(** *** Resolution matching *)

Lemma checkConditions_cons condition rest answers :
  checkConditions (condition :: rest) answers
  = match conditionMet condition answers with
    | inl true => checkConditions rest answers
    | inl false => inl false
    | inr e => inr e
    end.
Proof.
  unfold checkConditions. cbn [length Nat.eqb checkEach].
  destruct (conditionMet condition answers) as [[]|]; [|done..].
  by destruct rest.
Qed.

Lemma checkConditions_nil answers : checkConditions [] answers = inl true.
Proof. done. Qed.

(** The loop returns the first path that matches, if there is one. *)
Lemma firstMatch_Some paths answers path :
  firstMatch paths answers = inl (Some path) ->
  exists before after,
    paths = (before ++ path :: after)%list /\
    Forall (fun p => checkConditions (conditions p) answers = inl false) before /\
    checkConditions (conditions path) answers = inl true.
Proof.
  induction paths as [|p paths IH]; cbn [firstMatch]; [done|].
  destruct (checkConditions (conditions p) answers) as [[]|] eqn:Hp; [| |done].
  - intros [= <-]. by exists [], paths.
  - intros (before & after & -> & Hbefore & Hpath)%IH.
    exists (p :: before), after. split_and!; [done| |done].
    by constructor.
Qed.

Lemma firstMatch_None paths answers :
  firstMatch paths answers = inl None ->
  Forall (fun p => checkConditions (conditions p) answers = inl false) paths.
Proof.
  induction paths as [|p paths IH]; cbn [firstMatch]; [constructor|].
  destruct (checkConditions (conditions p) answers) as [[]|] eqn:Hp; [done| |done].
  intros H. constructor; auto.
Qed.

Lemma lookup_last_index {A} (l : list A) : l !! (length l - 1)%nat = last l.
Proof.
  destruct l as [|x l]; [done|].
  rewrite last_lookup. simpl. f_equal. lia.
Qed.

Lemma RESOLUTION_PATHS_nonempty category : RESOLUTION_PATHS category <> [].
Proof. by destruct category. Qed.

(** On a condition of the declared shape, whose question id names no
    inherited property, the check does not throw, and it accepts exactly
    the answers that satisfy the condition. *)
Lemma conditionMet_satisfied c answers :
  conditionEvaluable c = true ->
  exists b, conditionMet c answers = inl b /\ (b = true <-> satisfied c answers).
Proof.
  unfold conditionEvaluable, conditionMet, satisfied.
  intros [Hown Hshape]%andb_true_iff. apply negb_true_iff in Hown.
  rewrite (getProperty_own _ _ Hown).
  destruct (answers !! questionId c) as [a|] eqn:Ha.
  2:{ exists false. split; [done|]. split; [done|]. by intros (? & ? & _). }
  destruct (String.eqb_spec a EmptyString) as [->|Hne].
  { exists false. split; [done|]. split; [done|]. by intros (? & [= <-] & ? & _). }
  destruct (operator c), (expectedAnswer c) as [e|l]; try done;
    (eexists; split; [reflexivity|]).
  - rewrite String.eqb_eq. split.
    + intros ->. by exists e.
    + by intros (? & [= <-] & _ & ->).
  - rewrite includes_occursIn. split.
    + intros H. by exists a.
    + by intros (? & [= <-] & _ & H).
  - rewrite existsb_eqb_In. split.
    + intros H. by exists a.
    + by intros (? & [= <-] & _ & H).
Qed.

Lemma checkConditions_fullMatch conditions answers :
  Forall (fun c => conditionEvaluable c = true) conditions ->
  exists b, checkConditions conditions answers = inl b /\
            (b = true <-> Forall (fun c => satisfied c answers) conditions).
Proof.
  induction 1 as [|c rest Hc _ (b & Hrest & Hb)].
  - exists true. split; [done|]. split; [constructor|done].
  - rewrite checkConditions_cons.
    destruct (conditionMet_satisfied c answers Hc) as (b1 & -> & Hb1).
    destruct b1.
    + exists b. split; [done|]. rewrite Hb. split.
      * intros H. constructor; [by apply Hb1|done].
      * by intros [_ H]%Forall_cons.
    + exists false. split; [done|]. split; [done|].
      intros [H _]%Forall_cons. apply Hb1 in H. done.
Qed.

Lemma pathsEvaluable_holds : pathsEvaluable = true.
Proof. by vm_compute. Qed.

Lemma declared_conditions_evaluable category path :
  In path (RESOLUTION_PATHS category) ->
  Forall (fun c => conditionEvaluable c = true) (conditions path).
Proof.
  intros Hin%In_allPaths.
  pose proof pathsEvaluable_holds as Hall. unfold pathsEvaluable in Hall.
  rewrite forallb_forall in Hall. specialize (Hall path Hin).
  rewrite forallb_forall in Hall. by apply List.Forall_forall.
Qed.

(** Matching against declared paths does not throw, and it finds the
    first path all of whose conditions are satisfied by the answers. *)
Lemma firstMatch_fullMatch paths answers :
  Forall (fun p => Forall (fun c => conditionEvaluable c = true) (conditions p))
         paths ->
  (exists path before after,
     firstMatch paths answers = inl (Some path) /\
     paths = (before ++ path :: after)%list /\
     Forall (fun p => ~ fullMatch p answers) before /\
     fullMatch path answers)
  \/
  (firstMatch paths answers = inl None /\
   Forall (fun p => ~ fullMatch p answers) paths).
Proof.
  induction 1 as [|p paths Hp _ IH]; cbn [firstMatch].
  - right. split; [done|constructor].
  - destruct (checkConditions_fullMatch _ answers Hp) as (b & -> & Hb).
    destruct b.
    + left. exists p, [], paths. split_and!; [done|done|constructor|by apply Hb].
    + assert (~ fullMatch p answers) as Hno.
      { intros H. apply Hb in H. done. }
      destruct IH as [(path & before & after & -> & -> & Hbefore & Hpath)
                     |[-> Hnone]].
      * left. exists path, (p :: before), after.
        split_and!; [done|done|by constructor|done].
      * right. split; [done|by constructor].
Qed.

Lemma findMatchingResolution_fullMatch category answers :
  exists path,
    findMatchingResolution category answers = inl (Some path) /\
    ((exists before after,
        RESOLUTION_PATHS category = (before ++ path :: after)%list /\
        Forall (fun p => ~ fullMatch p answers) before /\
        fullMatch path answers)
     \/
     (Forall (fun p => ~ fullMatch p answers) (RESOLUTION_PATHS category) /\
      last (RESOLUTION_PATHS category) = Some path)).
Proof.
  unfold findMatchingResolution. cbv zeta.
  destruct (firstMatch_fullMatch (RESOLUTION_PATHS category) answers)
    as [(path & before & after & -> & Hsplit & Hbefore & Hpath)|[-> Hnone]].
  - apply List.Forall_forall. intros p Hp.
    by apply (declared_conditions_evaluable category).
  - exists path. split; [done|]. left. by exists before, after.
  - rewrite lookup_last_index.
    destruct (last (RESOLUTION_PATHS category)) as [path|] eqn:Hlast.
    + exists path. split; [done|]. by right.
    + apply last_None in Hlast. by apply RESOLUTION_PATHS_nonempty in Hlast.
Qed.


(** A declared path whose conditions the check rejects is no full
    match. *)
Lemma checkConditions_false_no_match category path answers :
  In path (RESOLUTION_PATHS category) ->
  checkConditions (conditions path) answers = inl false ->
  ~ fullMatch path answers.
Proof.
  intros Hin Hcheck Hfull.
  destruct (checkConditions_fullMatch (conditions path) answers
              (declared_conditions_evaluable category path Hin))
    as (b & Hb & Hiff).
  rewrite Hcheck in Hb. injection Hb as <-. by apply Hiff in Hfull.
Qed.

(** With no answers at all the result is the last declared path. *)
Lemma findMatchingResolution_no_answers category :
  category <> OTHER ->
  findMatchingResolution category ∅ = inl (last (RESOLUTION_PATHS category)).
Proof. by destruct category. Qed.

(** An answer recorded as the empty string counts as missing. *)
Lemma conditionMet_empty_answer condition answers :
  answers !! questionId condition = Some EmptyString ->
  conditionMet condition answers = inl false.
Proof.
  intros H. unfold conditionMet.
  by rewrite (proj2 (getProperty_Own _ _ _) H).
Qed.

(** The declared paths use the operators equals, contains and in only. *)
Lemma declared_operators_evaluated : declaredOperatorsEvaluated = true.
Proof. by vm_compute. Qed.

(** C3, as the specification states it, fails: a greater-than condition
    whose question has a recorded answer is accepted, although "5" is not
    greater than "100", and a path gated by that condition alone is what
    the matching loop selects. *)
Lemma greaterThan_condition_accepted :
  operator amountOver100 = op_greaterThan /\
  checkConditions [amountOver100] smallCharge = inl true /\
  firstMatch [largeChargePath] smallCharge = inl (Some largeChargePath).
Proof. by vm_compute. Qed.

(** C3, amended.  A condition whose operator is greater-than or less-than,
    on a question id that names no inherited property, is accepted
    exactly when a non-empty answer is recorded for its question; the
    expected value is not looked at, and nothing is thrown.  A condition
    list that starts with it is accepted iff such an answer exists and the
    rest of the list is accepted. *)
Theorem checkConditions_unimplemented_operator :
  forall (condition : ResolutionCondition) (rest : list ResolutionCondition)
         (answers : gmap string string),
  operator condition = op_greaterThan \/ operator condition = op_lessThan ->
  isInherited (questionId condition) = false ->
  (exists accepted, conditionMet condition answers = inl accepted) /\
  (conditionMet condition answers = inl true <->
     exists answer, answers !! questionId condition = Some answer /\
                    answer <> EmptyString) /\
  (checkConditions (condition :: rest) answers = inl true <->
     (exists answer, answers !! questionId condition = Some answer /\
                     answer <> EmptyString) /\
     checkConditions rest answers = inl true).
Proof.
  intros condition rest answers Hop Hown.
  assert (conditionMet condition answers
          = inl (match answers !! questionId condition with
                 | Some a => negb (String.eqb a EmptyString)
                 | None => false
                 end)) as Hmet.
  { unfold conditionMet. rewrite (getProperty_own _ _ Hown).
    destruct (answers !! questionId condition) as [a|]; [|done].
    destruct (String.eqb a EmptyString); [done|].
    by destruct Hop as [-> | ->]. }
  assert (conditionMet condition answers = inl true <->
          exists answer, answers !! questionId condition = Some answer /\
                         answer <> EmptyString) as Hiff.
  { rewrite Hmet. clear Hmet.
    destruct (answers !! questionId condition) as [a|].
    - destruct (String.eqb_spec a EmptyString) as [Heq|Hne].
      + split; [done|]. intros (? & [= <-] & ?). done.
      + split; [by exists a|done].
    - split; [done|]. by intros (? & ? & _). }
  split_and!; [by eexists|done|].
  rewrite checkConditions_cons, <- Hiff.
  destruct (conditionMet condition answers) as [[]|]; split; try done;
    by intros [? ?].
Qed.

Lemma checkConditions_unimplemented_operator_witness :
  checkConditions [amountOver100] smallCharge = inl true <->
  (exists answer, smallCharge !! "payment_3" = Some answer /\ answer <> EmptyString) /\
  checkConditions [] smallCharge = inl true.
Proof.
  apply (checkConditions_unimplemented_operator amountOver100 [] smallCharge).
  - left. reflexivity.
  - reflexivity.
Defined.

(** Where the question id of such a condition names an inherited
    property, the lookup finds that property when no answer is recorded,
    and the condition is accepted all the same. *)
Lemma unimplemented_operator_inherited_property :
  isInherited (questionId inheritedAmount) = true /\
  conditionMet inheritedAmount ∅ = inl true /\
  conditionMet amountOver100 ∅ = inl false.
Proof. by vm_compute. Qed.

(** The last declared path of ORDER_STATUS carries a condition, and it
    does not match the empty answers map. *)
Lemma ORDER_STATUS_last_path_conditional :
  exists path,
    last (RESOLUTION_PATHS ORDER_STATUS) = Some path /\
    rp_id path = "order_status_email_lookup" /\
    conditions path <> [] /\
    checkConditions (conditions path) ∅ = inl false.
Proof. eexists. by vm_compute. Qed.

(** Every category has a last declared path; its condition list is empty
    for OTHER only. *)
Lemma last_path_unconditional_iff_OTHER :
  forall category : IssueCategory,
  exists path,
    last (RESOLUTION_PATHS category) = Some path /\
    (conditions path = [] <-> category = OTHER) /\
    (checkConditions (conditions path) ∅ = inl true <-> category = OTHER).
Proof.
  intros category.
  destruct category; eexists; (split; [reflexivity|]); by vm_compute.
Qed.

(** C4.  The claim fails on the code.  A customer of CANCELLATION who
    answers that the order has not shipped and then declines to cancel
    walks the tree to its end; these answers satisfy the conditions of no
    declared path, and what [findMatchingResolution] returns for them is
    the last declared path, cancel_shipped_return: a self-service path for
    a shipped order, whose two conditions the answers do not satisfy,
    where the comment of the function announces a generic escalation. *)
Theorem CANCELLATION_fallback_is_conditional_path :
  questionsVisited CANCELLATION (rootQuestionId (QUESTION_TREES CANCELLATION))
    ["no"; "no"] = ["cancel_1"; "cancel_3"] /\
  Forall (fun p => ~ fullMatch p cancelDeclined) (RESOLUTION_PATHS CANCELLATION) /\
  exists path,
    findMatchingResolution CANCELLATION cancelDeclined = inl (Some path) /\
    last (RESOLUTION_PATHS CANCELLATION) = Some path /\
    rp_id path = "cancel_shipped_return" /\
    rp_type path = SELF_SERVICE /\
    length (conditions path) = 2%nat /\
    checkConditions (conditions path) cancelDeclined = inl false.
Proof.
  split; [by vm_compute|]. split.
  - apply List.Forall_forall. intros p Hp.
    apply (checkConditions_false_no_match CANCELLATION); [exact Hp|].
    destruct Hp as [<-|[<-|[<-|[]]]]; by vm_compute.
  - eexists. split; [by vm_compute|]. by vm_compute.
Qed.

(** C9.  With the answers "Package is delayed" for delivery_1 and "More
    than 5 days" for delivery_2 recorded (whatever else is), matching for
    DELIVERY_PROBLEM selects the path delivery_delayed_major and the
    resolution built from it is an escalation to an agent.  These are the
    answers that lead from the root of the tree to a leaf. *)
Theorem delayed_delivery_escalates_to_agent :
  forall (env : Entropy) (answers : gmap string string),
  answers !! "delivery_1" = Some "Package is delayed" ->
  answers !! "delivery_2" = Some "More than 5 days" ->
  (exists path,
     findMatchingResolution DELIVERY_PROBLEM answers = inl (Some path) /\
     rp_id path = "delivery_delayed_major" /\
     rp_type path = ESCALATE_AGENT) /\
  (exists resolution,
     findResolution env DELIVERY_PROBLEM answers = inl resolution /\
     res_type resolution = ESCALATE_AGENT) /\
  questionsVisited DELIVERY_PROBLEM
    (rootQuestionId (QUESTION_TREES DELIVERY_PROBLEM))
    ["Package is delayed"; "More than 5 days"]
  = ["delivery_1"; "delivery_2"].
Proof.
  intros env answers H1 H2.
  assert (findMatchingResolution DELIVERY_PROBLEM answers
          = inl (DELIVERY_PROBLEM_RESOLUTIONS !! 1%nat)) as Hfind.
  { apply getProperty_Own in H1, H2.
    unfold findMatchingResolution. simpl.
    rewrite !checkConditions_cons. unfold conditionMet. simpl.
    by rewrite H1, H2. }
  split_and!.
  - eexists. split; [exact Hfind|]. done.
  - unfold findResolution. rewrite Hfind. by eexists.
  - by vm_compute.
Qed.

Lemma delayed_delivery_escalates_to_agent_witness :
  exists resolution,
    findResolution
      {| isoNow := "2025-01-15T10:30:00.000Z"; random10000 := 42%N;
         uuid := "9b2c1a34-5d6e-4f70-8a91-b2c3d4e5f607" |}
      DELIVERY_PROBLEM delayedDelivery = inl resolution /\
    res_type resolution = ESCALATE_AGENT.
Proof.
  refine (proj1 (proj2 (delayed_delivery_escalates_to_agent _ delayedDelivery _ _)));
    reflexivity.
Defined.

(** *** Navigation of the question trees *)

Lemma edgesDescend_all category : edgesDescend category = true.
Proof. destruct category; by vm_compute. Qed.

(** Following an edge leads to a question of the tree whose longest path
    is strictly shorter. *)
Lemma getNextQuestionId_descends category current answer next :
  getNextQuestionId category current answer = Own next ->
  (1 <= height category next < height category current)%nat.
Proof.
  unfold getNextQuestionId, getQuestion.
  destruct (questions (QUESTION_TREES category) !! current) as [q|] eqn:Hq; [|done].
  destruct (nextQuestionMap q) as [m|] eqn:Hm; [|done].
  intros Hnext%getProperty_Own.
  pose proof (edgesDescend_all category) as Hall.
  unfold edgesDescend in Hall. rewrite forallb_forall in Hall.
  specialize (Hall (current, q)).
  rewrite <- list_elem_of_In, elem_of_map_to_list in Hall.
  apply Hall in Hq. cbn [fst snd] in Hq.
  apply andb_true_iff in Hq as [_ Hsucc].
  rewrite forallb_forall in Hsucc. specialize (Hsucc next).
  rewrite <- list_elem_of_In in Hsucc.
  assert (next ∈ successors q) as Hin.
  { unfold successors. rewrite Hm. apply list_elem_of_fmap.
    exists (answer, next). split; [done|]. by apply elem_of_map_to_list. }
  apply Hsucc in Hin. cbv beta in Hin.
  apply andb_true_iff in Hin as [H1 H2].
  apply Nat.leb_le in H1. apply Nat.ltb_lt in H2. lia.
Qed.

Lemma inheritedKeysUndeclared_holds : inheritedKeysUndeclared = true.
Proof. by vm_compute. Qed.

Lemma branchingQuestionsDeep_holds : branchingQuestionsDeep = true.
Proof. by vm_compute. Qed.

(** The key of an inherited property names no question. *)
Lemma inheritedKey_undeclared category name :
  isInherited name = true ->
  getQuestion category (inheritedKey name) = None.
Proof.
  intros Hname%isInherited_In.
  pose proof inheritedKeysUndeclared_holds as Hall.
  unfold inheritedKeysUndeclared in Hall. rewrite forallb_forall in Hall.
  specialize (Hall category (all_categories_complete category)).
  rewrite forallb_forall in Hall. specialize (Hall name Hname).
  by destruct (getQuestion category (inheritedKey name)).
Qed.

Lemma height_root_positive category :
  (1 <= height category (rootQuestionId (QUESTION_TREES category)))%nat.
Proof. destruct category; vm_compute; lia. Qed.

(** An answer that names an inherited property finds it only at a
    question that has edges, which lies on a path of two questions at
    least. *)
Lemma getNextQuestionId_inherited category current answer name :
  getNextQuestionId category current answer = Inherited name ->
  name = answer /\ isInherited answer = true /\
  (2 <= height category current)%nat.
Proof.
  unfold getNextQuestionId, getQuestion.
  destruct (questions (QUESTION_TREES category) !! current) as [q|] eqn:Hq; [|done].
  destruct (nextQuestionMap q) as [m|] eqn:Hm; [|done].
  intros (_ & Hinh & ->)%getProperty_Inherited. split_and!; [done|done|].
  pose proof branchingQuestionsDeep_holds as Hall.
  unfold branchingQuestionsDeep in Hall. rewrite forallb_forall in Hall.
  specialize (Hall category (all_categories_complete category)).
  rewrite forallb_forall in Hall. specialize (Hall (current, q)).
  unfold declaredQuestions in Hall.
  rewrite <- list_elem_of_In, elem_of_map_to_list in Hall.
  apply Hall in Hq. cbn [fst snd] in Hq. rewrite Hm in Hq.
  by apply Nat.leb_le in Hq.
Qed.

Lemma height_undeclared category questionId :
  getQuestion category questionId = None -> height category questionId = 0%nat.
Proof.
  unfold height, getQuestion. intros H.
  destruct (size (questions (QUESTION_TREES category))); simpl; [done|].
  by rewrite H.
Qed.

(** From an id that names no question the walk goes nowhere. *)
Lemma questionsVisited_undeclared category current answers :
  getQuestion category current = None ->
  questionsVisited category current answers = [current].
Proof.
  intros H. destruct answers as [|answer rest]; [done|].
  cbn [questionsVisited]. unfold getNextQuestionId. by rewrite H.
Qed.

(** Along a walk the longest remaining path shrinks at every step. *)
Lemma questionsVisited_heights category answers : forall current,
  (1 <= height category current)%nat ->
  (length (questionsVisited category current answers) <= height category current)%nat /\
  Forall (fun q => (height category q <= height category current)%nat)
         (questionsVisited category current answers) /\
  NoDup (questionsVisited category current answers).
Proof.
  induction answers as [|answer rest IH]; intros current Hpos;
    cbn [questionsVisited].
  - split_and!; [simpl; lia| |apply NoDup_singleton].
    constructor; [lia|constructor].
  - destruct (getNextQuestionId category current answer) as [next|name|] eqn:Hnext.
    + apply getNextQuestionId_descends in Hnext as [Hn1 Hn2].
      destruct (IH next Hn1) as (Hlen & Hall & Hnodup).
      split_and!; [simpl; lia| |].
      * constructor; [lia|].
        eapply Forall_impl; [exact Hall|]. simpl. intros q Hq. lia.
      * constructor; [|done].
        intros Hin. rewrite Forall_forall in Hall.
        specialize (Hall _ Hin). simpl in Hall. lia.
    + apply getNextQuestionId_inherited in Hnext as (-> & Hinh & Hdeep).
      pose proof (inheritedKey_undeclared category answer Hinh) as Hkey.
      rewrite (questionsVisited_undeclared _ _ _ Hkey).
      apply height_undeclared in Hkey.
      split_and!; [simpl; lia| |].
      * repeat constructor; lia.
      * constructor; [|apply NoDup_singleton].
        intros ->%list_elem_of_singleton. lia.
    + split_and!; [simpl; lia| |apply NoDup_singleton].
      constructor; [lia|constructor].
Qed.

Lemma height_positive_is_question category questionId :
  (1 <= height category questionId)%nat ->
  is_Some (getQuestion category questionId).
Proof.
  unfold height, getQuestion.
  destruct (size (questions (QUESTION_TREES category))); simpl; [lia|].
  destruct (questions (QUESTION_TREES category) !! questionId); [eauto|lia].
Qed.

(** A walk visits questions of the tree, except that it ends at the key
    of an inherited property when the answer given there names one. *)
Lemma questionsVisited_questions category answers : forall current,
  is_Some (getQuestion category current) ->
  exists questions tail,
    questionsVisited category current answers = (questions ++ tail)%list /\
    Forall (fun q => is_Some (getQuestion category q)) questions /\
    (tail = [] \/
     exists name, isInherited name = true /\ tail = [inheritedKey name]).
Proof.
  induction answers as [|answer rest IH]; intros current Hcurrent;
    cbn [questionsVisited].
  - exists [current], []. split_and!; [done|by constructor|by left].
  - destruct (getNextQuestionId category current answer) as [next|name|] eqn:Hnext.
    + apply getNextQuestionId_descends in Hnext as [Hn1 _].
      apply height_positive_is_question in Hn1.
      destruct (IH next Hn1) as (questions & tail & -> & Hall & Htail).
      exists (current :: questions), tail. split_and!; [done|by constructor|done].
    + apply getNextQuestionId_inherited in Hnext as (-> & Hinh & _).
      rewrite (questionsVisited_undeclared _ _ _
                 (inheritedKey_undeclared category answer Hinh)).
      exists [current], [inheritedKey answer].
      split_and!; [done|by constructor|]. right. by exists answer.
    + exists [current], []. split_and!; [done|by constructor|by left].
Qed.

(** Answers that walk a longest root-to-leaf path of each tree. *)
Lemma longestPath_attained category :
  exists answers : list string,
    length (questionsVisited category
              (rootQuestionId (QUESTION_TREES category)) answers)
    = longestPath category.
Proof.
  destruct category.
  - by exists ["yes"].
  - by exists ["Package delivered to wrong address"; "yes"].
  - by exists ["Payment was declined"].
  - by exists ["Product defective or damaged"; "yes"].
  - by exists [].
  - by exists ["Forgot password"].
  - by exists [].
  - by exists ["yes"].
  - by exists [].
Qed.

(** The walk stops for want of an edge, not of answers, once the answers
    are as many as the longest path. *)
Lemma questionsVisited_stops category answers :
  (longestPath category <= length answers)%nat ->
  (length (questionsVisited category
             (rootQuestionId (QUESTION_TREES category)) answers)
   <= length answers)%nat.
Proof.
  intros H.
  destruct (questionsVisited_heights category answers _
              (height_root_positive category)) as [Hlen _].
  unfold longestPath in H. lia.
Qed.

(** C2.  For every category and every sequence of answers, the walk from
    the root of the tree that follows [getNextQuestionId] visits no id
    twice, and the number of ids it visits is at most the length of the
    longest root-to-leaf path of the tree; some sequence of answers
    attains that length.  What it visits are questions of the tree, except
    that an answer naming an inherited property, given at a question that
    has edges, adds the key of that property as a last element.  A
    sequence of answers at least as long as the longest path is therefore
    never used up. *)
Theorem questionsVisited_bounded :
  forall (category : IssueCategory) (answers : list string),
  let root := rootQuestionId (QUESTION_TREES category) in
  let visited := questionsVisited category root answers in
  (length visited <= longestPath category)%nat /\
  NoDup visited /\
  (exists questions tail,
     visited = (questions ++ tail)%list /\
     Forall (fun q => is_Some (getQuestion category q)) questions /\
     (tail = [] \/
      exists name, isInherited name = true /\ tail = [inheritedKey name])) /\
  (exists longest : list string,
     length (questionsVisited category root longest) = longestPath category).
Proof.
  intros category answers root visited.
  destruct (questionsVisited_heights category answers root
              (height_root_positive category)) as (Hlen & Hall & Hnodup).
  split_and!; [done|done| |apply longestPath_attained].
  apply questionsVisited_questions, height_positive_is_question,
    height_root_positive.
Qed.

(** *** The session store *)

Lemma mapGet_mapSet_eq sessions key v : mapGet (mapSet sessions key v) key = Some v.
Proof.
  induction sessions as [|[k w] rest IH]; simpl.
  - by rewrite String.eqb_refl.
  - destruct (String.eqb k key) eqn:Hk; simpl; by rewrite Hk.
Qed.

Lemma mapGet_mapSet_ne sessions key key' v :
  key <> key' -> mapGet (mapSet sessions key v) key' = mapGet sessions key'.
Proof.
  intros Hne. induction sessions as [|[k w] rest IH]; simpl.
  - by apply String.eqb_neq in Hne as ->.
  - destruct (String.eqb_spec k key) as [->|Hk]; simpl.
    + by apply String.eqb_neq in Hne as ->.
    + by rewrite IH.
Qed.

Lemma mapGet_mapDelete_eq sessions key : mapGet (mapDelete sessions key) key = None.
Proof.
  induction sessions as [|[k w] rest IH]; simpl; [done|].
  destruct (String.eqb k key) eqn:Hk; simpl; [done|]. by rewrite Hk.
Qed.

Lemma mapGet_mapDelete_ne sessions key key' :
  key <> key' -> mapGet (mapDelete sessions key) key' = mapGet sessions key'.
Proof.
  intros Hne. induction sessions as [|[k w] rest IH]; simpl; [done|].
  destruct (String.eqb_spec k key) as [->|Hk]; simpl.
  - by apply String.eqb_neq in Hne as ->.
  - by rewrite IH.
Qed.

Lemma mapGet_elem_of sessions key v :
  mapGet sessions key = Some v -> (key, v) ∈ sessions.
Proof.
  induction sessions as [|[k w] rest IH]; simpl; [done|].
  destruct (String.eqb_spec k key) as [->|Hk].
  - intros [= ->]. left.
  - intros H. right. auto.
Qed.

Lemma mapKeys_mapDelete sessions key k :
  k ∈ mapKeys (mapDelete sessions key) -> k ∈ mapKeys sessions.
Proof.
  induction sessions as [|[k' w] rest IH]; simpl; [done|].
  destruct (String.eqb k' key); simpl.
  - intros H. right. auto.
  - intros [->|H]%elem_of_cons; [left|right; auto].
Qed.

Lemma mapKeys_mapSet sessions key v k :
  k ∈ mapKeys (mapSet sessions key v) -> k = key \/ k ∈ mapKeys sessions.
Proof.
  induction sessions as [|[k' w] rest IH]; simpl.
  - intros ->%list_elem_of_singleton. by left.
  - destruct (String.eqb k' key); simpl.
    + intros H. by right.
    + intros [->|H]%elem_of_cons.
      * right. left.
      * destruct (IH H) as [->|Hin]; [by left|]. right. by right.
Qed.

(** The operations on the [Map] keep its keys distinct. *)
Lemma wellFormed_mapDelete sessions key :
  wellFormed sessions -> wellFormed (mapDelete sessions key).
Proof.
  unfold wellFormed.
  induction sessions as [|[k w] rest IH]; simpl; [done|].
  intros [Hk Hrest]%NoDup_cons.
  destruct (String.eqb k key); simpl; [auto|].
  apply NoDup_cons. split; [|auto].
  intros H. by apply mapKeys_mapDelete in H.
Qed.

Lemma wellFormed_mapSet sessions key v :
  wellFormed sessions -> wellFormed (mapSet sessions key v).
Proof.
  unfold wellFormed.
  induction sessions as [|[k w] rest IH]; simpl.
  - intros _. apply NoDup_singleton.
  - intros [Hk Hrest]%NoDup_cons.
    destruct (String.eqb_spec k key) as [->|Hne]; simpl.
    + by apply NoDup_cons.
    + apply NoDup_cons. split; [|auto].
      intros [->|H]%mapKeys_mapSet; done.
Qed.

Lemma wellFormed_createSession sessions mode msg uuidSession uuidMessage now :
  wellFormed sessions ->
  wellFormed (createSession sessions mode msg uuidSession uuidMessage now).1.
Proof.
  intros Hwf. unfold createSession. cbn [fst].
  apply wellFormed_mapSet.
  destruct (MAX_ACTIVE_SESSIONS <=? mapSize sessions)%nat; [|done].
  destruct (mapKeys sessions); [done|]. by apply wellFormed_mapDelete.
Qed.

Lemma wellFormed_getSession sessions id now :
  wellFormed sessions -> wellFormed (getSession sessions id now).1.
Proof.
  intros Hwf. unfold getSession.
  destruct (mapGet sessions id) as [s|]; [|done].
  destruct (now - updatedAt s >? TIMEOUT_MS); [|done].
  by apply wellFormed_mapDelete.
Qed.

Lemma wellFormed_addAnswer sessions id question answer now stamp :
  wellFormed sessions ->
  wellFormed (addAnswer sessions id question answer now stamp).1.
Proof.
  intros Hwf. unfold addAnswer.
  pose proof (wellFormed_getSession sessions id now Hwf) as Hget.
  destruct (getSession sessions id now) as [sessions1 [s|]]; [|done].
  by apply wellFormed_mapSet.
Qed.

Lemma wellFormed_updateSession sessions id updates now stamp :
  wellFormed sessions ->
  wellFormed (updateSession sessions id updates now stamp).1.
Proof.
  intros Hwf. unfold updateSession.
  pose proof (wellFormed_getSession sessions id now Hwf) as Hget.
  destruct (getSession sessions id now) as [sessions1 [s|]]; [|done].
  by apply wellFormed_mapSet.
Qed.

Lemma wellFormed_created mode msg (names : list nat) : forall sessions,
  wellFormed sessions ->
  wellFormed
    (foldl
       (fun st n =>
          (createSession st mode msg (sessionName n) (messageName n) (Z.of_nat n)).1)
       sessions names).
Proof.
  induction names as [|n names IH]; intros sessions Hwf; [done|].
  simpl. apply IH. by apply wellFormed_createSession.
Qed.

(** The stores of the examples are stores the service can reach from
    the empty one. *)
Lemma busyStore_wellFormed : wellFormed busyStore.
Proof.
  apply wellFormed_addAnswer, wellFormed_created. apply NoDup_nil_2.
Qed.

Lemma threeSessions_wellFormed : wellFormed threeSessions.
Proof. apply wellFormed_created. apply NoDup_nil_2. Qed.

(** What one [getSession] leaves under a key: nothing, or what was
    there. *)
Lemma getSession_frame sessions id now key :
  mapGet (getSession sessions id now).1 key = None \/
  mapGet (getSession sessions id now).1 key = mapGet sessions key.
Proof.
  unfold getSession.
  destruct (mapGet sessions id) as [s|] eqn:Hs; [|by right].
  destruct (now - updatedAt s >? TIMEOUT_MS); [|by right].
  cbn [fst]. destruct (decide (id = key)) as [->|Hne].
  - left. apply mapGet_mapDelete_eq.
  - right. by apply mapGet_mapDelete_ne.
Qed.

Lemma getSessions_frame calls : forall sessions key,
  mapGet (getSessions sessions calls) key = None \/
  mapGet (getSessions sessions calls) key = mapGet sessions key.
Proof.
  induction calls as [|[id now] calls IH]; intros sessions key; [by right|].
  unfold getSessions in *. simpl.
  destruct (IH (getSession sessions id now).1 key) as [H|H]; [by left|].
  rewrite H. apply getSession_frame.
Qed.

Lemma getSession_expired sessions id now session :
  mapGet sessions id = Some session ->
  now - updatedAt session > TIMEOUT_MS ->
  getSession sessions id now = (mapDelete sessions id, None).
Proof.
  intros Hget Hold. unfold getSession. rewrite Hget.
  destruct (Z.gtb_spec (now - updatedAt session) TIMEOUT_MS); [done|lia].
Qed.

Lemma getSession_live sessions id now session :
  mapGet sessions id = Some session ->
  now - updatedAt session <= TIMEOUT_MS ->
  getSession sessions id now = (sessions, Some session).
Proof.
  intros Hget Hlive. unfold getSession. rewrite Hget.
  destruct (Z.gtb_spec (now - updatedAt session) TIMEOUT_MS); [lia|done].
Qed.

(** After any run of [getSession] calls, a session whose last activity
    lies more than the time-to-live back is reported absent. *)
Lemma getSession_after_gets sessions id session calls now :
  mapGet sessions id = Some session ->
  now - updatedAt session > TIMEOUT_MS ->
  (getSession (getSessions sessions calls) id now).2 = None.
Proof.
  intros Hget Hold.
  destruct (getSessions_frame calls sessions id) as [H|H].
  - unfold getSession. by rewrite H.
  - rewrite Hget in H. by erewrite getSession_expired.
Qed.

(** C6.  [getSession] returns a session only if it is stored under the
    id and the time elapsed since its [updatedAt] is at most the
    time-to-live of 30 minutes, and then leaves the store as it is.  A
    stored session whose [updatedAt] lies further back is deleted from the
    store and reported absent, whether or not it was ever deleted
    explicitly; an unknown id is reported absent. *)
Theorem getSession_expiry :
  forall (sessions : Sessions) (id : string) (now : Z),
  TIMEOUT_MS = 30 * 60 * 1000 /\
  (forall session,
     (getSession sessions id now).2 = Some session ->
     mapGet sessions id = Some session /\
     now - updatedAt session <= TIMEOUT_MS /\
     (getSession sessions id now).1 = sessions) /\
  (forall session,
     mapGet sessions id = Some session ->
     now - updatedAt session > TIMEOUT_MS ->
     getSession sessions id now = (mapDelete sessions id, None) /\
     mapGet (getSession sessions id now).1 id = None) /\
  (mapGet sessions id = None -> getSession sessions id now = (sessions, None)).
Proof.
  intros sessions id now. split_and!; [done| | |].
  - intros session. unfold getSession.
    destruct (mapGet sessions id) as [s|] eqn:Hs; [|done].
    destruct (Z.gtb_spec (now - updatedAt s) TIMEOUT_MS); [done|].
    intros [= ->]. cbn [fst]. split_and!; [done|lia|done].
  - intros session Hget Hold.
    rewrite (getSession_expired _ _ _ _ Hget Hold).
    split; [done|]. apply mapGet_mapDelete_eq.
  - intros Hnone. unfold getSession. by rewrite Hnone.
Qed.

Lemma getSession_expiry_witness :
  (getSession threeSessions (sessionName 2) (2 + TIMEOUT_MS + 1)).2 = None /\
  mapGet (getSession threeSessions (sessionName 2) (2 + TIMEOUT_MS + 1)).1
         (sessionName 2)
  = None.
Proof.
  destruct (getSession_expiry threeSessions (sessionName 2) (2 + TIMEOUT_MS + 1))
    as (_ & _ & Hexpired & _).
  assert (exists s, mapGet threeSessions (sessionName 2) = Some s /\ updatedAt s = 2)
    as (s & Hs & Hupd) by (eexists; split; vm_compute; reflexivity).
  destruct (Hexpired s Hs) as [Hget Hgone].
  - rewrite Hupd. vm_compute. reflexivity.
  - split; [|exact Hgone]. rewrite Hget. reflexivity.
Defined.

(** C10.  On a session within its time-to-live [getSession] is read-only:
    it returns the stored session and the store is unchanged, [updatedAt]
    included.  Hence no run of [getSession] calls, for whatever ids and at
    whatever times, changes what is stored under the id other than by
    expiring it, and a later [getSession] more than the time-to-live after
    [updatedAt] reports the session absent.  [updatedAt] is the time of
    the last mutation: [updateSession] stores the session with
    [updatedAt] set to its time stamp. *)
Theorem getSession_read_only :
  forall (sessions : Sessions) (id : string) (session : ConversationSession),
  mapGet sessions id = Some session ->
  (forall now,
     now - updatedAt session <= TIMEOUT_MS ->
     getSession sessions id now = (sessions, Some session)) /\
  (forall calls,
     mapGet (getSessions sessions calls) id = None \/
     mapGet (getSessions sessions calls) id = Some session) /\
  (forall calls now,
     now - updatedAt session > TIMEOUT_MS ->
     (getSession (getSessions sessions calls) id now).2 = None) /\
  (forall updates now stamp sessions' session',
     updateSession sessions id updates now stamp = (sessions', Some session') ->
     updatedAt session' = stamp /\
     mapGet sessions' id = Some session' /\
     forall calls later,
       later - stamp > TIMEOUT_MS ->
       (getSession (getSessions sessions' calls) id later).2 = None).
Proof.
  intros sessions id session Hget. split_and!.
  - intros now Hlive. by apply getSession_live.
  - intros calls. rewrite <- Hget. apply getSessions_frame.
  - intros calls now Hold. by eapply getSession_after_gets.
  - intros updates now stamp sessions' session'. unfold updateSession.
    destruct (getSession sessions id now) as [sessions1 [s|]] eqn:Hg; [|done].
    intros [= <- <-]. cbn [updatedAt].
    split_and!; [done|apply mapGet_mapSet_eq|].
    intros calls later Hold.
    eapply getSession_after_gets; [apply mapGet_mapSet_eq|]. done.
Qed.

Lemma getSession_read_only_witness :
  getSession threeSessions (sessionName 2) (2 + TIMEOUT_MS)
  = (threeSessions, mapGet threeSessions (sessionName 2)) /\
  (getSession
     (getSessions threeSessions
        [(sessionName 2, 100); (sessionName 2, 2 + TIMEOUT_MS); (sessionName 3, 5)])
     (sessionName 2) (2 + TIMEOUT_MS + 1)).2 = None.
Proof.
  assert (exists s, mapGet threeSessions (sessionName 2) = Some s /\ updatedAt s = 2)
    as (s & Hs & Hupd) by (eexists; split; vm_compute; reflexivity).
  destruct (getSession_read_only threeSessions (sessionName 2) s Hs)
    as (Hlive & _ & Hexpired & _).
  split.
  - rewrite Hs. apply Hlive. rewrite Hupd. vm_compute. discriminate.
  - apply Hexpired. rewrite Hupd. vm_compute. reflexivity.
Defined.

(** C5, as the specification states it, fails.  In a store at capacity
    whose first session has just recorded an answer, the least recently
    active session is the second one; [createSession] leaves it in the
    store and deletes the first one, the most recently active of all. *)
Lemma createSession_evicts_most_recently_active :
  mapSize busyStore = MAX_ACTIVE_SESSIONS /\
  leastRecentlyActive busyStore (sessionName 2) /\
  (updatedAt <$> mapGet busyStore (sessionName 1)) = Some 1001 /\
  (let after :=
     (createSession busyStore SYSTEM_INITIATED None
        (sessionName 1001) (messageName 1001) 1002).1 in
   is_Some (mapGet after (sessionName 2)) /\
   mapGet after (sessionName 1) = None) /\
  ~ evictsLeastRecentlyActive busyStore SYSTEM_INITIATED None
      (sessionName 1001) (messageName 1001) 1002.
Proof.
  assert (leastRecentlyActive busyStore (sessionName 2)) as Hlra.
  { assert (forallb (fun e : string * ConversationSession => 2 <=? updatedAt e.2)
              busyStore = true) as Hall by (vm_compute; reflexivity).
    rewrite forallb_forall in Hall.
    assert (exists s, mapGet busyStore (sessionName 2) = Some s /\ updatedAt s = 2)
      as (s & Hs & Hupd) by (eexists; split; vm_compute; reflexivity).
    exists s. split; [done|]. intros key' s' Hget.
    apply mapGet_elem_of, list_elem_of_In, Hall in Hget.
    cbn [snd] in Hget. rewrite Hupd. lia. }
  assert (is_Some
            (mapGet (createSession busyStore SYSTEM_INITIATED None
                       (sessionName 1001) (messageName 1001) 1002).1
                    (sessionName 2))) as Hstill
    by (eexists; vm_compute; reflexivity).
  split_and!.
  - vm_compute. reflexivity.
  - exact Hlra.
  - vm_compute. reflexivity.
  - split; [exact Hstill|]. vm_compute. reflexivity.
  - intros Hclaim.
    assert (sessionName 2 <> sessionName 1001) as Hne by (vm_compute; discriminate).
    rewrite (Hclaim (sessionName 2) Hlra Hne) in Hstill.
    by destruct Hstill.
Qed.

(** C5, amended.  When [createSession] is called while the store holds
    [MAX_ACTIVE_SESSIONS] (1000) sessions or more, the session that comes
    first in the insertion order of the store, the earliest created of
    those still stored, is deleted before the new session is stored;
    immediately afterwards the new session is in the store, and every
    other session is as it was. *)
Theorem createSession_at_capacity_evicts_first_inserted :
  forall (sessions : Sessions) (mode : ConversationMode)
         (initialMessage : option string) (uuidSession uuidMessage : string)
         (now : Z) (firstId : string) (first : ConversationSession)
         (rest : Sessions),
  sessions = (firstId, first) :: rest ->
  (MAX_ACTIVE_SESSIONS <= mapSize sessions)%nat ->
  let result :=
    createSession sessions mode initialMessage uuidSession uuidMessage now in
  MAX_ACTIVE_SESSIONS = 1000%nat /\
  result.1 = mapSet (mapDelete sessions firstId) uuidSession result.2 /\
  mapGet result.1 uuidSession = Some result.2 /\
  (firstId <> uuidSession -> mapGet result.1 firstId = None) /\
  (forall key, key <> firstId -> key <> uuidSession ->
     mapGet result.1 key = mapGet sessions key).
Proof.
  intros sessions mode initialMessage uuidSession uuidMessage now
    firstId first rest -> Hfull result.
  assert (result.1 =
          mapSet (mapDelete ((firstId, first) :: rest) firstId) uuidSession result.2)
    as Hresult.
  { subst result. unfold createSession. cbn [fst snd].
    apply Nat.leb_le in Hfull. rewrite Hfull. reflexivity. }
  split_and!; [done|done| | |].
  - rewrite Hresult. apply mapGet_mapSet_eq.
  - intros Hne. rewrite Hresult.
    rewrite mapGet_mapSet_ne by done. apply mapGet_mapDelete_eq.
  - intros key Hk1 Hk2. rewrite Hresult.
    rewrite mapGet_mapSet_ne by done. by rewrite mapGet_mapDelete_ne.
Qed.

Lemma createSession_at_capacity_evicts_first_inserted_witness :
  let result :=
    createSession busyStore USER_INITIATED (Some "Where is my order?")
      (sessionName 1001) (messageName 1001) 1002 in
  mapGet result.1 (sessionName 1001) = Some result.2 /\
  mapGet result.1 (sessionName 1) = None.
Proof.
  intros result.
  assert (exists first rest, busyStore = (sessionName 1, first) :: rest)
    as (first & rest & Hstore) by (do 2 eexists; vm_compute; reflexivity).
  assert (MAX_ACTIVE_SESSIONS <= mapSize busyStore)%nat as Hfull
    by (apply Nat.leb_le; vm_compute; reflexivity).
  destruct (createSession_at_capacity_evicts_first_inserted busyStore
              USER_INITIATED (Some "Where is my order?")
              (sessionName 1001) (messageName 1001) 1002
              (sessionName 1) first rest Hstore Hfull)
    as (_ & _ & Hnew & Hgone & _).
  split; [exact Hnew|]. apply Hgone. vm_compute. discriminate.
Defined.

(** *** Validation of answers *)

Lemma trimStart_allWhiteSpace s :
  allWhiteSpace (trimStart s) = allWhiteSpace s.
Proof.
  induction s as [|c s IH]; simpl; [done|].
  destruct (isWhiteSpace c) eqn:Hc; simpl; [done|]. by rewrite Hc.
Qed.

Lemma trimEnd_empty s :
  trimEnd s = EmptyString <-> allWhiteSpace s = true.
Proof.
  induction s as [|c s IH]; simpl; [done|].
  destruct (trimEnd s) as [|d t] eqn:Ht.
  - destruct (isWhiteSpace c); simpl; [tauto|]. split; done.
  - split; [done|]. intros [_ Hs]%andb_true_iff.
    apply IH in Hs. done.
Qed.

(** [isBlank] holds of the empty string and of the strings made of white
    space only. *)
Lemma isBlank_allWhiteSpace answer : isBlank answer = allWhiteSpace answer.
Proof.
  unfold isBlank, trim, jsLength.
  destruct (allWhiteSpace answer) eqn:Hall.
  - apply orb_true_iff. right.
    rewrite <- trimStart_allWhiteSpace in Hall. apply trimEnd_empty in Hall.
    by rewrite Hall.
  - apply orb_false_iff. split.
    + by destruct answer.
    + destruct (trimEnd (trimStart answer)) as [|c t] eqn:Ht; [|done].
      apply trimEnd_empty in Ht. rewrite trimStart_allWhiteSpace in Ht. congruence.
Qed.

Section ValidationFacts.

Variable regexTest : string -> string -> bool.

(** A rule either passes or fails with its own message. *)
Lemma validateRule_result rule answer :
  (valid (validateRule regexTest rule answer) = true /\
   validateRule regexTest rule answer = passed) \/
  (valid (validateRule regexTest rule answer) = false /\
   validateRule regexTest rule answer = failed (errorMessage rule)).
Proof.
  unfold validateRule.
  destruct (rtype rule); try (by left);
    [ destruct (isBlank answer)
    | destruct (value rule) as [[p|n]|]; try (by left);
      destruct (regexTest p answer)
    | destruct (value rule) as [[p|n]|]; try (by left);
      destruct (jsLength answer <? n)
    | destruct (value rule) as [[p|n]|]; try (by left);
      destruct (jsLength answer >? n) ];
    simpl; auto.
Qed.

Lemma validateRules_first_failure before rule after answer :
  Forall (fun r => valid (validateRule regexTest r answer) = true) before ->
  valid (validateRule regexTest rule answer) = false ->
  validateRules regexTest (before ++ rule :: after) answer
  = failed (errorMessage rule).
Proof.
  intros Hbefore Hrule.
  induction Hbefore as [|r before Hr _ IH]; simpl.
  - rewrite Hrule. simpl.
    by destruct (validateRule_result rule answer) as [[? _]|[_ ?]]; [congruence|].
  - by rewrite Hr.
Qed.

Lemma validateRules_valid rules answer :
  valid (validateRules regexTest rules answer) = true <->
  Forall (fun r => valid (validateRule regexTest r answer) = true) rules.
Proof.
  induction rules as [|r rules IH]; simpl; [done|].
  destruct (valid (validateRule regexTest r answer)) eqn:Hr; simpl.
  - rewrite IH. split; [by constructor|by inversion 1].
  - rewrite Hr. split; [done|]. inversion 1; congruence.
Qed.

(** Past the two global checks [validateAnswer] is the loop over the
    rules. *)
Lemma validateAnswer_rules question answer :
  isBlank answer = false ->
  jsLength answer <= MAX_TEXT_LENGTH ->
  validateAnswer regexTest question answer
  = validateRules regexTest (rulesOf question) answer.
Proof.
  intros Hblank Hlen. unfold validateAnswer, rulesOf. rewrite Hblank.
  destruct (Z.gtb_spec (jsLength answer) MAX_TEXT_LENGTH); [lia|].
  destruct (validationRules question) as [[|r rules]|]; done.
Qed.

End ValidationFacts.

(** The patterns of the question trees are in the fragment the engine
    of this development parses. *)
Lemma patterns_supported : patternsSupported = true.
Proof. by vm_compute. Qed.

(** Some readings of the engine on the order-number pattern. *)
Lemma order_pattern_examples :
  RegExp.exec "^ORD-[0-9]{5}$" "ORD-12345" = Some true /\
  RegExp.exec "^ORD-[0-9]{5}$" "ORD-1234" = Some false /\
  RegExp.exec "^ORD-[0-9]{5}$" "ORD-123456" = Some false /\
  RegExp.exec "^ORD-[0-9]{5}$" "ord-12345" = Some false /\
  RegExp.exec "^ORD-[0-9]{5}$" "not a number" = Some false.
Proof. by vm_compute. Qed.

(** C7.  For every question and raw answer, whatever the regular
    expression engine: an answer that is empty or white space only is
    rejected with an error; otherwise an answer of more than 1000
    characters is rejected; otherwise the rules of the question are
    applied in their declared order and the message of the first rule
    that fails is returned.  The answer is valid iff it passes the two
    global checks and every rule.  With the engine of this development,
    the answer "not a number" to the question order_status_2, whose
    pattern rule is ^ORD-[0-9]{5}$, is invalid with the message of that
    rule. *)
Theorem validateAnswer_first_failure :
  forall (regexTest : string -> string -> bool)
         (question : Question) (answer : string),
  (allWhiteSpace answer = true ->
   validateAnswer regexTest question answer = failed "Answer cannot be empty") /\
  (allWhiteSpace answer = false -> jsLength answer > 1000 ->
   validateAnswer regexTest question answer
   = failed "Answer is too long (maximum 1000 characters)") /\
  (allWhiteSpace answer = false -> jsLength answer <= 1000 ->
   forall before rule after,
     rulesOf question = (before ++ rule :: after)%list ->
     Forall (fun r => valid (validateRule regexTest r answer) = true) before ->
     valid (validateRule regexTest rule answer) = false ->
     validateAnswer regexTest question answer = failed (errorMessage rule)) /\
  (valid (validateAnswer regexTest question answer) = true <->
   allWhiteSpace answer = false /\ jsLength answer <= 1000 /\
   Forall (fun r => valid (validateRule regexTest r answer) = true)
          (rulesOf question)) /\
  (exists orderQuestion patternRule,
     getQuestion ORDER_STATUS "order_status_2" = Some orderQuestion /\
     patternRule ∈ rulesOf orderQuestion /\
     rtype patternRule = rule_pattern /\
     value patternRule = Some (VString "^ORD-[0-9]{5}$") /\
     validateAnswer RegExp.test orderQuestion "not a number"
     = failed (errorMessage patternRule)).
Proof.
  intros regexTest question answer.
  change 1000 with MAX_TEXT_LENGTH.
  rewrite <- isBlank_allWhiteSpace.
  split_and!.
  - intros Hblank. unfold validateAnswer. by rewrite Hblank.
  - intros Hblank Hlong. unfold validateAnswer. rewrite Hblank.
    destruct (Z.gtb_spec (jsLength answer) MAX_TEXT_LENGTH); [done|lia].
  - intros Hblank Hlen before rule after Hrules Hbefore Hrule.
    rewrite validateAnswer_rules, Hrules by done.
    by apply validateRules_first_failure.
  - split.
    + intros Hvalid. unfold validateAnswer in Hvalid.
      destruct (isBlank answer) eqn:Hblank; [done|].
      destruct (Z.gtb_spec (jsLength answer) MAX_TEXT_LENGTH) as [|Hlen]; [done|].
      split_and!; [done|lia|].
      apply (validateRules_valid regexTest). unfold rulesOf.
      by destruct (validationRules question) as [[|r rules]|].
    + intros (Hblank & Hlen & Hrules).
      rewrite validateAnswer_rules by done.
      by apply validateRules_valid.
  - eexists. eexists. split; [by vm_compute|].
    split; [right; left|]. by vm_compute.
Qed.

Lemma validateAnswer_first_failure_witness :
  validateAnswer RegExp.test
    {| q_id := "delivery_4";
       text := "Can you describe the damage to the package?";
       q_type := TEXT_INPUT;
       options := None;
       nextQuestionMap := None;
       validationRules :=
         Some [ {| rtype := rule_required; value := None;
                   errorMessage := "Please describe the damage" |};
                {| rtype := rule_minLength; value := Some (VNumber 10);
                   errorMessage := "Please provide more details (at least 10 characters)" |} ] |}
    "torn box"
  = failed "Please provide more details (at least 10 characters)".
Proof.
  refine (proj1 (proj2 (proj2
            (validateAnswer_first_failure RegExp.test _ "torn box")))
          _ _
          [ {| rtype := rule_required; value := None;
               errorMessage := "Please describe the damage" |} ]
          {| rtype := rule_minLength; value := Some (VNumber 10);
             errorMessage := "Please provide more details (at least 10 characters)" |}
          [] _ _ _).
  - reflexivity.
  - vm_compute. discriminate.
  - reflexivity.
  - repeat constructor.
  - reflexivity.
Defined.

(** *** Normalisation of answers *)

Lemma lowerChar_lower_letter c :
  isLowerLetter c = true -> lowerChar c = c /\ lowerChar (upperChar c) = c.
Proof.
  destruct c as [[] [] [] [] [] [] [] []]; vm_compute; by intros.
Qed.

Lemma lowerChar_inv c :
  isLowerLetter (lowerChar c) = true ->
  c = lowerChar c \/ c = upperChar (lowerChar c).
Proof.
  destruct c as [[] [] [] [] [] [] [] []]; vm_compute; intros; auto; done.
Qed.

Lemma toLowerCase_cons c s :
  toLowerCase (String c s) = String (lowerChar c) (toLowerCase s).
Proof. reflexivity. Qed.

Lemma caseVariant_toLowerCase s w :
  caseVariant s w -> allLowerLetters w = true -> toLowerCase s = w.
Proof.
  induction 1 as [|c s w _ IH|c s w Hc _ IH]; [done| |];
    rewrite toLowerCase_cons; cbn [allLowerLetters].
  - intros [Hc Hw]%andb_true_iff.
    apply lowerChar_lower_letter in Hc as [-> _]. by rewrite IH.
  - intros [_ Hw]%andb_true_iff.
    apply lowerChar_lower_letter in Hc as [_ ->]. by rewrite IH.
Qed.

Lemma toLowerCase_caseVariant s : forall w,
  allLowerLetters w = true -> toLowerCase s = w -> caseVariant s w.
Proof.
  induction s as [|c s IH]; intros w Hw <-; [constructor|].
  rewrite toLowerCase_cons in *. cbn [allLowerLetters] in Hw.
  apply andb_true_iff in Hw as [Hc Hw].
  destruct (lowerChar_inv c Hc) as [Heq|Heq].
  - rewrite <- Heq. constructor. by apply IH.
  - rewrite Heq at 1. constructor; [done|]. by apply IH.
Qed.

(** C8.  For a yes/no question, an answer that after trimming is "yes",
    "y" or "true" in any mix of upper and lower case is normalised to
    "yes", one that is "no", "n" or "false" in any mix to "no", and every
    other answer to its trimmed self.  The raw answer "YES" is normalised
    to "yes", which passes validation when the question has no rules. *)
Theorem parseUserAnswer_yes_no :
  forall (question : Question) (rawAnswer : string),
  q_type question = YES_NO ->
  ((exists w, w ∈ affirmativeWords /\ caseVariant (trim rawAnswer) w) ->
   parseUserAnswer question rawAnswer = "yes") /\
  ((exists w, w ∈ negativeWords /\ caseVariant (trim rawAnswer) w) ->
   parseUserAnswer question rawAnswer = "no") /\
  ((forall w, w ∈ (affirmativeWords ++ negativeWords)%list ->
              ~ caseVariant (trim rawAnswer) w) ->
   parseUserAnswer question rawAnswer = trim rawAnswer) /\
  parseUserAnswer question "YES" = "yes" /\
  (forall regexTest : string -> string -> bool,
     rulesOf question = [] ->
     validateAnswer regexTest question (parseUserAnswer question "YES") = passed).
Proof.
  intros question rawAnswer Htype.
  unfold parseUserAnswer. rewrite Htype.
  split_and!.
  - intros (w & Hw & Hcv).
    unfold affirmativeWords in Hw.
    repeat (apply elem_of_cons in Hw as [->|Hw]);
      [| | |by apply elem_of_nil in Hw];
      apply caseVariant_toLowerCase in Hcv as ->; done.
  - intros (w & Hw & Hcv).
    unfold negativeWords in Hw.
    repeat (apply elem_of_cons in Hw as [->|Hw]);
      [| | |by apply elem_of_nil in Hw];
      apply caseVariant_toLowerCase in Hcv as ->; done.
  - intros Hnone.
    assert (forall w, w ∈ (affirmativeWords ++ negativeWords)%list ->
                      String.eqb (toLowerCase (trim rawAnswer)) w = false) as Hne.
    { intros w Hw. apply String.eqb_neq. intros Heq.
      apply (Hnone w Hw). apply toLowerCase_caseVariant; [|done].
      unfold affirmativeWords, negativeWords in Hw. simpl in Hw.
      repeat (apply elem_of_cons in Hw as [->|Hw]); try done.
      by apply elem_of_nil in Hw. }
    rewrite !Hne; [done|..];
      unfold affirmativeWords, negativeWords; simpl;
      repeat first [by left | right].
  - done.
  - intros regexTest Hrules.
    rewrite validateAnswer_rules; [by rewrite Hrules| |]; by vm_compute.
Qed.

Lemma parseUserAnswer_yes_no_witness :
  parseUserAnswer
    {| q_id := "cancel_3";
       text := "Your order can be cancelled. Would you like to proceed with cancellation?";
       q_type := YES_NO;
       options := None;
       nextQuestionMap := None;
       validationRules := None |}
    "  tRuE "
  = "yes".
Proof.
  refine (proj1 (parseUserAnswer_yes_no _ "  tRuE " _) _); [reflexivity|].
  exists "true". split.
  - right; right; left.
  - change (trim "  tRuE ") with "tRuE".
    apply cv_same.
    apply (cv_upper "r"); [reflexivity|].
    apply cv_same.
    apply (cv_upper "e"); [reflexivity|].
    apply cv_empty.
Defined.

(** *** The session store: capacity, mutation and clean-up *)

Lemma mapSize_mapSet sessions key v :
  (mapSize (mapSet sessions key v) <= S (mapSize sessions))%nat.
Proof.
  unfold mapSize. induction sessions as [|[k w] rest IH]; simpl; [lia|].
  destruct (String.eqb k key); simpl; lia.
Qed.

Lemma mapSize_mapDelete sessions key :
  (mapSize (mapDelete sessions key) <= mapSize sessions)%nat.
Proof.
  unfold mapSize. induction sessions as [|[k w] rest IH]; simpl; [lia|].
  destruct (String.eqb k key); simpl; lia.
Qed.

Lemma mapKeys_mapSet_present sessions key v :
  is_Some (mapGet sessions key) -> mapKeys (mapSet sessions key v) = mapKeys sessions.
Proof.
  induction sessions as [|[k w] rest IH]; simpl.
  - by intros [? ?].
  - destruct (String.eqb k key); simpl; [done|]. intros H. by rewrite IH.
Qed.

Lemma getSession_Some_inv sessions id now sessions1 session :
  getSession sessions id now = (sessions1, Some session) ->
  sessions1 = sessions /\ mapGet sessions id = Some session /\
  now - updatedAt session <= TIMEOUT_MS.
Proof.
  unfold getSession.
  destruct (mapGet sessions id) as [s|]; [|done].
  destruct (Z.gtb_spec (now - updatedAt s) TIMEOUT_MS); [done|].
  intros [= <- <-]. split_and!; [done|done|lia].
Qed.

Lemma getSession_None_inv sessions id now sessions1 :
  getSession sessions id now = (sessions1, None) ->
  mapGet sessions1 id = None /\
  (forall key, key <> id -> mapGet sessions1 key = mapGet sessions key).
Proof.
  unfold getSession.
  destruct (mapGet sessions id) as [s|] eqn:Hs.
  - destruct (now - updatedAt s >? TIMEOUT_MS); [|done].
    intros [= <-]. split; [apply mapGet_mapDelete_eq|].
    intros key Hne. by apply mapGet_mapDelete_ne.
  - by intros [= <-].
Qed.

(** Each mutator is [storeUpdated] with its own change. *)
Lemma mutate_storeUpdated sessions id m now stamp :
  mutate sessions id m now stamp = storeUpdated sessions id now (applied m stamp).
Proof.
  destruct m; simpl;
    unfold updateSession, addMessage, addAnswer, markSessionResolved, storeUpdated;
    by destruct (getSession sessions id now) as [sessions1 [s|]].
Qed.

Lemma applied_updatedAt m stamp session : updatedAt (applied m stamp session) = stamp.
Proof. by destruct m. Qed.

Lemma mutate_Some_inv sessions id m now stamp sessions' session' :
  mutate sessions id m now stamp = (sessions', Some session') ->
  exists old,
    mapGet sessions id = Some old /\
    now - updatedAt old <= TIMEOUT_MS /\
    session' = applied m stamp old /\
    sessions' = mapSet sessions id session'.
Proof.
  rewrite mutate_storeUpdated. unfold storeUpdated.
  destruct (getSession sessions id now) as [sessions1 [s|]] eqn:Hget; [|done].
  apply getSession_Some_inv in Hget as (-> & Hs & Hlive).
  intros [= <- <-]. by exists s.
Qed.

(** X1.  [createSession] never lets a store that holds at most
    [MAX_ACTIVE_SESSIONS] sessions grow beyond that number, and below
    capacity it evicts nothing: every session stored under another id
    is still there, unchanged. *)
Theorem createSession_within_capacity :
  forall (sessions : Sessions) (mode : ConversationMode)
         (initialMessage : option string) (uuidSession uuidMessage : string)
         (now : Z),
  (mapSize sessions <= MAX_ACTIVE_SESSIONS)%nat ->
  let result :=
    createSession sessions mode initialMessage uuidSession uuidMessage now in
  (mapSize result.1 <= MAX_ACTIVE_SESSIONS)%nat /\
  ((mapSize sessions < MAX_ACTIVE_SESSIONS)%nat ->
   forall key, key <> uuidSession -> mapGet result.1 key = mapGet sessions key).
Proof.
  intros sessions mode initialMessage uuidSession uuidMessage now Hsize result.
  subst result. unfold createSession. cbn [fst].
  destruct (Nat.leb_spec MAX_ACTIVE_SESSIONS (mapSize sessions)) as [Hfull|Hroom].
  - split; [|lia].
    destruct sessions as [|[k w] rest]; [cbn in Hfull; unfold MAX_ACTIVE_SESSIONS in Hfull; lia|].
    cbn [mapKeys map fst mapDelete]. rewrite String.eqb_refl.
    etrans; [apply mapSize_mapSet|].
    pose proof (mapSize_mapDelete rest k) as Hdel.
    unfold mapSize in *. cbn [length] in Hsize. lia.
  - split.
    + etrans; [apply mapSize_mapSet|]. lia.
    + intros _ key Hne. by apply mapGet_mapSet_ne.
Qed.

Lemma createSession_within_capacity_witness :
  (mapSize
     (createSession threeSessions SYSTEM_INITIATED None
        (sessionName 4) (messageName 4) 4).1
   <= MAX_ACTIVE_SESSIONS)%nat.
Proof.
  refine (proj1 (createSession_within_capacity threeSessions SYSTEM_INITIATED None
                   (sessionName 4) (messageName 4) 4 _)).
  apply Nat.leb_le. vm_compute. reflexivity.
Defined.

(** X2.  When [addMessage] succeeds, the new message is the last of the
    history.  Below [MAX_MESSAGES] (100) stored messages the history
    only grows by it; from 100 on, the last 50 are kept and the new one
    is added, which gives 51.  A history of at most 100 messages
    therefore never exceeds 100. *)
Theorem addMessage_history_bounded :
  forall (sessions : Sessions) (id : string) (r : Role) (body : string)
         (meta : option (gmap string string)) (uuidMessage : string)
         (now stampMessage stamp : Z)
         (sessions' : Sessions) (session' : ConversationSession),
  addMessage sessions id r body meta uuidMessage now stampMessage stamp
  = (sessions', Some session') ->
  exists old,
    let msg := {| m_id := uuidMessage; role := r; content := body;
                  timestamp := stampMessage; metadata := meta |} in
    let before := conversationHistory old in
    let after := conversationHistory session' in
    mapGet sessions id = Some old /\
    mapGet sessions' id = Some session' /\
    last after = Some msg /\
    ((length before < MAX_MESSAGES)%nat -> after = (before ++ [msg])%list) /\
    ((MAX_MESSAGES <= length before)%nat ->
     after = (drop (length before - 50) before ++ [msg])%list /\
     length after = 51%nat) /\
    ((length before <= MAX_MESSAGES)%nat -> (length after <= MAX_MESSAGES)%nat).
Proof.
  intros sessions id r body meta uuidMessage now stampMessage stamp
    sessions' session' Hadd.
  apply (mutate_Some_inv sessions id (AppendMessage r body meta uuidMessage stampMessage))
    in Hadd as (old & Hold & _ & -> & ->).
  exists old. cbn zeta. split_and!; [done|apply mapGet_mapSet_eq|..];
    cbn [applied withMessage withHistory conversationHistory].
  - apply last_snoc.
  - intros Hlt. by destruct (Nat.leb_spec MAX_MESSAGES (length (conversationHistory old)));
      [lia|].
  - intros Hge.
    destruct (Nat.leb_spec MAX_MESSAGES (length (conversationHistory old))); [|lia].
    split; [done|]. unfold lastFifty.
    rewrite length_app, length_drop. cbn [length].
    unfold MAX_MESSAGES in Hge. lia.
  - intros Hle.
    destruct (Nat.leb_spec MAX_MESSAGES (length (conversationHistory old))).
    + unfold lastFifty. rewrite length_app, length_drop. cbn [length].
      unfold MAX_MESSAGES in *. lia.
    + rewrite length_app. cbn [length]. lia.
Qed.

Lemma addMessage_history_bounded_witness :
  exists session',
    (addMessage threeSessions (sessionName 2) assistant "Which order is it?" None
       (messageName 9) 10 11 12).2 = Some session' /\
    length (conversationHistory session') = 2%nat.
Proof.
  destruct (addMessage threeSessions (sessionName 2) assistant "Which order is it?"
              None (messageName 9) 10 11 12) as [sessions' [session'|]] eqn:Hadd;
    [|vm_compute in Hadd; discriminate].
  exists session'. split; [reflexivity|].
  destruct (addMessage_history_bounded _ _ _ _ _ _ _ _ _ _ _ Hadd)
    as (old & Hold & _ & _ & Hgrow & _).
  assert (mapGet threeSessions (sessionName 2) = Some old ->
          length (conversationHistory old) = 1%nat) as Hone.
  { intros H. vm_compute in H. injection H as <-. reflexivity. }
  cbn zeta in Hgrow. rewrite Hgrow.
  - rewrite length_app, (Hone Hold). reflexivity.
  - rewrite (Hone Hold). unfold MAX_MESSAGES. lia.
Defined.



(** X4.  A mutator that succeeds ([updateSession], [addMessage],
    [addAnswer], [markSessionResolved]) leaves the insertion order of
    the store as it was: the keys of the [Map] and their order do not
    change, so activity never moves a session away from the front, where
    [createSession] evicts. *)
Theorem mutation_keeps_insertion_order :
  forall (sessions : Sessions) (id : string) (m : Mutation) (now stamp : Z),
  is_Some (mutate sessions id m now stamp).2 ->
  mapKeys (mutate sessions id m now stamp).1 = mapKeys sessions.
Proof.
  intros sessions id m now stamp [session' Hsome].
  destruct (mutate sessions id m now stamp) as [sessions' o] eqn:Hm.
  cbn [snd] in Hsome. subst o.
  apply mutate_Some_inv in Hm as (old & Hold & _ & _ & ->).
  cbn [fst]. apply mapKeys_mapSet_present. by rewrite Hold.
Qed.

Lemma mutation_keeps_insertion_order_witness :
  mapKeys (markSessionResolved threeSessions (sessionName 1) None 7 8).1
  = mapKeys threeSessions.
Proof.
  apply (mutation_keeps_insertion_order threeSessions (sessionName 1)
           (MarkResolved None) 7 8).
  eexists. vm_compute. reflexivity.
Defined.

(** X5.  A mutator called for an id that [getSession] reports absent
    (unknown, or expired at that moment) returns nothing and stores
    nothing under the id: it never creates or revives a session, and an
    expired session is gone afterwards.  The other sessions are as
    before. *)
Theorem mutation_of_absent_session :
  forall (sessions : Sessions) (id : string) (m : Mutation) (now stamp : Z),
  (getSession sessions id now).2 = None ->
  (mutate sessions id m now stamp).2 = None /\
  mapGet (mutate sessions id m now stamp).1 id = None /\
  (forall key, key <> id ->
     mapGet (mutate sessions id m now stamp).1 key = mapGet sessions key).
Proof.
  intros sessions id m now stamp Habsent.
  rewrite mutate_storeUpdated. unfold storeUpdated.
  destruct (getSession sessions id now) as [sessions1 [s|]] eqn:Hget; [done|].
  apply getSession_None_inv in Hget as [Hgone Hframe]. by cbn [fst snd].
Qed.

Lemma mutation_of_absent_session_witness :
  (addAnswer threeSessions (sessionName 2) "delivery_1" "Package is damaged"
     (2 + TIMEOUT_MS + 1) (2 + TIMEOUT_MS + 1)).2 = None /\
  mapGet
    (addAnswer threeSessions (sessionName 2) "delivery_1" "Package is damaged"
       (2 + TIMEOUT_MS + 1) (2 + TIMEOUT_MS + 1)).1 (sessionName 2) = None.
Proof.
  destruct (mutation_of_absent_session threeSessions (sessionName 2)
              (RecordAnswer "delivery_1" "Package is damaged")
              (2 + TIMEOUT_MS + 1) (2 + TIMEOUT_MS + 1)) as (H1 & H2 & _).
  - vm_compute. reflexivity.
  - split; [exact H1|exact H2].
Defined.

(** X6.  A mutator that succeeds restarts the time-to-live: until
    [TIMEOUT_MS] after its time stamp, [getSession] returns exactly the
    session the mutator returned and leaves the store alone. *)
Theorem mutation_restarts_lifetime :
  forall (sessions : Sessions) (id : string) (m : Mutation) (now stamp : Z)
         (sessions' : Sessions) (session' : ConversationSession) (later : Z),
  mutate sessions id m now stamp = (sessions', Some session') ->
  later - stamp <= TIMEOUT_MS ->
  getSession sessions' id later = (sessions', Some session').
Proof.
  intros sessions id m now stamp sessions' session' later Hm Hlater.
  apply mutate_Some_inv in Hm as (old & _ & _ & -> & ->).
  apply getSession_live; [apply mapGet_mapSet_eq|].
  by rewrite applied_updatedAt.
Qed.

Lemma mutation_restarts_lifetime_witness :
  exists sessions' session',
    addAnswer threeSessions (sessionName 1) "cancel_1" "no" TIMEOUT_MS (TIMEOUT_MS + 1)
    = (sessions', Some session') /\
    getSession sessions' (sessionName 1) (2 * TIMEOUT_MS)
    = (sessions', Some session').
Proof.
  destruct (addAnswer threeSessions (sessionName 1) "cancel_1" "no"
              TIMEOUT_MS (TIMEOUT_MS + 1)) as [sessions' [session'|]] eqn:Hadd;
    [|vm_compute in Hadd; discriminate].
  exists sessions', session'. split; [reflexivity|].
  apply (mutation_restarts_lifetime threeSessions (sessionName 1)
           (RecordAnswer "cancel_1" "no") TIMEOUT_MS (TIMEOUT_MS + 1));
    [exact Hadd|vm_compute; discriminate].
Defined.

Lemma mapGet_not_key sessions key :
  key ∉ mapKeys sessions -> mapGet sessions key = None.
Proof.
  induction sessions as [|[k w] rest IH]; simpl; [done|].
  intros Hnot. destruct (String.eqb_spec k key) as [->|Hne].
  - destruct Hnot. left.
  - apply IH. intros Hin. apply Hnot. by right.
Qed.

Lemma mapKeys_cleanup sessions now key :
  key ∈ mapKeys (cleanupExpiredSessions sessions now) -> key ∈ mapKeys sessions.
Proof.
  unfold cleanupExpiredSessions, mapKeys.
  intros ([k s] & -> & [_ Hin]%list_elem_of_filter)%list_elem_of_fmap.
  apply list_elem_of_fmap. by exists (k, s).
Qed.

Lemma mapGet_cleanup sessions now key :
  wellFormed sessions ->
  mapGet (cleanupExpiredSessions sessions now) key
  = match mapGet sessions key with
    | Some s => if now - updatedAt s >? TIMEOUT_MS then None else Some s
    | None => None
    end.
Proof.
  unfold wellFormed.
  induction sessions as [|[k w] rest IH]; [done|].
  intros Hnd. apply NoDup_cons in Hnd as [Hk Hrest].
  change (k ∉ mapKeys rest) in Hk. change (NoDup (mapKeys rest)) in Hrest.
  specialize (IH Hrest). unfold cleanupExpiredSessions in *.
  cbn [mapGet].
  destruct (Z.gtb_spec (now - updatedAt w) TIMEOUT_MS) as [Hold|Hlive].
  - rewrite filter_cons_False by (cbn [snd]; lia).
    destruct (String.eqb_spec k key) as [->|Hne]; [|exact IH].
    destruct (Z.gtb_spec (now - updatedAt w) TIMEOUT_MS); [|lia].
    apply mapGet_not_key. intros Hin. by apply mapKeys_cleanup in Hin.
  - rewrite filter_cons_True by (cbn [snd]; lia). cbn [mapGet].
    destruct (String.eqb_spec k key) as [->|Hne]; [|exact IH].
    destruct (Z.gtb_spec (now - updatedAt w) TIMEOUT_MS); [lia|done].
Qed.

Lemma wellFormed_cleanup sessions now :
  wellFormed sessions -> wellFormed (cleanupExpiredSessions sessions now).
Proof.
  unfold wellFormed.
  induction sessions as [|[k w] rest IH]; [done|].
  intros Hnd. apply NoDup_cons in Hnd as [Hk Hrest].
  change (k ∉ mapKeys rest) in Hk. change (NoDup (mapKeys rest)) in Hrest.
  specialize (IH Hrest).
  pose proof (mapKeys_cleanup rest now k) as Hsub.
  unfold cleanupExpiredSessions in *.
  destruct (decide (¬ now - updatedAt w > TIMEOUT_MS)) as [Hlive|Hold].
  - rewrite filter_cons_True by done.
    change (NoDup (k :: mapKeys (filter
              (fun entry : string * ConversationSession =>
                 ¬ now - updatedAt entry.2 > TIMEOUT_MS) rest))).
    apply NoDup_cons. split; [|exact IH]. intros Hin. by apply Hsub in Hin.
  - rewrite filter_cons_False by done. exact IH.
Qed.

(** X7.  The periodic clean-up removes exactly the sessions that
    [getSession] would report expired at that moment: a session is in
    the cleaned store iff it was stored and the time since its
    [updatedAt] is at most [TIMEOUT_MS], and then it is unchanged.  A
    [getSession] at the time of the clean-up gives the same answer
    before and after it. *)
Theorem cleanupExpiredSessions_removes_expired_only :
  forall (sessions : Sessions) (now : Z),
  wellFormed sessions ->
  let cleaned := cleanupExpiredSessions sessions now in
  (forall key session,
     mapGet cleaned key = Some session <->
     mapGet sessions key = Some session /\ now - updatedAt session <= TIMEOUT_MS) /\
  (forall key, (getSession cleaned key now).2 = (getSession sessions key now).2) /\
  wellFormed cleaned.
Proof.
  intros sessions now Hwf cleaned. subst cleaned. split_and!.
  - intros key session. rewrite mapGet_cleanup by done.
    destruct (mapGet sessions key) as [s|]; [|by split; [|intros [? _]]].
    destruct (Z.gtb_spec (now - updatedAt s) TIMEOUT_MS).
    + split; [done|]. intros [[= ->] ?]. lia.
    + split; [intros [= ->]; split; [done|lia]|by intros [? _]].
  - intros key. unfold getSession. rewrite mapGet_cleanup by done.
    destruct (mapGet sessions key) as [s|]; [|done].
    destruct (now - updatedAt s >? TIMEOUT_MS) eqn:Hold; [done|].
    by rewrite Hold.
  - by apply wellFormed_cleanup.
Qed.

Lemma cleanupExpiredSessions_removes_expired_only_witness :
  mapKeys (cleanupExpiredSessions threeSessions (2 + TIMEOUT_MS))
  = [sessionName 2; sessionName 3] /\
  (getSession (cleanupExpiredSessions threeSessions (2 + TIMEOUT_MS))
     (sessionName 1) (2 + TIMEOUT_MS)).2
  = (getSession threeSessions (sessionName 1) (2 + TIMEOUT_MS)).2.
Proof.
  split; [vm_compute; reflexivity|].
  apply (cleanupExpiredSessions_removes_expired_only threeSessions (2 + TIMEOUT_MS)
           threeSessions_wellFormed).
Defined.

(** X8.  [deleteSession] reports [true] exactly when a session was
    stored under the id, whether or not it had expired.  Afterwards
    [getSession] and every mutator report the id absent at any time, a
    second [deleteSession] reports [false], and the other sessions are
    untouched. *)
Theorem deleteSession_removes :
  forall (sessions : Sessions) (id : string),
  let result := deleteSession sessions id in
  (result.2 = true <-> is_Some (mapGet sessions id)) /\
  (forall now, getSession result.1 id now = (result.1, None)) /\
  (forall m now stamp, (mutate result.1 id m now stamp).2 = None) /\
  (deleteSession result.1 id).2 = false /\
  (forall key, key <> id -> mapGet result.1 key = mapGet sessions key).
Proof.
  intros sessions id result. subst result. unfold deleteSession. cbn [fst snd].
  assert (forall now,
            getSession (mapDelete sessions id) id now = (mapDelete sessions id, None))
    as Hget.
  { intros now. unfold getSession. by rewrite mapGet_mapDelete_eq. }
  split_and!.
  - apply bool_decide_eq_true.
  - exact Hget.
  - intros m now stamp. rewrite mutate_storeUpdated. unfold storeUpdated.
    by rewrite Hget.
  - apply bool_decide_eq_false. rewrite mapGet_mapDelete_eq. by intros [? ?].
  - intros key Hne. by apply mapGet_mapDelete_ne.
Qed.

(** X9.  No mutator looks at the [resolved] flag: on a resolved session
    that has not expired, [addMessage], [addAnswer] and
    [markSessionResolved] still succeed, and the session they store is
    still resolved; only [markSessionResolved] changes the resolution. *)
Theorem resolved_session_still_mutable :
  forall (sessions : Sessions) (id : string) (old : ConversationSession)
         (m : Mutation) (now stamp : Z),
  mapGet sessions id = Some old ->
  resolved old = true ->
  now - updatedAt old <= TIMEOUT_MS ->
  (forall updates, m <> Update updates) ->
  exists session',
    mutate sessions id m now stamp
    = (mapSet sessions id session', Some session') /\
    resolved session' = true /\
    resolution session'
    = match m with
      | MarkResolved res => res
      | _ => resolution old
      end.
Proof.
  intros sessions id old m now stamp Hold Hres Hlive Hm.
  exists (applied m stamp old). split.
  - rewrite mutate_storeUpdated. unfold storeUpdated.
    by rewrite (getSession_live _ _ _ _ Hold Hlive).
  - destruct m as [updates| | |]; [by destruct (Hm updates)|..]; by cbn.
Qed.

Lemma resolved_session_still_mutable_witness :
  exists sessions1 resolvedSession session',
    markSessionResolved threeSessions (sessionName 3) None 10 11
    = (sessions1, Some resolvedSession) /\
    addAnswer sessions1 (sessionName 3) "cancel_1" "yes" 12 13
    = (mapSet sessions1 (sessionName 3) session', Some session') /\
    resolved session' = true.
Proof.
  destruct (markSessionResolved threeSessions (sessionName 3) None 10 11)
    as [sessions1 [resolvedSession|]] eqn:Hmark; [|vm_compute in Hmark; discriminate].
  assert (mapGet sessions1 (sessionName 3) = Some resolvedSession /\
          resolved resolvedSession = true /\ updatedAt resolvedSession = 11)
    as (Hget & Hres & Hupd).
  { vm_compute in Hmark. injection Hmark as <- <-. by vm_compute. }
  destruct (resolved_session_still_mutable sessions1 (sessionName 3) resolvedSession
              (RecordAnswer "cancel_1" "yes") 12 13 Hget Hres)
    as (session' & Hadd & Hstill & _).
  - rewrite Hupd. vm_compute. discriminate.
  - intros updates. discriminate.
  - exists sessions1, resolvedSession, session'. by split_and!.
Defined.

(** *** Integrity of the question trees and navigation *)

Lemma declared_lookup category id q :
  getQuestion category id = Some q <-> In (id, q) (declaredQuestions category).
Proof.
  unfold getQuestion, declaredQuestions.
  by rewrite <- list_elem_of_In, elem_of_map_to_list.
Qed.

Lemma getNextQuestionId_successor category current answer next :
  getNextQuestionId category current answer = Own next ->
  exists q edges,
    getQuestion category current = Some q /\
    nextQuestionMap q = Some edges /\
    edges !! answer = Some next /\
    In next (successors q).
Proof.
  unfold getNextQuestionId.
  destruct (getQuestion category current) as [q|] eqn:Hq; [|done].
  destruct (nextQuestionMap q) as [edges|] eqn:Hm; [|done].
  intros Hnext%getProperty_Own. exists q, edges. split_and!; [done..|].
  unfold successors. rewrite Hm. apply list_elem_of_In, list_elem_of_fmap.
  exists (answer, next). split; [done|]. by apply elem_of_map_to_list.
Qed.

Lemma treesIntact_holds : treesIntact = true.
Proof. by vm_compute. Qed.

Lemma declared_question_intact category id q :
  getQuestion category id = Some q ->
  q_id q = id /\
  forall next, In next (successors q) ->
    next <> EmptyString /\
    exists q', getQuestion category next = Some q' /\ q_id q' = next.
Proof.
  intros Hq. apply declared_lookup in Hq.
  pose proof treesIntact_holds as Hall. unfold treesIntact in Hall.
  rewrite forallb_forall in Hall.
  specialize (Hall category (all_categories_complete category)).
  rewrite forallb_forall in Hall. specialize (Hall _ Hq). cbn [fst snd] in Hall.
  apply andb_true_iff in Hall as [Hid Hsucc].
  split; [by apply String.eqb_eq|].
  intros next Hnext. rewrite forallb_forall in Hsucc.
  specialize (Hsucc next Hnext). cbv beta in Hsucc.
  apply andb_true_iff in Hsucc as [Hne Hex].
  split.
  - intros ->. done.
  - destruct (getQuestion category next) as [q'|]; [|done].
    exists q'. split; [done|]. by apply String.eqb_eq.
Qed.

Lemma questionLookupsOwn_holds : questionLookupsOwn = true.
Proof. by vm_compute. Qed.

(** Where a question is looked up and what is found is used as a
    question, the id names no inherited property, so that
    [tree.questions[id]] is the declared question or [undefined], as
    [getQuestion] has it. *)
Lemma getQuestion_lookups_own cat :
  isInherited (rootQuestionId (QUESTION_TREES cat)) = false /\
  (forall current answer next,
     getNextQuestionId cat current answer = Own next ->
     isInherited next = false) /\
  (forall name, isInherited name = true ->
                isInherited (inheritedKey name) = false).
Proof.
  pose proof questionLookupsOwn_holds as Hall. unfold questionLookupsOwn in Hall.
  apply andb_true_iff in Hall as [Hcats Hkeys].
  rewrite forallb_forall in Hcats, Hkeys.
  specialize (Hcats cat (all_categories_complete cat)).
  apply andb_true_iff in Hcats as [Hroot Hids].
  rewrite forallb_forall in Hids.
  split_and!.
  - by apply negb_true_iff in Hroot.
  - intros current answer next
      (q & edges & Hq & _ & _ & Hin)%getNextQuestionId_successor.
    destruct (declared_question_intact _ _ _ Hq) as [_ Hsucc].
    destruct (Hsucc next Hin) as (_ & q' & Hq'%declared_lookup & _).
    specialize (Hids _ Hq'). by apply negb_true_iff in Hids.
  - intros name Hname%isInherited_In. specialize (Hkeys name Hname).
    by apply negb_true_iff in Hkeys.
Qed.

(** X10.  [getFirstQuestion] never throws: for every category the root
    id of the tree is the id of a declared question, which is what the
    function returns. *)
Theorem getFirstQuestion_returns_root :
  forall category : IssueCategory,
  exists question,
    getFirstQuestion category = inl question /\
    q_id question = rootQuestionId (QUESTION_TREES category) /\
    getQuestion category (q_id question) = Some question.
Proof.
  intros category. unfold getFirstQuestion, getQuestionTree.
  destruct (getQuestion category (rootQuestionId (QUESTION_TREES category)))
    as [q|] eqn:Hq.
  - exists q. destruct (declared_question_intact _ _ _ Hq) as [Hid _].
    split_and!; [done|done|]. by rewrite Hid.
  - destruct category; vm_compute in Hq; discriminate.
Qed.

(** X11.  The trees have no dangling edge: whenever [getNextQuestionId]
    yields a question id, [getNextQuestion] yields the declared question
    with that id, and when it yields [undefined] there is no next
    question.  The branch of [getNextQuestion] for a missing question is
    taken in one case only, an answer that names an inherited property,
    given at a question that has edges: what [getNextQuestionId] yields
    then is no question id, [getNextQuestion] returns nothing, and
    [shouldProceedToResolution] says no all the same.
    [shouldProceedToResolution] says yes exactly when the session has a
    category and [getNextQuestionId] yields [undefined]. *)
Theorem getNextQuestion_follows_edge :
  forall (cat : IssueCategory) (current answer : string),
  (forall next,
     getNextQuestionId cat current answer = Own next ->
     exists question,
       getNextQuestion cat current answer = Some question /\
       q_id question = next /\
       getQuestion cat next = Some question) /\
  (getNextQuestionId cat current answer = Undefined ->
   getNextQuestion cat current answer = None) /\
  (forall name,
     getNextQuestionId cat current answer = Inherited name ->
     name = answer /\ isInherited answer = true /\
     is_Some (getQuestion cat current) /\
     getQuestion cat (inheritedKey name) = None /\
     getNextQuestion cat current answer = None /\
     forall session question,
       category session = Some cat ->
       q_id question = current ->
       shouldProceedToResolution session question answer = false) /\
  (forall session question,
     category session = Some cat ->
     q_id question = current ->
     (shouldProceedToResolution session question answer = true <->
      getNextQuestionId cat current answer = Undefined)) /\
  (forall session question,
     category session = None ->
     shouldProceedToResolution session question answer = false).
Proof.
  intros cat current answer.
  assert (forall next,
            getNextQuestionId cat current answer = Own next ->
            next <> EmptyString /\
            exists q', getQuestion cat next = Some q' /\ q_id q' = next) as Hedge.
  { intros next (q & edges & Hq & _ & _ & Hin)%getNextQuestionId_successor.
    by apply (declared_question_intact _ _ _ Hq). }
  split_and!.
  - intros next Hnext. destruct (Hedge next Hnext) as (Hne & q' & Hq' & Hid).
    exists q'. split_and!; [|done..].
    unfold getNextQuestion. rewrite Hnext.
    by apply String.eqb_neq in Hne as ->.
  - intros Hnone. unfold getNextQuestion. by rewrite Hnone.
  - intros name Hnext.
    destruct (getNextQuestionId_inherited _ _ _ _ Hnext) as (-> & Hinh & Hdeep).
    pose proof (inheritedKey_undeclared cat answer Hinh) as Hkey.
    split_and!; [done|done| |done| |].
    + apply height_positive_is_question. lia.
    + unfold getNextQuestion. by rewrite Hnext.
    + intros session question Hcat <-. unfold shouldProceedToResolution.
      by rewrite Hcat, Hnext.
  - intros session question Hcat <-.
    unfold shouldProceedToResolution. rewrite Hcat.
    destruct (getNextQuestionId cat (q_id question) answer) as [next|name|] eqn:Hnext;
      [|done..].
    destruct (Hedge next eq_refl) as (Hne & _).
    apply String.eqb_neq in Hne. by rewrite Hne.
  - intros session question Hcat. unfold shouldProceedToResolution. by rewrite Hcat.
Qed.

Lemma getNextQuestion_follows_edge_witness :
  (exists question,
     getNextQuestion REFUND_REQUEST "refund_2" "no" = Some question /\
     q_id question = "refund_2b") /\
  getNextQuestionId REFUND_REQUEST "refund_2" "constructor" = Inherited "constructor" /\
  getNextQuestion REFUND_REQUEST "refund_2" "constructor" = None.
Proof.
  split; [|split; [reflexivity|]].
  - destruct (proj1 (getNextQuestion_follows_edge REFUND_REQUEST "refund_2" "no")
                "refund_2b") as (question & Hnext & Hid & _).
    + reflexivity.
    + by exists question.
  - destruct (proj1 (proj2 (proj2
                (getNextQuestion_follows_edge REFUND_REQUEST "refund_2" "constructor")))
                "constructor") as (_ & _ & _ & _ & Hnone & _).
    + reflexivity.
    + exact Hnone.
Defined.

Lemma edgesMatchOptions_holds : edgesMatchOptions = true.
Proof. by vm_compute. Qed.

Lemma sameElements_In l1 l2 x :
  sameElements l1 l2 = true -> (In x l1 <-> In x l2).
Proof.
  unfold sameElements. intros [H1 H2]%andb_true_iff.
  rewrite forallb_forall in H1, H2. split; intros Hin.
  - by apply existsb_eqb_In, H1.
  - by apply existsb_eqb_In, H2.
Qed.

Lemma lookup_is_key (edges : gmap string string) answer :
  is_Some (edges !! answer) <-> In answer (map_to_list edges).*1.
Proof.
  rewrite <- list_elem_of_In, list_elem_of_fmap. split.
  - intros [next Hnext]. exists (answer, next). split; [done|].
    by apply elem_of_map_to_list.
  - intros ([a next] & -> & Hin). exists next. by apply elem_of_map_to_list.
Qed.

Lemma declared_edges cat id question edges :
  getQuestion cat id = Some question ->
  nextQuestionMap question = Some edges ->
  match q_type question with
  | SINGLE_CHOICE =>
      sameElements (map_to_list edges).*1 (default [] (options question)) = true
  | YES_NO => sameElements (map_to_list edges).*1 ["yes"; "no"] = true
  | _ => False
  end.
Proof.
  intros Hq Hedges.
  pose proof edgesMatchOptions_holds as Hall. unfold edgesMatchOptions in Hall.
  rewrite forallb_forall in Hall.
  specialize (Hall cat (all_categories_complete cat)).
  rewrite forallb_forall in Hall.
  apply declared_lookup in Hq. specialize (Hall _ Hq). cbn [fst snd] in Hall.
  rewrite Hedges in Hall. by destruct (q_type question).
Qed.

Lemma edgeKeysOwn_holds : edgeKeysOwn = true.
Proof. by vm_compute. Qed.

(** An answer that has an edge names no inherited property. *)
Lemma declared_edge_keys_own cat id question edges answer :
  getQuestion cat id = Some question ->
  nextQuestionMap question = Some edges ->
  is_Some (edges !! answer) ->
  isInherited answer = false.
Proof.
  intros Hq Hedges Hkey%lookup_is_key.
  pose proof edgeKeysOwn_holds as Hall. unfold edgeKeysOwn in Hall.
  rewrite forallb_forall in Hall.
  specialize (Hall cat (all_categories_complete cat)).
  rewrite forallb_forall in Hall.
  apply declared_lookup in Hq. specialize (Hall _ Hq). cbn [fst snd] in Hall.
  rewrite Hedges, forallb_forall in Hall. specialize (Hall _ Hkey).
  by apply negb_true_iff in Hall.
Qed.

Lemma getNextQuestionId_Own_edge cat id question edges answer :
  getQuestion cat id = Some question ->
  nextQuestionMap question = Some edges ->
  (exists next, getNextQuestionId cat id answer = Own next) <->
  is_Some (edges !! answer).
Proof.
  intros Hq Hedges. unfold getNextQuestionId. rewrite Hq, Hedges. split.
  - intros [next Hnext%getProperty_Own]. by exists next.
  - intros [next Hnext]. exists next. by apply getProperty_Own.
Qed.

(** X12.  In the declared trees only single-choice and yes/no questions
    have edges, and an answer has an edge exactly when it is one of the
    options of the single-choice question, or "yes" or "no" for the
    yes/no question.  Every option of a branching question thus leads
    on.  Of the other answers, those that name an inherited property
    yield that property, which is neither a question id nor [undefined],
    and all the rest yield [undefined], which ends the tree. *)
Theorem edges_are_the_options :
  forall (cat : IssueCategory) (id : string) (question : Question) (answer : string),
  getQuestion cat id = Some question ->
  is_Some (nextQuestionMap question) ->
  let isOption :=
    (q_type question = SINGLE_CHOICE /\ In answer (default [] (options question))) \/
    (q_type question = YES_NO /\ (answer = "yes" \/ answer = "no")) in
  ((exists next, getNextQuestionId cat id answer = Own next) <-> isOption) /\
  (getNextQuestionId cat id answer = Inherited answer <->
   isInherited answer = true) /\
  (getNextQuestionId cat id answer = Undefined <->
   ~ isOption /\ isInherited answer = false) /\
  (isOption -> isInherited answer = false).
Proof.
  intros cat id question answer Hq [edges Hedges] isOption.
  pose proof (declared_edges _ _ _ _ Hq Hedges) as Hall.
  assert (is_Some (edges !! answer) <-> isOption) as Hkey.
  { subst isOption. rewrite lookup_is_key.
    destruct (q_type question); try done.
    - rewrite (sameElements_In _ _ answer Hall). split; [by left|].
      by intros [[_ ?]|[? _]].
    - rewrite (sameElements_In _ _ answer Hall). cbn [In]. split.
      + intros [<-|[<-|[]]]; right; auto.
      + intros [[? _]|[_ [->| ->]]]; [done|auto..]. }
  assert (isOption -> isInherited answer = false) as Hown.
  { intros H%Hkey. by apply (declared_edge_keys_own cat id question edges). }
  split_and!; [|..|done].
  - by rewrite (getNextQuestionId_Own_edge _ _ _ _ _ Hq Hedges).
  - unfold getNextQuestionId. rewrite Hq, Hedges, getProperty_Inherited. split.
    + by intros (_ & ? & _).
    + intros Hinh. split_and!; [|done..].
      destruct (edges !! answer) as [next|] eqn:Hnext; [|done].
      assert (isInherited answer = false)
        by (apply Hown, Hkey; by exists next).
      congruence.
  - unfold getNextQuestionId. rewrite Hq, Hedges, getProperty_Undefined. split.
    + intros [Hnone Hinh]. split; [|done].
      intros [next Hnext]%Hkey. congruence.
    + intros [Hno Hinh]. split; [|done].
      destruct (edges !! answer) as [next|] eqn:Hnext; [|done].
      destruct Hno. apply Hkey. by exists next.
Qed.

Lemma edges_are_the_options_witness :
  (exists next,
     getNextQuestionId ACCOUNT_ACCESS "account_1" "Username issues" = Own next) /\
  getNextQuestionId ACCOUNT_ACCESS "account_1" "username issues" = Undefined /\
  getNextQuestionId ACCOUNT_ACCESS "account_1" "toString" = Inherited "toString".
Proof.
  assert (exists q, getQuestion ACCOUNT_ACCESS "account_1" = Some q /\
                    is_Some (nextQuestionMap q) /\
                    q_type q = SINGLE_CHOICE /\
                    default [] (options q)
                    = ["Forgot password"; "Account locked";
                       "Cannot receive verification email"; "Username issues";
                       "Other account issue"])
    as (q & Hq & Hmap & Htype & Hopts)
    by (eexists; split_and!; [reflexivity|by eexists|reflexivity..]).
  split_and!.
  - apply (edges_are_the_options ACCOUNT_ACCESS "account_1" q _ Hq Hmap).
    left. split; [done|]. rewrite Hopts. simpl. auto.
  - apply (edges_are_the_options ACCOUNT_ACCESS "account_1" q _ Hq Hmap).
    split; [|reflexivity].
    rewrite Htype, Hopts. simpl. intros [[_ H]|[H _]]; [|done].
    repeat destruct H as [H|H]; done.
  - by apply (edges_are_the_options ACCOUNT_ACCESS "account_1" q _ Hq Hmap).
Defined.

Lemma parseUserAnswer_yes_or_no question rawAnswer :
  q_type question = YES_NO ->
  (parseUserAnswer question rawAnswer = "yes" \/
   parseUserAnswer question rawAnswer = "no") <->
  exists w, In w (affirmativeWords ++ negativeWords)%list /\
            caseVariant (trim rawAnswer) w.
Proof.
  intros Htype. unfold parseUserAnswer. rewrite Htype.
  set (t := trim rawAnswer).
  assert (forall w, In w (affirmativeWords ++ negativeWords)%list ->
                    (String.eqb (toLowerCase t) w = true <-> caseVariant t w))
    as Hword.
  { intros w Hw.
    assert (allLowerLetters w = true) as Hlow
      by (simpl in Hw; repeat destruct Hw as [<-|Hw]; done).
    rewrite String.eqb_eq. split.
    - by apply toLowerCase_caseVariant.
    - intros H. by apply caseVariant_toLowerCase. }
  split.
  - destruct (String.eqb (toLowerCase t) "yes") eqn:H1.
    { intros _. exists "yes". split; [simpl; auto|]. apply Hword; [simpl; auto|done]. }
    destruct (String.eqb (toLowerCase t) "y") eqn:H2.
    { intros _. exists "y". split; [simpl; auto|]. apply Hword; [simpl; auto|done]. }
    destruct (String.eqb (toLowerCase t) "true") eqn:H3.
    { intros _. exists "true". split; [simpl; auto|]. apply Hword; [simpl; auto|done]. }
    destruct (String.eqb (toLowerCase t) "no") eqn:H4.
    { intros _. exists "no". split; [simpl; auto 10|]. apply Hword; [simpl; auto 10|done]. }
    destruct (String.eqb (toLowerCase t) "n") eqn:H5.
    { intros _. exists "n". split; [simpl; auto 10|]. apply Hword; [simpl; auto 10|done]. }
    destruct (String.eqb (toLowerCase t) "false") eqn:H6.
    { intros _. exists "false". split; [simpl; auto 10|]. apply Hword; [simpl; auto 10|done]. }
    cbn [orb]. intros [Ht|Ht].
    + exists "yes". split; [simpl; auto|]. rewrite Ht. repeat constructor.
    + exists "no". split; [simpl; auto 10|]. rewrite Ht. repeat constructor.
  - intros (w & Hw & Hcv). apply (Hword w Hw) in Hcv. apply String.eqb_eq in Hcv.
    rewrite Hcv. simpl in Hw.
    repeat destruct Hw as [<-|Hw]; try done; cbn; auto.
Qed.

(** X13.  At a yes/no question that branches, the conversation goes on
    ([getNextQuestion] finds the next question) exactly when the reply,
    trimmed, is "yes", "y", "true", "no", "n" or "false" in some mix of
    upper and lower case.  Any other reply is passed on as it is and
    finds no edge; [shouldProceedToResolution] then says that the tree
    has ended, unless the reply names an inherited property. *)
Theorem yes_no_reply_continues_iff_recognised :
  forall (cat : IssueCategory) (id : string) (question : Question)
         (rawAnswer : string),
  getQuestion cat id = Some question ->
  q_type question = YES_NO ->
  is_Some (nextQuestionMap question) ->
  let answer := parseUserAnswer question rawAnswer in
  let recognised :=
    exists w, In w (affirmativeWords ++ negativeWords)%list /\
              caseVariant (trim rawAnswer) w in
  (is_Some (getNextQuestion cat id answer) <-> recognised) /\
  ((exists next, getNextQuestionId cat id answer = Own next) <-> recognised) /\
  (~ recognised -> answer = trim rawAnswer) /\
  (forall session,
     category session = Some cat ->
     (shouldProceedToResolution session question answer = true <->
      ~ recognised /\ isInherited answer = false)).
Proof.
  intros cat id question rawAnswer Hq Htype [edges Hedges] answer recognised.
  assert ((answer = "yes" \/ answer = "no") <-> recognised) as Hrec
    by apply (parseUserAnswer_yes_or_no question rawAnswer Htype).
  pose proof (declared_edges _ _ _ _ Hq Hedges) as Hall. rewrite Htype in Hall.
  assert (is_Some (edges !! answer) <-> recognised) as Hkey.
  { rewrite <- Hrec, lookup_is_key, (sameElements_In _ _ _ Hall). cbn [In]. split.
    - intros [<-|[<-|[]]]; auto.
    - intros [->| ->]; auto. }
  assert ((exists next, getNextQuestionId cat id answer = Own next) <-> recognised)
    as Hown by (by rewrite (getNextQuestionId_Own_edge _ _ _ _ _ Hq Hedges)).
  destruct (declared_question_intact _ _ _ Hq) as [Hid Hsucc].
  split_and!; [|done| |].
  - rewrite <- Hown. split.
    + unfold getNextQuestion.
      destruct (getNextQuestionId cat id answer) as [next|name|] eqn:Hnext.
      * intros _. by exists next.
      * apply getNextQuestionId_inherited in Hnext as (-> & Hinh & _).
        rewrite (inheritedKey_undeclared cat answer Hinh). by intros [? ?].
      * by intros [? ?].
    + intros [next Hnext].
      destruct (getNextQuestionId_successor _ _ _ _ Hnext)
        as (q & edges' & Hq' & _ & _ & Hin).
      rewrite Hq in Hq'. injection Hq' as <-.
      destruct (Hsucc next Hin) as (Hne & q' & Hq' & _).
      unfold getNextQuestion. rewrite Hnext.
      apply String.eqb_neq in Hne. rewrite Hne, Hq'. by exists q'.
  - intros Hno. rewrite <- Hrec in Hno. subst answer.
    unfold parseUserAnswer in *. rewrite Htype in *.
    destruct (_ || _); [destruct Hno; by left|].
    destruct (_ || _); [destruct Hno; by right|done].
  - intros session Hcat. unfold shouldProceedToResolution.
    rewrite Hcat, Hid.
    destruct (getNextQuestionId cat id answer) as [next|name|] eqn:Hnext.
    + destruct (getNextQuestionId_successor _ _ _ _ Hnext)
        as (q & edges' & Hq' & _ & _ & Hin).
      rewrite Hq in Hq'. injection Hq' as <-.
      destruct (Hsucc next Hin) as (Hne & _).
      apply String.eqb_neq in Hne. rewrite Hne. split; [done|].
      intros [Hno _]. destruct Hno. apply Hown. by exists next.
    + apply getNextQuestionId_inherited in Hnext as (_ & Hinh & _).
      split; [done|]. intros [_ ?]. congruence.
    + split; [|done]. intros _. split.
      * intros [next Hother]%Hown. congruence.
      * unfold getNextQuestionId in Hnext. rewrite Hq, Hedges in Hnext.
        by apply getProperty_Undefined in Hnext as [_ ?].
Qed.

Lemma yes_no_reply_continues_iff_recognised_witness :
  exists question,
    getQuestion CANCELLATION "cancel_1" = Some question /\
    is_Some (getNextQuestion CANCELLATION "cancel_1"
               (parseUserAnswer question " Y ")).
Proof.
  assert (exists q, getQuestion CANCELLATION "cancel_1" = Some q /\
                    q_type q = YES_NO /\ is_Some (nextQuestionMap q))
    as (q & Hq & Htype & Hmap)
    by (eexists; split_and!; [reflexivity|reflexivity|by eexists]).
  exists q. split; [exact Hq|].
  apply (yes_no_reply_continues_iff_recognised CANCELLATION "cancel_1" q " Y "
           Hq Htype Hmap).
  exists "y". split; [simpl; auto|].
  change (trim " Y ") with "Y". apply (cv_upper "y"); [reflexivity|constructor].
Defined.

(** *** Normalisation and validation, continued *)

Lemma parseDigits_acc s : forall acc,
  parseDigits acc s = acc * 10 ^ Z.of_nat (String.length s) + parseDigits 0 s.
Proof.
  induction s as [|c s IH]; intros acc; cbn [parseDigits String.length].
  - rewrite Z.pow_0_r. lia.
  - rewrite IH, (IH (10 * 0 + _)), Nat2Z.inj_succ, Z.pow_succ_r by lia. lia.
Qed.

Lemma pretty_N_char_digit d :
  (d < 10)%N ->
  isDigit (pretty_N_char d) = true /\
  Z.of_nat (nat_of_ascii (pretty_N_char d)) - 48 = Z.of_N d.
Proof.
  intros Hd.
  assert (d = 0 \/ d = 1 \/ d = 2 \/ d = 3 \/ d = 4 \/ d = 5 \/ d = 6 \/ d = 7
          \/ d = 8 \/ d = 9)%N as Hcases by lia.
  repeat destruct Hcases as [->|Hcases]; try subst d; by vm_compute.
Qed.

Lemma pretty_N_go_digits x : forall s,
  allDigits s = true ->
  allDigits (pretty_N_go x s) = true /\
  (String.length s <= String.length (pretty_N_go x s))%nat /\
  (0 < x -> pretty_N_go x s <> s)%N /\
  parseDigits 0 (pretty_N_go x s)
  = Z.of_N x * 10 ^ Z.of_nat (String.length s) + parseDigits 0 s.
Proof.
  induction (N.lt_wf_0 x) as [x _ IH]; intros s Hs.
  assert (x = 0 \/ 0 < x)%N as [->|Hpos] by lia.
  - rewrite pretty_N_go_0. split_and!; [done|lia|lia|lia].
  - rewrite pretty_N_go_step by done.
    destruct (pretty_N_char_digit (x `mod` 10)%N) as [Hdigit Hvalue];
      [by apply N.mod_lt|].
    destruct (IH (x `div` 10)%N (N.div_lt x 10 Hpos eq_refl)
                 (String (pretty_N_char (x `mod` 10)) s)) as (H1 & H2 & _ & H4).
    { cbn [allDigits]. by rewrite Hdigit. }
    cbn [String.length] in H2.
    split_and!; [done|lia| |].
    + intros _ Heq. rewrite Heq in H2. lia.
    + rewrite H4. cbn [parseDigits String.length].
      rewrite (parseDigits_acc s (10 * 0 + _)), Hvalue.
      rewrite Nat2Z.inj_succ, Z.pow_succ_r by lia.
      rewrite N2Z.inj_div, N2Z.inj_mod.
      pose proof (Z.div_mod (Z.of_N x) 10 ltac:(lia)). nia.
Qed.

(** The decimal numeral of a natural number is a non-empty string of
    digits that [parseInt] reads back. *)
Lemma pretty_nat_numeral (n : nat) :
  isDigitString (pretty n) = true /\ parseInt (pretty n) = Z.of_nat n.
Proof.
  unfold pretty, pretty_nat, pretty, pretty_N, parseInt.
  destruct (decide (N.of_nat n = 0%N)) as [Hz|Hnz].
  - assert (n = 0%nat) as -> by lia. by split.
  - destruct (pretty_N_go_digits (N.of_nat n) EmptyString eq_refl)
      as (H1 & _ & H3 & H4).
    split.
    + unfold isDigitString.
      destruct (pretty_N_go (N.of_nat n) EmptyString) eqn:Hgo; [|done].
      destruct H3; [lia|done].
    + rewrite H4. cbn [String.length parseDigits Z.of_nat].
      rewrite Z.pow_0_r. lia.
Qed.

Lemma isDigit_not_white c : isDigit c = true -> isWhiteSpace c = false.
Proof. destruct c as [[] [] [] [] [] [] [] []]; by vm_compute. Qed.

Lemma trimEnd_cons c s :
  trimEnd (String c s)
  = match trimEnd s with
    | EmptyString => if isWhiteSpace c then EmptyString else String c EmptyString
    | t => String c t
    end.
Proof. reflexivity. Qed.

Lemma allDigits_trimStart s : allDigits s = true -> trimStart s = s.
Proof.
  destruct s as [|c s]; [done|]. cbn.
  intros [Hc _]%andb_true_iff. by rewrite (isDigit_not_white c Hc).
Qed.

Lemma allDigits_trimEnd s : allDigits s = true -> trimEnd s = s.
Proof.
  induction s as [|c s IH]; [done|]. cbn [allDigits]. rewrite trimEnd_cons.
  intros [Hc Hs]%andb_true_iff. rewrite (IH Hs), (isDigit_not_white c Hc).
  by destruct s.
Qed.

Lemma isDigitString_trim s : isDigitString s = true -> trim s = s.
Proof.
  intros Hs. assert (allDigits s = true) as Hall by (by destruct s).
  unfold trim. by rewrite allDigits_trimStart, allDigits_trimEnd.
Qed.

(** X14.  The number that [formatQuestionForDisplay] prints in front of
    an option selects that option in [parseUserAnswer]: options are
    numbered from 1, and for a single-choice question the reply that
    consists of the number of an option is normalised to the text of
    that option.  The numbers 0 and one past the last are passed on as
    they are. *)
Theorem displayed_number_selects_option :
  forall (question : Question) (opts : list string) (k : nat) (option : string),
  q_type question = SINGLE_CHOICE ->
  options question = Some opts ->
  opts !! k = Some option ->
  formatQuestionForDisplay question
  = text question ++ nl ++ nl ++ "Please select one of the following options:"
      ++ String.concat EmptyString (imap optionLine opts) /\
  imap optionLine opts !! k = Some (nl ++ pretty (k + 1)%nat ++ ". " ++ option) /\
  parseUserAnswer question (pretty (k + 1)%nat) = option /\
  parseUserAnswer question (pretty 0%nat) = pretty 0%nat /\
  parseUserAnswer question (pretty (length opts + 1)%nat)
  = pretty (length opts + 1)%nat.
Proof.
  intros question opts k option Htype Hopts Hk.
  assert (forall n, parseUserAnswer question (pretty n)
                    = if (Z.of_nat n - 1 >=? 0) && (Z.of_nat n - 1 <? Z.of_nat (length opts))
                      then default (pretty n) (opts !! Z.to_nat (Z.of_nat n - 1))
                      else pretty n) as Hparse.
  { intros n. unfold parseUserAnswer. rewrite Htype, Hopts.
    destruct (pretty_nat_numeral n) as [Hdigits Hvalue].
    by rewrite (isDigitString_trim _ Hdigits), Hdigits, Hvalue. }
  split_and!.
  - unfold formatQuestionForDisplay. rewrite Htype, Hopts.
    destruct opts; [done|]. reflexivity.
  - by rewrite list_lookup_imap, Hk.
  - rewrite Hparse. apply lookup_lt_Some in Hk as Hlt.
    replace (Z.to_nat (Z.of_nat (k + 1) - 1)) with k by lia. rewrite Hk.
    destruct (Z.geb_spec (Z.of_nat (k + 1) - 1) 0); [|lia].
    by destruct (Z.ltb_spec (Z.of_nat (k + 1) - 1) (Z.of_nat (length opts))); [|lia].
  - by rewrite Hparse.
  - rewrite Hparse.
    destruct (Z.ltb_spec (Z.of_nat (length opts + 1) - 1) (Z.of_nat (length opts)));
      [lia|]. by rewrite andb_false_r.
Qed.

Lemma displayed_number_selects_option_witness :
  exists question,
    getQuestion CANCELLATION "cancel_2" = Some question /\
    parseUserAnswer question "2" = "Return after receiving".
Proof.
  eexists. split; [reflexivity|].
  refine (proj1 (proj2 (proj2
            (displayed_number_selects_option _
               ["Refuse delivery"; "Return after receiving"; "Keep the order"]
               1 "Return after receiving" _ _ _)))); reflexivity.
Defined.

Lemma trimEnd_idempotent s : trimEnd (trimEnd s) = trimEnd s.
Proof.
  induction s as [|c s IH]; [done|]. rewrite trimEnd_cons.
  destruct (trimEnd s) as [|d t] eqn:Ht.
  - destruct (isWhiteSpace c) eqn:Hc; [done|]. cbn. by rewrite Hc.
  - by rewrite trimEnd_cons, IH.
Qed.

Lemma trimStart_head s :
  match trimStart s with
  | EmptyString => True
  | String c _ => isWhiteSpace c = false
  end.
Proof.
  induction s as [|c s IH]; [done|]. cbn.
  destruct (isWhiteSpace c) eqn:Hc; [done|]. by cbn.
Qed.

Lemma trimEnd_head s :
  match s with
  | EmptyString => True
  | String c _ => isWhiteSpace c = false
  end ->
  trimStart (trimEnd s) = trimEnd s.
Proof.
  destruct s as [|c s]; [done|]. intros Hc. rewrite trimEnd_cons.
  destruct (trimEnd s); rewrite ?Hc; cbn [trimStart]; by rewrite Hc.
Qed.

Lemma trim_idempotent s : trim (trim s) = trim s.
Proof.
  unfold trim. rewrite (trimEnd_head _ (trimStart_head s)).
  apply trimEnd_idempotent.
Qed.

Lemma upperChar_facts c :
  isWhiteSpace (upperChar c) = isWhiteSpace c /\
  upperChar (upperChar c) = upperChar c.
Proof. destruct c as [[] [] [] [] [] [] [] []]; by vm_compute. Qed.

Lemma lowerChar_facts c :
  isWhiteSpace (lowerChar c) = isWhiteSpace c /\
  lowerChar (lowerChar c) = lowerChar c.
Proof. destruct c as [[] [] [] [] [] [] [] []]; by vm_compute. Qed.

Lemma trimStart_mapChars f s :
  (forall c, isWhiteSpace (f c) = isWhiteSpace c) ->
  trimStart (mapChars f s) = mapChars f (trimStart s).
Proof.
  intros Hf. induction s as [|c s IH]; [done|]. cbn.
  rewrite Hf. by destruct (isWhiteSpace c).
Qed.

Lemma trimEnd_mapChars f s :
  (forall c, isWhiteSpace (f c) = isWhiteSpace c) ->
  trimEnd (mapChars f s) = mapChars f (trimEnd s).
Proof.
  intros Hf. induction s as [|c s IH]; [done|].
  cbn [mapChars]. rewrite !trimEnd_cons, IH, Hf.
  destruct (trimEnd s); cbn [mapChars]; [|done].
  by destruct (isWhiteSpace c).
Qed.

Lemma trim_toUpperCase s : trim (toUpperCase s) = toUpperCase (trim s).
Proof.
  unfold trim, toUpperCase.
  rewrite trimStart_mapChars, trimEnd_mapChars; [done|..];
    intros c; apply upperChar_facts.
Qed.

Lemma toUpperCase_idempotent s : toUpperCase (toUpperCase s) = toUpperCase s.
Proof.
  unfold toUpperCase. induction s as [|c s IH]; [done|]. cbn.
  by rewrite IH, (proj2 (upperChar_facts c)).
Qed.

Lemma optionsNormal_holds : optionsNormal = true.
Proof. by vm_compute. Qed.

(** X15.  Normalising twice is normalising once, for every question
    whose options are themselves normal (trimmed and not a number); the
    options of all declared questions are.  A recorded answer can be
    fed to [parseUserAnswer] again without changing. *)
Theorem parseUserAnswer_idempotent :
  forall (question : Question) (rawAnswer : string),
  (forall option, In option (default [] (options question)) ->
     trim option = option /\ isDigitString option = false) ->
  parseUserAnswer question (parseUserAnswer question rawAnswer)
  = parseUserAnswer question rawAnswer.
Proof.
  intros question rawAnswer Hopts. unfold parseUserAnswer.
  destruct (q_type question) eqn:Htype; try apply f_equal, trim_idempotent;
    try apply trim_idempotent.
  - destruct (options question) as [opts|] eqn:Hq; [|apply trim_idempotent].
    cbn [default from_option id] in Hopts.
    set (t := trim rawAnswer).
    assert (trim t = t) as Ht by apply trim_idempotent.
    destruct (isDigitString t) eqn:Hd; [|by rewrite Ht, Hd].
    destruct ((parseInt t - 1 >=? 0) && (parseInt t - 1 <? Z.of_nat (length opts)))
      eqn:Hrange; [|by rewrite Ht, Hd, Hrange].
    destruct (opts !! Z.to_nat (parseInt t - 1)) as [o|] eqn:Ho; cbn [default from_option id];
      [|by rewrite Ht, Hd, Hrange, Ho].
    apply list_elem_of_lookup_2, list_elem_of_In, Hopts in Ho as [Ho1 Ho2].
    by rewrite Ho1, Ho2.
  - set (t := trim rawAnswer).
    assert (trim t = t) as Ht by apply trim_idempotent.
    destruct (String.eqb (toLowerCase t) "yes" || String.eqb (toLowerCase t) "y"
              || String.eqb (toLowerCase t) "true") eqn:Hyes; [done|].
    destruct (String.eqb (toLowerCase t) "no" || String.eqb (toLowerCase t) "n"
              || String.eqb (toLowerCase t) "false") eqn:Hno; [done|].
    by rewrite Ht, Hyes, Hno.
  - by rewrite trim_toUpperCase, trim_idempotent, toUpperCase_idempotent.
Qed.

Lemma parseUserAnswer_idempotent_witness :
  exists question,
    getQuestion PAYMENT_ISSUE "payment_4" = Some question /\
    parseUserAnswer question (parseUserAnswer question " 3 ")
    = parseUserAnswer question " 3 ".
Proof.
  eexists. split; [reflexivity|].
  apply parseUserAnswer_idempotent.
  cbn [default options]. intros option Hin.
  repeat destruct Hin as [<-|Hin]; [by vm_compute..|done].
Defined.

(** The options of every declared question are normal. *)
Lemma declared_options_normal cat id question option :
  getQuestion cat id = Some question ->
  In option (default [] (options question)) ->
  trim option = option /\ isDigitString option = false /\ option <> EmptyString.
Proof.
  intros Hq Hin. apply declared_lookup in Hq.
  pose proof optionsNormal_holds as Hall. unfold optionsNormal in Hall.
  rewrite forallb_forall in Hall.
  specialize (Hall cat (all_categories_complete cat)).
  rewrite forallb_forall in Hall. specialize (Hall _ Hq). cbn [fst snd] in Hall.
  rewrite forallb_forall in Hall. specialize (Hall _ Hin). cbv beta in Hall.
  apply andb_true_iff in Hall as [[H1 H2]%andb_true_iff H3].
  apply String.eqb_eq in H1. apply negb_true_iff in H2, H3.
  by apply String.eqb_neq in H3.
Qed.

Lemma mapChars_empty f s : mapChars f s = EmptyString -> s = EmptyString.
Proof. by destruct s. Qed.

Lemma trim_not_blank answer : isBlank answer = false -> trim answer <> EmptyString.
Proof.
  rewrite isBlank_allWhiteSpace. intros Hblank Htrim.
  unfold trim in Htrim. apply trimEnd_empty in Htrim.
  rewrite trimStart_allWhiteSpace in Htrim. congruence.
Qed.

(** X16.  An answer that passes [validateAnswer] is never normalised to
    the empty string, provided no option of the question is empty (none
    of the declared options is).  So an answer recorded after validation
    and normalisation, under a question id other than [__proto__], is
    never taken for a missing one by [checkConditions].  Under
    [__proto__] nothing is recorded, and a contains condition on that id
    makes the check throw. *)
Theorem valid_answer_normalises_to_non_empty :
  forall (regexTest : string -> string -> bool) (question : Question)
         (answer : string),
  valid (validateAnswer regexTest question answer) = true ->
  (forall option, In option (default [] (options question)) ->
                  option <> EmptyString) ->
  parseUserAnswer question answer <> EmptyString /\
  (forall (c : ResolutionCondition) (answers : gmap string string),
     (operator c = op_contains /\ expectedAnswer c = One EmptyString) ->
     questionId c <> "__proto__" ->
     conditionMet c
       (setProperty answers (questionId c) (parseUserAnswer question answer))
     = inl true) /\
  (forall (c : ResolutionCondition) (answers : gmap string string),
     (operator c = op_contains /\ expectedAnswer c = One EmptyString) ->
     questionId c = "__proto__" ->
     answers !! "__proto__" = None ->
     conditionMet c
       (setProperty answers (questionId c) (parseUserAnswer question answer))
     = inr (TypeError "userAnswer.includes is not a function")).
Proof.
  intros regexTest question answer Hvalid Hopts.
  assert (isBlank answer = false) as Hblank.
  { unfold validateAnswer in Hvalid. by destruct (isBlank answer). }
  pose proof (trim_not_blank _ Hblank) as Htrim.
  assert (parseUserAnswer question answer <> EmptyString) as Hne.
  { unfold parseUserAnswer.
    destruct (q_type question); try done.
    - destruct (options question) as [opts|]; [|done]. cbn [default from_option id] in Hopts.
      destruct (isDigitString (trim answer)); [|done].
      destruct ((parseInt (trim answer) - 1 >=? 0)
                && (parseInt (trim answer) - 1 <? Z.of_nat (length opts))); [|done].
      destruct (opts !! Z.to_nat (parseInt (trim answer) - 1)) as [o|] eqn:Ho;
        [|done].
      cbn [default from_option id]. by apply list_elem_of_lookup_2, list_elem_of_In, Hopts in Ho.
    - destruct (_ || _ || _); [done|]. by destruct (_ || _ || _).
    - intros H. by apply mapChars_empty in H. }
  split_and!; [done| |].
  - intros c answers [Hop Hexp] Hkey. unfold conditionMet.
    rewrite (proj2 (getProperty_Own _ _ _)
               (setProperty_lookup_eq answers _ _ (or_introl Hkey))).
    rewrite Hop, Hexp.
    apply String.eqb_neq in Hne. rewrite Hne.
    by destruct (parseUserAnswer question answer).
  - intros c answers [Hop Hexp] Hkey Hnone. unfold conditionMet.
    rewrite Hkey, (setProperty_proto _ _ Hnone).
    rewrite (proj2 (getProperty_Inherited answers "__proto__" "__proto__"));
      [|by split_and!].
    by rewrite Hop, Hexp.
Qed.

Lemma valid_answer_normalises_to_non_empty_witness :
  exists question,
    getQuestion ORDER_STATUS "order_status_2" = Some question /\
    parseUserAnswer question "ORD-12345" <> EmptyString.
Proof.
  eexists. split; [reflexivity|].
  refine (proj1 (valid_answer_normalises_to_non_empty RegExp.test _ "ORD-12345" _ _)).
  - vm_compute. reflexivity.
  - intros option Hin. destruct Hin.
Defined.

(** X17.  A failure of [validateAnswer] comes from the empty check,
    from the length check, or from a pattern, minLength or maxLength
    rule.  The message of a rule of type required is never the reason:
    whenever such a rule would fail, the answer has already been
    rejected with "Answer cannot be empty"; and rules of type custom
    never fail. *)
Theorem validateAnswer_failure_source :
  forall (regexTest : string -> string -> bool) (question : Question)
         (answer : string),
  valid (validateAnswer regexTest question answer) = false ->
  validateAnswer regexTest question answer = failed "Answer cannot be empty" \/
  validateAnswer regexTest question answer
  = failed "Answer is too long (maximum 1000 characters)" \/
  exists rule,
    In rule (rulesOf question) /\
    (rtype rule = rule_pattern \/ rtype rule = rule_minLength \/
     rtype rule = rule_maxLength) /\
    valid (validateRule regexTest rule answer) = false /\
    validateAnswer regexTest question answer = failed (errorMessage rule).
Proof.
  intros regexTest question answer Hinvalid.
  destruct (isBlank answer) eqn:Hblank.
  { left. unfold validateAnswer. by rewrite Hblank. }
  destruct (Z.gtb_spec (jsLength answer) MAX_TEXT_LENGTH) as [Hlong|Hlen].
  { right; left. unfold validateAnswer. rewrite Hblank.
    by destruct (Z.gtb_spec (jsLength answer) MAX_TEXT_LENGTH); [|lia]. }
  right; right.
  rewrite validateAnswer_rules in Hinvalid |- * by done.
  induction (rulesOf question) as [|r rules IH]; [done|].
  cbn [validateRules] in Hinvalid |- *.
  destruct (valid (validateRule regexTest r answer)) eqn:Hr; cbn [negb] in *.
  - destruct (IH Hinvalid) as (rule & Hin & Htype & Hfail & Hres).
    exists rule. split_and!; [by right|done..].
  - exists r. split_and!; [by left| |done|].
    + unfold validateRule in Hr. destruct (rtype r); auto.
      * by rewrite Hblank in Hr.
      * done.
    + by destruct (validateRule_result regexTest r answer) as [[? _]|[_ ?]];
        [congruence|].
Qed.

Lemma validateAnswer_failure_source_witness :
  let question :=
    {| q_id := "other_1";
       text := "Please describe your issue in detail";
       q_type := TEXT_INPUT;
       options := None;
       nextQuestionMap := None;
       validationRules :=
         Some [ {| rtype := rule_required; value := None;
                   errorMessage := "Please describe your issue" |};
                {| rtype := rule_minLength; value := Some (VNumber 20);
                   errorMessage := "Please provide more details (at least 20 characters)" |} ] |} in
  validateAnswer RegExp.test question "too short" = failed "Answer cannot be empty" \/
  validateAnswer RegExp.test question "too short"
  = failed "Answer is too long (maximum 1000 characters)" \/
  exists rule,
    In rule (rulesOf question) /\
    (rtype rule = rule_pattern \/ rtype rule = rule_minLength \/
     rtype rule = rule_maxLength) /\
    valid (validateRule RegExp.test rule "too short") = false /\
    validateAnswer RegExp.test question "too short" = failed (errorMessage rule).
Proof.
  intros question. apply validateAnswer_failure_source. reflexivity.
Defined.

(** *** Integrity of the configuration tables *)

Lemma treesDisjoint_holds : treesDisjoint = true.
Proof. by vm_compute. Qed.

(** X18.  The trees share no question id: an id that names a question
    in the tree of one category names none in the tree of another, so
    the answers of a session, keyed by question id, cannot be mistaken
    for answers to a question of another category. *)
Theorem question_ids_belong_to_one_tree :
  forall (cat1 cat2 : IssueCategory) (id : string) (q1 q2 : Question),
  getQuestion cat1 id = Some q1 ->
  getQuestion cat2 id = Some q2 ->
  cat1 = cat2.
Proof.
  intros cat1 cat2 id q1 q2 H1 H2.
  pose proof treesDisjoint_holds as Hall. unfold treesDisjoint in Hall.
  rewrite forallb_forall in Hall.
  specialize (Hall cat1 (all_categories_complete cat1)).
  rewrite forallb_forall in Hall.
  specialize (Hall cat2 (all_categories_complete cat2)).
  apply orb_true_iff in Hall as [Heq|Hnone]; [by apply bool_decide_eq_true in Heq|].
  rewrite forallb_forall in Hnone.
  apply declared_lookup in H1. specialize (Hnone _ H1). cbn [fst] in Hnone.
  by rewrite H2 in Hnone.
Qed.

Lemma question_ids_belong_to_one_tree_witness :
  is_Some (getQuestion REFUND_REQUEST "refund_4") /\
  getQuestion ORDER_STATUS "refund_4" = None /\
  REFUND_REQUEST = REFUND_REQUEST.
Proof.
  split; [eexists; reflexivity|]. split; [reflexivity|].
  eapply (question_ids_belong_to_one_tree REFUND_REQUEST REFUND_REQUEST "refund_4");
    reflexivity.
Defined.

Lemma pathsIntact_holds : pathsIntact = true.
Proof. by vm_compute. Qed.

Lemma distinctStrings_inj {A} (f : A -> string) (l : list A) x y :
  distinctStrings (map f l) = true ->
  In x l -> In y l -> f x = f y -> x = y.
Proof.
  induction l as [|a l IH]; [done|]. cbn [map distinctStrings].
  intros [Hfresh Hrest]%andb_true_iff Hx Hy Hf.
  apply negb_true_iff in Hfresh.
  assert (forall z, In z l -> f a <> f z) as Hne.
  { intros z Hz Heq.
    assert (existsb (String.eqb (f a)) (map f l) = true); [|congruence].
    apply existsb_eqb_In. rewrite Heq. by apply in_map. }
  destruct Hx as [->|Hx], Hy as [->|Hy]; [done| | |by apply IH].
  - by destruct (Hne y Hy).
  - by destruct (Hne x Hx).
Qed.

(** X19.  The table of resolution paths is consistent with the rest of
    the configuration.  Every path is listed under its own category and
    no two paths have the same id.  Every condition asks about a
    question of the tree of that category, with an expected value of the
    shape its operator reads (a string for equals and contains, an array
    for in), so that no condition is skipped; and where the question is
    single-choice or yes/no, every expected value of equals or in is one
    of its options, or "yes" or "no". *)
Theorem resolution_paths_consistent :
  forall (cat : IssueCategory) (path : ResolutionPath),
  In path (RESOLUTION_PATHS cat) ->
  rp_category path = cat /\
  (forall cat' path',
     In path' (RESOLUTION_PATHS cat') -> rp_id path' = rp_id path -> path' = path) /\
  (forall c, In c (conditions path) ->
     exists question,
       getQuestion cat (questionId c) = Some question /\
       ((operator c = op_contains /\ exists e, expectedAnswer c = One e) \/
        (((operator c = op_equals /\ exists e, expectedAnswer c = One e) \/
          (operator c = op_in /\ exists l, expectedAnswer c = Many l)) /\
         forall e, In e (expectedValues c) ->
           (q_type question = SINGLE_CHOICE -> In e (default [] (options question))) /\
           (q_type question = YES_NO -> e = "yes" \/ e = "no")))).
Proof.
  intros cat path Hpath.
  pose proof pathsIntact_holds as Hall. unfold pathsIntact in Hall.
  apply andb_true_iff in Hall as [Hall Hdistinct].
  rewrite forallb_forall in Hall.
  specialize (Hall cat (all_categories_complete cat)).
  rewrite forallb_forall in Hall. specialize (Hall _ Hpath). cbv beta in Hall.
  apply andb_true_iff in Hall as [Hcat Hconds].
  split_and!.
  - by apply bool_decide_eq_true in Hcat.
  - intros cat' path' Hpath' Hid.
    apply (distinctStrings_inj rp_id allPaths); eauto using In_allPaths.
  - intros c Hc. rewrite forallb_forall in Hconds. specialize (Hconds _ Hc).
    unfold conditionIntact, expectedValues in Hconds.
    destruct (getQuestion cat (questionId c)) as [q|]; [|done].
    exists q. split; [done|].
    unfold expectedValues.
    destruct (operator c), (expectedAnswer c) as [e|l]; try done.
    + right. split; [left; eauto|].
      intros e' He'. split; intros Htype; rewrite Htype in Hconds;
        rewrite forallb_forall in Hconds; specialize (Hconds _ He');
        apply existsb_eqb_In in Hconds; [done|].
      destruct Hconds as [<-|[<-|[]]]; auto.
    + left. eauto.
    + right. split; [right; eauto|].
      intros e' He'. split; intros Htype; rewrite Htype in Hconds;
        rewrite forallb_forall in Hconds; specialize (Hconds _ He');
        apply existsb_eqb_In in Hconds; [done|].
      destruct Hconds as [<-|[<-|[]]]; auto.
Qed.

Lemma resolution_paths_consistent_witness :
  exists path,
    head (RESOLUTION_PATHS CANCELLATION) = Some path /\
    rp_category path = CANCELLATION.
Proof.
  eexists. split; [reflexivity|].
  refine (proj1 (resolution_paths_consistent CANCELLATION _ _)).
  left. reflexivity.
Defined.

(** *** What resolution matching reads *)

Lemma conditionMet_frame c (answers answers' : gmap string string) :
  answers !! questionId c = answers' !! questionId c ->
  conditionMet c answers = conditionMet c answers'.
Proof. intros H. unfold conditionMet, getProperty. by rewrite H. Qed.

Lemma checkConditions_frame conds (answers answers' : gmap string string) :
  (forall c, In c conds -> answers !! questionId c = answers' !! questionId c) ->
  checkConditions conds answers = checkConditions conds answers'.
Proof.
  induction conds as [|c conds IH]; [done|]. intros H.
  rewrite !checkConditions_cons, IH.
  - rewrite (conditionMet_frame c answers answers'); [done|]. apply H. by left.
  - intros c' Hc'. apply H. by right.
Qed.

Lemma firstMatch_frame paths (answers answers' : gmap string string) :
  (forall path c, In path paths -> In c (conditions path) ->
     answers !! questionId c = answers' !! questionId c) ->
  firstMatch paths answers = firstMatch paths answers'.
Proof.
  induction paths as [|p paths IH]; [done|]. intros H. cbn [firstMatch].
  rewrite (checkConditions_frame _ answers answers'), IH; [done|..].
  - intros path c Hp Hc. apply (H path c); [by right|done].
  - intros c Hc. apply (H p c); [by left|done].
Qed.

(** X20.  Resolution matching reads only the answers to the questions
    that the conditions of the category's paths name.  Two answer maps
    that agree on those questions get the same path and, in the same
    environment, the same resolution; in particular the free-text
    answers that no condition names never change the outcome. *)
Theorem findMatchingResolution_reads_cited_answers :
  forall (cat : IssueCategory) (answers answers' : gmap string string),
  (forall question, In question (citedQuestions cat) ->
     answers !! question = answers' !! question) ->
  findMatchingResolution cat answers = findMatchingResolution cat answers' /\
  (forall env,
     exists resolution resolution',
       findResolution env cat answers = inl resolution /\
       findResolution env cat answers' = inl resolution' /\
       res_type resolution = res_type resolution' /\
       escalationDetails resolution = escalationDetails resolution' /\
       res_steps resolution = res_steps resolution').
Proof.
  intros cat answers answers' Hagree.
  assert (findMatchingResolution cat answers = findMatchingResolution cat answers')
    as Hsame.
  { unfold findMatchingResolution. cbv zeta.
    rewrite (firstMatch_frame _ answers answers'); [done|].
    intros path c Hp Hc. apply Hagree. unfold citedQuestions.
    apply in_concat. exists (map questionId (conditions path)).
    split; [|by apply in_map].
    by apply (in_map (fun p => map questionId (conditions p))). }
  split; [done|]. intros env. unfold findResolution. rewrite Hsame.
  destruct (findMatchingResolution_fullMatch cat answers') as (path & -> & _).
  do 2 eexists. split_and!; [reflexivity|reflexivity|..];
    by destruct (rp_type path).
Qed.

Lemma findMatchingResolution_reads_cited_answers_witness :
  findMatchingResolution DELIVERY_PROBLEM
    (<["delivery_4" := "The box was crushed on one side"]>
       (<["delivery_1" := "Package is damaged"]> ∅))
  = findMatchingResolution DELIVERY_PROBLEM
      (<["delivery_1" := "Package is damaged"]> ∅).
Proof.
  apply findMatchingResolution_reads_cited_answers.
  intros question Hin. vm_compute in Hin.
  repeat destruct Hin as [<-|Hin]; try reflexivity. destruct Hin.
Defined.

Lemma answersTo_sound fuel cat : forall current target replies,
  answersTo fuel cat current target = Some replies ->
  In target (questionsVisited cat current replies).
Proof.
  induction fuel as [|fuel IH]; intros current target replies; cbn [answersTo].
  - destruct (String.eqb_spec current target) as [->|]; [|done].
    intros [= <-]. by left.
  - destruct (String.eqb_spec current target) as [->|Hne].
    { intros [= <-]. by left. }
    destruct (getQuestion cat current) as [q|] eqn:Hq; [|done].
    assert (forall edges found,
              (forall edge, In edge edges ->
                 getNextQuestionId cat current edge.1 = Own edge.2) ->
              foldr
                (fun edge found =>
                   match answersTo fuel cat edge.2 target with
                   | Some rest => Some (edge.1 :: rest)
                   | None => found
                   end) None edges = Some found ->
              In target (questionsVisited cat current found)) as Hfold.
    { induction edges as [|edge edges IHe]; [done|]. intros found Hedges.
      cbn [foldr].
      destruct (answersTo fuel cat edge.2 target) as [rest|] eqn:Hrest.
      - intros [= <-]. cbn [questionsVisited].
        rewrite (Hedges edge (or_introl eq_refl)). right. by apply IH.
      - apply IHe. intros e He. apply Hedges. by right. }
    apply Hfold. intros [a n] Hin. cbn [fst snd].
    unfold getNextQuestionId. rewrite Hq.
    destruct (nextQuestionMap q) as [edges|]; cbn [default from_option id] in Hin.
    + by apply getProperty_Own, elem_of_map_to_list, list_elem_of_In.
    + rewrite map_to_list_empty in Hin. destruct Hin.
Qed.

Lemma PRODUCT_DEFECT_root_is_leaf answer :
  getNextQuestionId PRODUCT_DEFECT "defect_1" answer = Undefined.
Proof.
  unfold getNextQuestionId.
  destruct (getQuestion PRODUCT_DEFECT "defect_1") as [q|] eqn:Hq; [|done].
  vm_compute in Hq. by injection Hq as <-.
Qed.

(** X21.  Every question that a condition of a category's paths names
    can be reached from the root of that category's tree by some
    replies, except in PRODUCT_DEFECT: its three paths ask about
    defect_2, while the root defect_1 has no edges, so a walk of that
    tree never visits defect_2, and without an answer to defect_2 the
    result is always the last path, defect_late. *)
Theorem cited_questions_reachable_except_PRODUCT_DEFECT :
  forall (cat : IssueCategory) (question : string),
  In question (citedQuestions cat) ->
  ((exists replies,
      In question
         (questionsVisited cat (rootQuestionId (QUESTION_TREES cat)) replies))
   <-> cat <> PRODUCT_DEFECT) /\
  (forall replies,
     questionsVisited PRODUCT_DEFECT (rootQuestionId (QUESTION_TREES PRODUCT_DEFECT))
       replies = ["defect_1"]) /\
  (forall answers : gmap string string,
     answers !! "defect_2" = None ->
     exists path,
       findMatchingResolution PRODUCT_DEFECT answers = inl (Some path) /\
       rp_id path = "defect_late").
Proof.
  intros cat question Hcited. split_and!.
  - split.
    + intros [replies Hin] ->.
      assert (questionsVisited PRODUCT_DEFECT "defect_1" replies = ["defect_1"])
        as Hwalk.
      { destruct replies as [|a replies]; [done|]. cbn [questionsVisited].
        by rewrite PRODUCT_DEFECT_root_is_leaf. }
      change (rootQuestionId (QUESTION_TREES PRODUCT_DEFECT)) with "defect_1" in Hin.
      rewrite Hwalk in Hin. vm_compute in Hcited.
      repeat destruct Hcited as [<-|Hcited]; try destruct Hcited;
        destruct Hin as [Heq|[]]; discriminate.
    + intros Hcat.
      assert (forallb
                (fun q => isSome (answersTo 3 cat (rootQuestionId (QUESTION_TREES cat)) q))
                (citedQuestions cat) = true) as Hall
        by (destruct cat; try done; by vm_compute).
      rewrite forallb_forall in Hall. specialize (Hall _ Hcited). cbv beta in Hall.
      destruct (answersTo 3 cat (rootQuestionId (QUESTION_TREES cat)) question)
        as [replies|] eqn:Hreplies; [|done].
      exists replies. by eapply answersTo_sound.
  - intros replies.
    change (rootQuestionId (QUESTION_TREES PRODUCT_DEFECT)) with "defect_1".
    destruct replies as [|a replies]; [done|]. cbn [questionsVisited].
    by rewrite PRODUCT_DEFECT_root_is_leaf.
  - intros answers Hnone.
    assert (getProperty answers "defect_2" = Undefined) as Hundefined
      by (by apply getProperty_Undefined).
    unfold findMatchingResolution. simpl.
    rewrite !checkConditions_cons. unfold conditionMet. simpl.
    rewrite Hundefined. by eexists.
Qed.

Lemma cited_questions_reachable_except_PRODUCT_DEFECT_witness :
  exists replies,
    In "refund_2b"
       (questionsVisited REFUND_REQUEST (rootQuestionId (QUESTION_TREES REFUND_REQUEST))
          replies).
Proof.
  apply (proj1 (cited_questions_reachable_except_PRODUCT_DEFECT REFUND_REQUEST
                  "refund_2b" ltac:(vm_compute; tauto))).
  discriminate.
Defined.

(** *** The resolutions that [findResolution] builds *)

Lemma findMatchingResolution_In cat answers :
  exists path,
    findMatchingResolution cat answers = inl (Some path) /\
    In path (RESOLUTION_PATHS cat).
Proof.
  destruct (findMatchingResolution_fullMatch cat answers)
    as (path & Hfind & [(before & after & -> & _)|[_ Hlast]]).
  - exists path. split; [done|]. apply in_or_app. right. by left.
  - exists path. split; [done|].
    apply last_Some in Hlast as [l' ->]. apply in_or_app. right. by left.
Qed.

Lemma declared_path_category cat path :
  In path (RESOLUTION_PATHS cat) -> rp_category path = cat.
Proof.
  intros Hpath.
  pose proof pathsIntact_holds as Hall. unfold pathsIntact in Hall.
  apply andb_true_iff in Hall as [Hall _].
  rewrite forallb_forall in Hall.
  specialize (Hall cat (all_categories_complete cat)).
  rewrite forallb_forall in Hall. specialize (Hall _ Hpath). cbv beta in Hall.
  apply andb_true_iff in Hall as [Hcat _]. by apply bool_decide_eq_true in Hcat.
Qed.

(** X22.  [findResolution] never throws and always builds its
    resolution from a declared path of the category it was asked about,
    and the type of the resolution is the type of that path.  Its own
    fall-back, for the case that no path is found, is never used. *)
Theorem findResolution_keeps_path_type :
  forall (env : Entropy) (cat : IssueCategory) (answers : gmap string string),
  exists path resolution,
    findMatchingResolution cat answers = inl (Some path) /\
    In path (RESOLUTION_PATHS cat) /\
    rp_category path = cat /\
    findResolution env cat answers = inl resolution /\
    res_type resolution = rp_type path.
Proof.
  intros env cat answers.
  destruct (findMatchingResolution_In cat answers) as (path & Hfind & Hin).
  exists path. unfold findResolution. rewrite Hfind. eexists.
  split_and!; [done|done|by apply declared_path_category|reflexivity|].
  by destruct (rp_type path).
Qed.

(** X23.  What a resolution carries follows from its type.  It has
    escalation details exactly when it is an escalation; then the
    reference number is the ticket number generated for it, an
    escalation to an agent goes to the Customer Support Team with
    priority medium and one to a specialist to the Specialist Team with
    priority high, and no steps are given.  An automated action carries
    a generated reference number, and self-service and information
    resolutions carry none. *)
Theorem findResolution_details :
  forall (env : Entropy) (cat : IssueCategory) (answers : gmap string string),
  exists r,
  findResolution env cat answers = inl r /\
  (is_Some (escalationDetails r) <->
   res_type r = ESCALATE_AGENT \/ res_type r = ESCALATE_SPECIALIST) /\
  (forall d, escalationDetails r = Some d ->
     ticketNumber d = generateTicketNumber env /\
     referenceNumber r = Some (ticketNumber d) /\
     res_steps r = None /\
     (res_type r = ESCALATE_AGENT ->
      team d = "Customer Support Team" /\ priority d = medium) /\
     (res_type r = ESCALATE_SPECIALIST ->
      team d = "Specialist Team" /\ priority d = high)) /\
  (res_type r = AUTOMATED_ACTION ->
   referenceNumber r = Some (generateReferenceNumber env)) /\
  (res_type r = SELF_SERVICE \/ res_type r = INFORMATION_PROVIDED ->
   referenceNumber r = None).
Proof.
  intros env cat answers. unfold findResolution.
  destruct (findMatchingResolution_In cat answers) as (path & -> & _).
  eexists. split; [reflexivity|].
  destruct (rp_type path); cbn;
    (split_and!;
     [ split; [intros [? ?]; (done || auto)|intros [?|?]; (done || eauto)]
     | intros d Hd; try done; injection Hd as <-; by split_and!
     | done
     | intros [?|?]; done ]).
Qed.

Lemma stepsDeclared_holds : stepsDeclared = true.
Proof. by vm_compute. Qed.

(** X24.  Every resolution that [findResolution] builds passes
    [validateResolution], for every category and every answers map: the
    message is not empty, each declared self-service or automated-action
    path brings its steps, and each escalation its details. *)
Theorem findResolution_is_valid :
  forall (env : Entropy) (cat : IssueCategory) (answers : gmap string string),
  exists resolution,
    findResolution env cat answers = inl resolution /\
    validateResolution resolution = true.
Proof.
  intros env cat answers.
  destruct (findMatchingResolution_In cat answers) as (path & Hfind & Hin).
  unfold findResolution. rewrite Hfind. eexists. split; [reflexivity|].
  pose proof stepsDeclared_holds as Hall. unfold stepsDeclared in Hall.
  rewrite forallb_forall in Hall.
  specialize (Hall path (In_allPaths _ _ Hin)). cbv beta in Hall.
  destruct (rp_type path); try done.
  - destruct (steps path) as [[|s l]|]; done.
  - destruct (steps path) as [[|s l]|]; done.
Qed.

Lemma isDigit_not_dash c : isDigit c = true -> Ascii.eqb c "-" = false.
Proof. destruct c as [[] [] [] [] [] [] [] []]; by vm_compute. Qed.

Lemma length_append (s1 s2 : string) :
  String.length (s1 ++ s2) = (String.length s1 + String.length s2)%nat.
Proof.
  induction s1 as [|c s1 IH]; [done|].
  change (S (String.length (s1 ++ s2)) = S (String.length s1 + String.length s2)).
  by rewrite IH.
Qed.

Lemma removeDashes_cons c s :
  removeDashes (String c s)
  = if Ascii.eqb c "-" then removeDashes s else String c (removeDashes s).
Proof. reflexivity. Qed.

Lemma allDigits_append (s1 s2 : string) :
  allDigits (s1 ++ s2) = allDigits s1 && allDigits s2.
Proof.
  induction s1 as [|c s1 IH]; [done|].
  change (isDigit c && allDigits (s1 ++ s2)
          = isDigit c && allDigits s1 && allDigits s2).
  by rewrite IH, andb_assoc.
Qed.

(** A number below [10 ^ k] is printed with at most [k] digits. *)
Lemma pretty_N_go_length (k : nat) : forall (x : N) (s : string),
  (x < 10 ^ N.of_nat k)%N ->
  (String.length (pretty_N_go x s) <= String.length s + k)%nat.
Proof.
  induction k as [|k IH]; intros x s Hx.
  - assert (x = 0%N) as -> by (change (x < 1)%N in Hx; lia).
    rewrite pretty_N_go_0. lia.
  - assert (x = 0 \/ 0 < x)%N as [->|Hpos] by lia.
    + rewrite pretty_N_go_0. lia.
    + rewrite pretty_N_go_step by done.
      etransitivity; [apply IH|cbn [String.length]; lia].
      rewrite Nat2N.inj_succ, N.pow_succ_r' in Hx.
      apply N.Div0.div_lt_upper_bound. lia.
Qed.

Lemma zeros_digits (m : nat) :
  String.length (String.concat EmptyString (repeat "0" m)) = m /\
  allDigits (String.concat EmptyString (repeat "0" m)) = true.
Proof.
  induction m as [|m [IH1 IH2]]; [done|].
  destruct m as [|m]; [done|].
  change (String.concat EmptyString (repeat "0" (S (S m))))
    with (String "0" (String.concat EmptyString (repeat "0" (S m)))).
  cbn [String.length allDigits]. by rewrite IH1, IH2.
Qed.

Lemma padded_random_digits (x : N) :
  (x < 10000)%N ->
  String.length (padStart0 4 (pretty x)) = 4%nat /\
  allDigits (padStart0 4 (pretty x)) = true.
Proof.
  intros Hx.
  assert (allDigits (pretty x) = true /\ (String.length (pretty x) <= 4)%nat)
    as [Hd Hl].
  { unfold pretty, pretty_N. destruct (decide (x = 0%N)); [by split; [|cbn; lia]|].
    split.
    - apply (pretty_N_go_digits x EmptyString eq_refl).
    - apply (pretty_N_go_length 4 x EmptyString). exact Hx. }
  unfold padStart0.
  destruct (zeros_digits (4 - String.length (pretty x))) as [Hz1 Hz2].
  rewrite length_append, allDigits_append, Hz1, Hz2, Hd. split; [lia|done].
Qed.

(** X25.  A ticket number has the form TKT-YYYYMMDD-XXXX: when the ISO
    time stamp starts with a date [dddd-dd-dd] and the random number is
    below 10000, it is "TKT-", the eight digits of the date, a dash and
    four digits, 17 characters in all; the random number is padded with
    zeros on the left. *)
Theorem generateTicketNumber_format :
  forall env : Entropy,
  isoDatePrefix (isoNow env) = true ->
  (random10000 env < 10000)%N ->
  exists date suffix,
    generateTicketNumber env = "TKT-" ++ date ++ "-" ++ suffix /\
    String.length date = 8%nat /\ allDigits date = true /\
    String.length suffix = 4%nat /\ allDigits suffix = true /\
    String.length (generateTicketNumber env) = 17%nat.
Proof.
  intros env Hiso Hrandom. unfold generateTicketNumber. cbv zeta.
  set (date := removeDashes (String.substring 0 10 (isoNow env))).
  set (suffix := padStart0 4 (pretty (random10000 env))).
  assert (String.length date = 8%nat /\ allDigits date = true) as [Hd1 Hd2].
  { subst date. unfold isoDatePrefix in Hiso.
    destruct (isoNow env) as [|y1 [|y2 [|y3 [|y4 [|d1 [|m1 [|m2 [|d2 [|a1 [|a2 rest]]]]]]]]]];
      try done.
    apply andb_true_iff in Hiso as [Hiso Ha2].
    apply andb_true_iff in Hiso as [Hiso Ha1].
    apply andb_true_iff in Hiso as [Hiso Hd2].
    apply andb_true_iff in Hiso as [Hiso Hm2].
    apply andb_true_iff in Hiso as [Hiso Hm1].
    apply andb_true_iff in Hiso as [Hiso Hd1].
    apply andb_true_iff in Hiso as [Hiso Hy4].
    apply andb_true_iff in Hiso as [Hiso Hy3].
    apply andb_true_iff in Hiso as [Hy1 Hy2].
    cbn [String.substring].
    replace (String.substring 0 0 rest) with EmptyString by (by destruct rest).
    rewrite removeDashes_cons, (isDigit_not_dash y1 Hy1).
    rewrite removeDashes_cons, (isDigit_not_dash y2 Hy2).
    rewrite removeDashes_cons, (isDigit_not_dash y3 Hy3).
    rewrite removeDashes_cons, (isDigit_not_dash y4 Hy4).
    rewrite removeDashes_cons, Hd1.
    rewrite removeDashes_cons, (isDigit_not_dash m1 Hm1).
    rewrite removeDashes_cons, (isDigit_not_dash m2 Hm2).
    rewrite removeDashes_cons, Hd2.
    rewrite removeDashes_cons, (isDigit_not_dash a1 Ha1).
    rewrite removeDashes_cons, (isDigit_not_dash a2 Ha2).
    cbn [removeDashes String.length allDigits].
    rewrite Hy1, Hy2, Hy3, Hy4, Hm1, Hm2, Ha1, Ha2.
    by split. }
  assert (String.length suffix = 4%nat /\ allDigits suffix = true) as [Hs1 Hs2].
  { subst suffix. by apply padded_random_digits. }
  exists date, suffix. split_and!; [done..|].
  rewrite !length_append, Hd1, Hs1. reflexivity.
Qed.

Lemma generateTicketNumber_format_witness :
  String.length
    (generateTicketNumber
       {| isoNow := "2025-03-09T08:15:30.250Z"; random10000 := 7%N;
          uuid := "3f1c0a52-7b8e-4d19-9c6a-2e5f4b7d8a90" |}) = 17%nat.
Proof.
  destruct (generateTicketNumber_format
              {| isoNow := "2025-03-09T08:15:30.250Z"; random10000 := 7%N;
                 uuid := "3f1c0a52-7b8e-4d19-9c6a-2e5f4b7d8a90" |})
    as (date & suffix & _ & _ & _ & _ & _ & Hlen).
  - reflexivity.
  - reflexivity.
  - exact Hlen.
Defined.

(** *** Suggested questions *)

(** X26.  Of the ids that [getSuggestedQuestions] suggests, only the
    root of the category's tree is a question: "confirm_category",
    suggested first at MEDIUM confidence, and "clarify_issue", the only
    suggestion at LOW confidence, are declared in no tree, so
    [getQuestion] finds nothing for them. *)
Theorem getSuggestedQuestions_declared_ids :
  forall (cat : IssueCategory) (confidenceLevel id : string),
  In id (getSuggestedQuestions cat confidenceLevel) ->
  (is_Some (getQuestion cat id) <-> id = rootQuestionId (QUESTION_TREES cat)) /\
  (id <> rootQuestionId (QUESTION_TREES cat) ->
   (id = "confirm_category" /\ confidenceLevel = "MEDIUM" \/
    id = "clarify_issue" /\ confidenceLevel = "LOW") /\
   forall cat', getQuestion cat' id = None) /\
  (confidenceLevel = "LOW" -> id = "clarify_issue").
Proof.
  intros cat confidenceLevel id Hin.
  assert (is_Some (getQuestion cat (rootQuestionId (QUESTION_TREES cat)))) as Hroot
    by (destruct cat; by eexists).
  assert (forall cat', getQuestion cat' "confirm_category" = None /\
                       getQuestion cat' "clarify_issue" = None /\
                       rootQuestionId (QUESTION_TREES cat') <> "confirm_category" /\
                       rootQuestionId (QUESTION_TREES cat') <> "clarify_issue")
    as Hnone by (intros cat'; by destruct cat').
  unfold getSuggestedQuestions, getQuestionTree in Hin.
  destruct (String.eqb_spec confidenceLevel "HIGH") as [->|H1].
  { destruct Hin as [<-|[]]. by split_and!. }
  destruct (String.eqb_spec confidenceLevel "MEDIUM") as [->|H2].
  { destruct Hin as [<-|[<-|[]]]; [|by split_and!].
    destruct (Hnone cat) as (Hc & _ & Hr & _). split_and!.
    - rewrite Hc. split; [by intros [? ?]|]. intros Heq. by destruct Hr.
    - intros _. split; [auto|]. intros cat'. apply Hnone.
    - done. }
  destruct (String.eqb_spec confidenceLevel "LOW") as [->|H3].
  { destruct Hin as [<-|[]].
    destruct (Hnone cat) as (_ & Hc & _ & Hr). split_and!.
    - rewrite Hc. split; [by intros [? ?]|]. intros Heq. by destruct Hr.
    - intros _. split; [auto|]. intros cat'. apply Hnone.
    - done. }
  destruct Hin as [<-|[]]. by split_and!.
Qed.

Lemma getSuggestedQuestions_declared_ids_witness :
  In "clarify_issue" (getSuggestedQuestions BILLING_INQUIRY "LOW") /\
  getQuestion BILLING_INQUIRY "clarify_issue" = None /\
  getQuestion OTHER "clarify_issue" = None.
Proof.
  split; [left; reflexivity|].
  split;
    refine (proj2 (proj1 (proj2
              (getSuggestedQuestions_declared_ids BILLING_INQUIRY "LOW"
                 "clarify_issue" _))
              _) _);
    first [ left; reflexivity | discriminate ].
Defined.
(** *** Keyword classification *)

Lemma matchCount_pos messageLower metadata keyword :
  In keyword (keywords metadata) ->
  includes messageLower (toLowerCase keyword) = true ->
  (0 < matchCount messageLower metadata)%nat.
Proof.
  intros Hin Hinc. unfold matchCount.
  assert (In keyword
            (List.filter (fun keyword => includes messageLower (toLowerCase keyword))
               (keywords metadata))) as Hf
    by (apply filter_In; auto).
  destruct (List.filter _ _); [destruct Hf | simpl; lia].
Qed.

Lemma firstKeywordMatch_first messageLower entries cat :
  In cat entries ->
  (0 < matchCount messageLower (ISSUE_CATEGORIES cat))%nat ->
  (forall c, In c (declaredBefore cat entries) ->
             matchCount messageLower (ISSUE_CATEGORIES c) = 0%nat) ->
  firstKeywordMatch messageLower entries =
    Some {| cl_category := cat;
            cl_confidence :=
              keywordConfidence (matchCount messageLower (ISSUE_CATEGORIES cat));
            cl_reasoning :=
              "Matched " ++ pretty (matchCount messageLower (ISSUE_CATEGORIES cat))
                ++ " keywords (fallback classification)" |}.
Proof.
  intros Hin Hpos. induction entries as [|c rest IH]; [destruct Hin|].
  intros Hbefore. cbn [firstKeywordMatch declaredBefore] in *.
  destruct (decide (c = cat)) as [->|Hne].
  - apply Nat.ltb_lt in Hpos. by rewrite Hpos.
  - rewrite (Hbefore c) by (left; reflexivity). cbn [Nat.ltb Nat.leb].
    destruct Hin as [Heq|Hin]; [contradiction|].
    apply IH; [exact Hin|]. intros c' Hc'. apply Hbefore. by right.
Qed.

Lemma firstKeywordMatch_None messageLower entries :
  (forall c, In c entries -> matchCount messageLower (ISSUE_CATEGORIES c) = 0%nat) ->
  firstKeywordMatch messageLower entries = None.
Proof.
  induction entries as [|c rest IH]; intros Hnone; [reflexivity|].
  cbn [firstKeywordMatch]. rewrite (Hnone c) by (left; reflexivity).
  cbn [Nat.ltb Nat.leb]. apply IH. intros c' Hc'. apply Hnone. by right.
Qed.

(** What the loop returned, read backwards. *)
Lemma firstKeywordMatch_inv messageLower entries :
  match firstKeywordMatch messageLower entries with
  | Some r =>
      In (cl_category r) entries /\
      (0 < matchCount messageLower (ISSUE_CATEGORIES (cl_category r)))%nat /\
      cl_confidence r =
        keywordConfidence (matchCount messageLower (ISSUE_CATEGORIES (cl_category r)))
  | None =>
      forall c, In c entries -> matchCount messageLower (ISSUE_CATEGORIES c) = 0%nat
  end.
Proof.
  induction entries as [|c rest IH]; cbn [firstKeywordMatch].
  - intros c [].
  - destruct (0 <? matchCount messageLower (ISSUE_CATEGORIES c))%nat eqn:Hpos.
    + cbn [cl_category cl_confidence]. apply Nat.ltb_lt in Hpos.
      split; [by left|]. by split.
    + destruct (firstKeywordMatch messageLower rest) as [r|].
      * destruct IH as (Hin & Hr). split; [by right | exact Hr].
      * intros c' [<-|Hc']; [|by apply IH].
        apply Nat.ltb_ge in Hpos. lia.
Qed.

(** X27.  The keyword classifier returns the first category, in the order
    of declaration, one of whose keywords occurs in the lower-cased
    message, with the number of that category's keywords that occur; the
    keywords of the categories declared later are not looked at.  Only
    when no keyword of any category occurs is the result [OTHER] with
    confidence 0.4. *)
Theorem fallbackClassification_first_category_with_keyword :
  forall (userMessage : string),
  let hits c := matchCount (toLowerCase userMessage) (ISSUE_CATEGORIES c) in
  (forall cat,
     (0 < hits cat)%nat ->
     (forall c, In c (declaredBefore cat all_categories) -> hits c = 0%nat) ->
     fallbackClassification userMessage =
       {| cl_category := cat;
          cl_confidence := keywordConfidence (hits cat);
          cl_reasoning :=
            "Matched " ++ pretty (hits cat)
              ++ " keywords (fallback classification)" |}) /\
  ((forall c, hits c = 0%nat) ->
   fallbackClassification userMessage =
     {| cl_category := OTHER;
        cl_confidence := 4 # 10;
        cl_reasoning := "No keyword matches (fallback classification)" |}).
Proof.
  intros userMessage hits. split.
  - intros cat Hpos Hbefore. unfold fallbackClassification.
    by rewrite (firstKeywordMatch_first _ _ cat (all_categories_complete cat)
                  Hpos Hbefore).
  - intros Hnone. unfold fallbackClassification.
    rewrite firstKeywordMatch_None; [reflexivity|]. intros c _. apply Hnone.
Qed.

Lemma fallbackClassification_first_category_with_keyword_witness :
  fallbackClassification "My payment was DECLINED" =
    {| cl_category := PAYMENT_ISSUE;
       cl_confidence := keywordConfidence 3;
       cl_reasoning := "Matched 3 keywords (fallback classification)" |} /\
  fallbackClassification "hello there" =
    {| cl_category := OTHER;
       cl_confidence := 4 # 10;
       cl_reasoning := "No keyword matches (fallback classification)" |}.
Proof.
  split.
  - refine (eq_trans
              (proj1 (fallbackClassification_first_category_with_keyword
                        "My payment was DECLINED") PAYMENT_ISSUE _ _) _).
    + vm_compute. lia.
    + intros c Hc. vm_compute in Hc.
      destruct Hc as [<-|[<-|[]]]; reflexivity.
    + vm_compute. reflexivity.
  - apply (proj2 (fallbackClassification_first_category_with_keyword "hello there")).
    intros c. destruct c; reflexivity.
Defined.

(** X28.  A message that contains one of the keywords of [ORDER_STATUS]
    (for instance the word "order") is classified as [ORDER_STATUS],
    whatever else it says: a request to cancel an order or to refund
    one never reaches the categories declared after it. *)
Theorem ORDER_STATUS_keywords_take_precedence :
  forall (userMessage keyword : string),
  In keyword (keywords (ISSUE_CATEGORIES ORDER_STATUS)) ->
  includes (toLowerCase userMessage) keyword = true ->
  cl_category (fallbackClassification userMessage) = ORDER_STATUS.
Proof.
  intros userMessage keyword Hin Hinc.
  assert (toLowerCase keyword = keyword) as Hlow.
  { cbn [ISSUE_CATEGORIES keywords] in Hin.
    repeat (destruct Hin as [<-|Hin]; [reflexivity|]). destruct Hin. }
  assert (0 < matchCount (toLowerCase userMessage) (ISSUE_CATEGORIES ORDER_STATUS))%nat
    as Hpos by (apply (matchCount_pos _ _ keyword); [exact Hin | by rewrite Hlow]).
  unfold fallbackClassification, all_categories. cbn [firstKeywordMatch].
  apply Nat.ltb_lt in Hpos. by rewrite Hpos.
Qed.

Lemma ORDER_STATUS_keywords_take_precedence_witness :
  cl_category (fallbackClassification "Please cancel my order and refund me")
    = ORDER_STATUS.
Proof.
  apply (ORDER_STATUS_keywords_take_precedence _ "order").
  - left. reflexivity.
  - reflexivity.
Defined.

Lemma keywordConfidence_level n :
  (1 <= n)%nat ->
  getConfidenceLevel (keywordConfidence n) = if (3 <=? n)%nat then HIGH else MEDIUM.
Proof.
  intros Hn.
  destruct n as [|[|[|[|n]]]]; [lia | reflexivity | reflexivity | reflexivity |].
  assert (Qle_bool (9 # 10)
            ((5 # 10) + inject_Z (Z.of_nat (S (S (S (S n))))) * (1 # 10)) = true)
    as Hle.
  { apply Qle_bool_iff. unfold Qle, Qplus, Qmult, inject_Z.
    cbn [Qnum Qden Pos.mul]. lia. }
  unfold keywordConfidence, mathMin. rewrite Hle. reflexivity.
Qed.

Lemma keywordConfidence_bounds n :
  (1 <= n)%nat ->
  (6 # 10 <= keywordConfidence n)%Q /\ (keywordConfidence n <= 9 # 10)%Q.
Proof.
  intros Hn. unfold keywordConfidence, mathMin.
  destruct (Qle_bool (9 # 10) _) eqn:Hle.
  - split; [by vm_compute | apply Qle_refl].
  - split.
    + unfold Qle, Qplus, Qmult, inject_Z. cbn [Qnum Qden Pos.mul]. lia.
    + apply Qlt_le_weak, Qnot_le_lt. intros H. apply Qle_bool_iff in H. congruence.
Qed.

(** X29.  Classifying with the keyword classifier: the confidence lies
    between 0.4 and 0.9; the level is LOW exactly when no keyword of any
    category occurs in the message, and then the only suggested question
    is [clarify_issue]; it is HIGH exactly when at least three keywords of
    the chosen category occur, and then the root question of the
    category's tree is suggested alone; otherwise it is MEDIUM and the
    root question comes after [confirm_category]. *)
Theorem classifyIssue_keyword_levels :
  forall (userMessage : string),
  let classified := fallbackClassification userMessage in
  let result := classifyIssue classified in
  let n := matchCount (toLowerCase userMessage)
             (ISSUE_CATEGORIES (cl_category classified)) in
  let root := rootQuestionId (getQuestionTree (cl_category classified)) in
  (4 # 10 <= cr_confidence result)%Q /\ (cr_confidence result <= 9 # 10)%Q /\
  (n = 0%nat <->
   forall c, matchCount (toLowerCase userMessage) (ISSUE_CATEGORIES c) = 0%nat) /\
  confidenceLevel result =
    (if (3 <=? n)%nat then HIGH else if (1 <=? n)%nat then MEDIUM else LOW) /\
  suggestedQuestions result =
    (if (3 <=? n)%nat then [root]
     else if (1 <=? n)%nat then ["confirm_category"; root]
     else ["clarify_issue"]).
Proof.
  intros userMessage. cbv zeta. unfold classifyIssue.
  cbn [cr_confidence confidenceLevel suggestedQuestions].
  unfold fallbackClassification.
  pose proof (firstKeywordMatch_inv (toLowerCase userMessage) all_categories) as Hinv.
  destruct (firstKeywordMatch (toLowerCase userMessage) all_categories) as [r|].
  - destruct Hinv as (_ & Hpos & Hconf). rewrite Hconf.
    set (n := matchCount (toLowerCase userMessage) (ISSUE_CATEGORIES (cl_category r)))
      in *.
    destruct (keywordConfidence_bounds n) as [Hlo Hhi]; [lia|].
    rewrite (keywordConfidence_level n) by lia.
    split; [eapply Qle_trans; [|exact Hlo]; by vm_compute|].
    split; [exact Hhi|]. split.
    { split; [lia|]. intros Hnone. specialize (Hnone (cl_category r)).
      fold n in Hnone. lia. }
    destruct (3 <=? n)%nat eqn:H3.
    + split; reflexivity.
    + assert ((1 <=? n)%nat = true) as -> by (apply Nat.leb_le; lia).
      split; reflexivity.
  - cbn [cl_category cl_confidence].
    assert (matchCount (toLowerCase userMessage) (ISSUE_CATEGORIES OTHER) = 0%nat)
      as -> by (apply Hinv, all_categories_complete).
    split; [by vm_compute|]. split; [by vm_compute|]. split.
    { split; [|reflexivity]. intros _ c. apply Hinv, all_categories_complete. }
    split; reflexivity.
Qed.

(** *** Creating and reading back *)

(** X30.  A session just created can be read back: until [TIMEOUT_MS]
    after its creation [getSession] returns exactly the session that
    [createSession] returned, whatever the store held before, and leaves
    the store alone.  The new session is unresolved and has no category
    and no answers; its history is empty exactly when no initial message
    was given or the initial message is the empty string, and otherwise it
    is the initial message alone, as a user message. *)
Theorem createSession_then_getSession :
  forall (sessions : Sessions) (mode : ConversationMode)
         (initialMessage : option string) (uuidSession uuidMessage : string)
         (now later : Z),
  later - now <= TIMEOUT_MS ->
  let result :=
    createSession sessions mode initialMessage uuidSession uuidMessage now in
  getSession result.1 uuidSession later = (result.1, Some result.2) /\
  sessionId result.2 = uuidSession /\
  (category result.2, resolved result.2, answers result.2) = (None, false, ∅) /\
  (conversationHistory result.2 = [] <->
   initialMessage = None \/ initialMessage = Some EmptyString) /\
  (forall msg, initialMessage = Some msg -> msg <> EmptyString ->
     (content <$> conversationHistory result.2, role <$> conversationHistory result.2)
     = ([msg], [user])).
Proof.
  intros sessions mode initialMessage uuidSession uuidMessage now later Hlater result.
  split_and!.
  - subst result. unfold createSession, getSession. cbn [fst snd].
    rewrite mapGet_mapSet_eq. cbn [updatedAt].
    destruct (later - now >? TIMEOUT_MS) eqn:Hgt; [|reflexivity].
    apply Z.gtb_lt in Hgt. lia.
  - reflexivity.
  - reflexivity.
  - subst result. unfold createSession. cbn [snd conversationHistory].
    destruct initialMessage as [msg|]; [|by split; [left|]].
    destruct (String.eqb msg EmptyString) eqn:Hmsg.
    + apply String.eqb_eq in Hmsg as ->. by split; [right|].
    + apply String.eqb_neq in Hmsg. split; [done|].
      intros [Hnone|Hsome]; [done|]. by injection Hsome.
  - intros msg -> Hmsg. subst result. unfold createSession.
    cbn [snd conversationHistory].
    apply String.eqb_neq in Hmsg. by rewrite Hmsg.
Qed.

Lemma createSession_then_getSession_witness :
  let result :=
    createSession threeSessions USER_INITIATED (Some "Where is my order?")
      "session-9" "message-1" 5000 in
  getSession result.1 "session-9" (5000 + TIMEOUT_MS) = (result.1, Some result.2).
Proof.
  intros result.
  refine (proj1 (createSession_then_getSession threeSessions USER_INITIATED
                   (Some "Where is my order?") "session-9" "message-1" 5000
                   (5000 + TIMEOUT_MS) _)).
  vm_compute. discriminate.
Defined.

